(** * Topic mapping, namespaced topics, config migration and the
      synchronized image message handler of Foxglove Studio

    A shallow embedding of

    - [players/TopicMappingPlayer/mapping.ts] (the topic mapping engine),
    - [players/TopicMappingPlayer/TopicMappingPlayer.ts] (the proxy player),
    - [panels/ThreeDeeRender/namespaceTopic.ts],
    - [panels/ThreeDeeRender/config.ts] ([migrateConfigTopicsNodes]),
    - [panels/ThreeDeeRender/renderables/ImageMode/MessageHandler.ts],

    together with the properties the specification states about them. *)

From Stdlib Require Import ZArith Ascii String List Lia Bool.
From stdpp Require Import base option list sorting strings gmap.

Local Open Scope string_scope.
Local Open Scope list_scope.

(** ** JavaScript containers

    A JS [Map] iterates in insertion order, and [set] on a key that is
    already present keeps the key's position.  The mapping engine observes
    that order (the order of the sources in an inverted mapping, the order of
    the copies of a fanned out message), so these maps are association lists
    in insertion order. *)

Module JsMap.
Section defs.
Context {K V : Type} `{EqDecision K}.

Fixpoint get (k : K) (m : list (K * V)) : option V :=
  match m with
  | [] => None
  | (k', v) :: rest => if decide (k = k') then Some v else get k rest
  end.

Fixpoint set (k : K) (v : V) (m : list (K * V)) : list (K * V) :=
  match m with
  | [] => [(k, v)]
  | (k', v') :: rest =>
      if decide (k = k') then (k, v) :: rest else (k', v') :: set k v rest
  end.

(** The keys of a [Map] are pairwise distinct. *)
Definition wf (m : list (K * V)) : Prop := NoDup (m.*1).
End defs.
End JsMap.

(** A plain object used as a record of properties, with the prototype of
    an object literal.  What is kept of it are its own enumerable properties
    in the order [Object.keys] and [Object.entries] list them: the array
    indices first, in ascending order, then the other names in the order in
    which they were created.

    An assignment [obj[key] = value] creates or updates an own property,
    except for the name [__proto__]: that name reaches the setter inherited
    from [Object.prototype], which replaces the prototype of the object (or
    does nothing, for a value that is neither an object nor [null]) and
    creates no own property.  The prototype is not part of what is kept
    here. *)
Module PlainObject.
Definition digit (c : ascii) : option N :=
  let n := N_of_ascii c in
  if (48 <=? n)%N && (n <=? 57)%N then Some (n - 48)%N else None.

Fixpoint digits_value (acc : N) (s : string) : option N :=
  match s with
  | EmptyString => Some acc
  | String c rest => d ← digit c; digits_value (acc * 10 + d)%N rest
  end.

(** An array index: the canonical decimal form of an integer below
    2^32 - 1. *)
Definition array_index (key : string) : option N :=
  match key with
  | EmptyString => None
  | String c rest =>
      if Ascii.eqb c "0"%char && negb (String.eqb rest "") then None
      else
        n ← digits_value 0 key;
        if (n <? 4294967295)%N then Some n else None
  end.

Section defs.
Context {V : Type}.

(** A new property named by the array index [i] takes its place among the
    array indices, which come first. *)
Fixpoint insert_index (i : N) (key : string) (v : V) (o : list (string * V))
    : list (string * V) :=
  match o with
  | [] => [(key, v)]
  | (k', v') :: rest =>
      match array_index k' with
      | Some j =>
          if (i <? j)%N then (key, v) :: o else (k', v') :: insert_index i key v rest
      | None => (key, v) :: o
      end
  end.

Definition assign (key : string) (v : V) (o : list (string * V)) : list (string * V) :=
  if decide (key = "__proto__") then o
  else
    match JsMap.get key o, array_index key with
    | None, Some i => insert_index i key v o
    | _, _ => JsMap.set key v o
    end.

(** The same assignment when the order of the properties is of no
    interest and they are kept as a finite map. *)
Definition assign_property (key : string) (v : V) (o : gmap string V) : gmap string V :=
  if decide (key = "__proto__") then o else <[key := v]> o.
End defs.
End PlainObject.

(** lodash [uniq]: scans left to right and keeps an element when it is not
    among those already kept. *)
Definition uniq_step (acc : list string) (x : string) : list string :=
  if decide (x ∈ acc) then acc else acc ++ [x].

Definition uniq (l : list string) : list string := fold_left uniq_step l [].

(** The de-duplicated list as the specification speaks of it: every name
    once, at the place where it first occurs. *)
Fixpoint dedup (l : list string) : list string :=
  match l with
  | [] => []
  | x :: rest => x :: filter (fun y => y ≠ x) (dedup rest)
  end.

(** What a function hands back: the very object it was given (the same
    reference), or a newly allocated object with the given content. *)
Inductive returned (A : Type) : Type :=
  | SameRef
  | NewObj (a : A).
Arguments SameRef {A}.
Arguments NewObj {A} a.

Definition contents {A : Type} (input : A) (r : returned A) : A :=
  match r with
  | SameRef => input
  | NewObj a => a
  end.

(** A list read as the optional entry of a map: no entry when it is empty. *)
Definition entry_of {A : Type} (l : list A) : option (list A) :=
  match l with
  | [] => None
  | _ :: _ => Some l
  end.

(** ** Player data *)

Record Time : Type := mkTime { sec : Z; nsec : Z }.

#[global] Instance Time_eq_dec : EqDecision Time.
Proof. solve_decision. Defined.

Record Topic : Type := mkTopic {
  name : string;
  schemaName : option string;
  convertibleTo : option (list string);
  mappedFromName : option string;
}.

Inductive PreloadType : Type := PreloadFull | PreloadPartial.

Record SubscribePayload : Type := mkSubscribePayload {
  sub_topic : string;
  sub_preloadType : option PreloadType;
  sub_fields : option (list string);
}.

(** ** The topic mapping engine ([mapping.ts]) *)

(** [TopicMapping = Map<string, string[]>].  [EmptyMapping] is one module
    level object and the code recognises it by reference
    ([mapping === EmptyMapping]); every other map, empty or not, is a
    [MapObj]. *)
Inductive TopicMapping : Type :=
  | EmptyMapping
  | MapObj (entries : list (string * list string)).

Definition mapping_get (k : string) (mapping : TopicMapping) : option (list string) :=
  match mapping with
  | EmptyMapping => None
  | MapObj m => JsMap.get k m
  end.

Section Mapping.
(** The message payload and the global variables are opaque to the engine. *)
Context {Payload GlobalVariables : Type}.

Record MessageEvent : Type := mkMessageEvent {
  topic : string;
  msg_schemaName : string;
  receiveTime : Time;
  message : Payload;
  sizeInBytes : Z;
}.

(** [messagesByTopic] is a plain object: its entries are listed in the
    order in which [Object.keys] enumerates them. *)
Record MessageBlock : Type := mkMessageBlock {
  messagesByTopic : list (string * list MessageEvent);
  block_sizeInBytes : Z;
}.

Definition MessageBlocks : Type := list (option MessageBlock).

Record MessageCache : Type := mkMessageCache {
  blocks : MessageBlocks;
  cache_startTime : Time;
}.

Record Progress : Type := mkProgress {
  fullyLoadedFractionRanges : list (Z * Z);
  messageCache : option MessageCache;
}.

(** A registered mapper: from the known topics and the variables to a
    [Map<string, string>]. *)
Definition TopicMapper : Type := list Topic -> GlobalVariables -> list (string * string).

Record MappingInputs : Type := mkMappingInputs {
  mappers : list TopicMapper;
  topics : option (list Topic);
  variables : GlobalVariables;
}.

Definition with_topic (msg : MessageEvent) (t : string) : MessageEvent :=
  {| topic := t; msg_schemaName := msg_schemaName msg; receiveTime := receiveTime msg;
     message := message msg; sizeInBytes := sizeInBytes msg |}.

Definition with_name (tp : Topic) (n : string) : Topic :=
  {| name := n; schemaName := schemaName tp; convertibleTo := convertibleTo tp;
     mappedFromName := Some (name tp) |}.

Definition with_sub_topic (sub : SubscribePayload) (t : string) : SubscribePayload :=
  {| sub_topic := t; sub_preloadType := sub_preloadType sub; sub_fields := sub_fields sub |}.

(** The callback of lodash [transform] inside [mapBlocks]; [transform]
    visits the own properties of [block.messagesByTopic] in the order of
    [Object.keys], and the accumulator is an object literal. *)
Definition mapBlocks_step (m : list (string * list string))
    (acc : list (string * list MessageEvent)) (entry : string * list MessageEvent)
    : list (string * list MessageEvent) :=
  let '(tp, messages) := entry in
  match JsMap.get tp m with
  | Some mappings =>
      fold_left
        (fun acc mappedTopic =>
           PlainObject.assign mappedTopic
             (map (fun msg => with_topic msg mappedTopic) messages) acc)
        mappings acc
  | None => PlainObject.assign tp messages acc
  end.

Definition mapBlocks (blocks : MessageBlocks) (mapping : TopicMapping)
    : returned MessageBlocks :=
  match mapping with
  | EmptyMapping => SameRef
  | MapObj m =>
      NewObj
        (map
           (fun block =>
              match block with
              | Some b =>
                  Some {| messagesByTopic :=
                            fold_left (mapBlocks_step m) (messagesByTopic b) [];
                          block_sizeInBytes := block_sizeInBytes b |}
              | None => None
              end)
           blocks)
  end.

Definition mapMessages (messages : list MessageEvent) (mapping : TopicMapping)
    : returned (list MessageEvent) :=
  match mapping with
  | EmptyMapping => SameRef
  | MapObj m =>
      NewObj
        (flat_map
           (fun msg =>
              match JsMap.get (topic msg) m with
              | Some mappings => map (fun t => with_topic msg t) mappings
              | None => [msg]
              end)
           messages)
  end.

(** [Map<string, Set<string>>]: a [Set] is the list of its members in
    insertion order, [new Set(values)] keeps first occurrences. *)
Definition mapKeyedTopics (topics : list (string * list string)) (mapping : TopicMapping)
    : returned (list (string * list string)) :=
  match mapping with
  | EmptyMapping => SameRef
  | MapObj m =>
      NewObj
        (fold_left
           (fun mappedTopics '(key, values) =>
              let mappedValues :=
                flat_map (fun value => default [value] (JsMap.get value m)) values in
              JsMap.set key (uniq mappedValues) mappedTopics)
           topics [])
  end.

Definition mapProgress (progress : Progress) (mapping : TopicMapping) : returned Progress :=
  match mapping, messageCache progress with
  | EmptyMapping, _ => SameRef
  | _, None => SameRef
  | MapObj _, Some cache =>
      NewObj
        {| fullyLoadedFractionRanges := fullyLoadedFractionRanges progress;
           messageCache :=
             Some {| blocks := contents (blocks cache) (mapBlocks (blocks cache) mapping);
                     cache_startTime := cache_startTime cache |} |}
  end.

Definition mapTopics (topics : list Topic) (mapping : TopicMapping)
    : returned (list Topic) :=
  match mapping with
  | EmptyMapping => SameRef
  | MapObj m =>
      NewObj
        (flat_map
           (fun tp =>
              match JsMap.get (name tp) m with
              | Some mappings => map (fun n => with_name tp n) mappings
              | None => [tp]
              end)
           topics)
  end.

(** The body of [invertMapping]'s inner loop: [inverted.get(value) ?? []],
    [push(key)], [inverted.set(value, newValues)]. *)
Definition invert_value (key : string) (inverted : list (string * list string))
    (value : string) : list (string * list string) :=
  JsMap.set value (default [] (JsMap.get value inverted) ++ [key]) inverted.

Definition invert_entry (inverted : list (string * list string))
    (entry : string * list string) : list (string * list string) :=
  let '(key, values) := entry in fold_left (invert_value key) values inverted.

Definition invert_entries (m : list (string * list string)) : list (string * list string) :=
  fold_left invert_entry m [].

Definition invertMapping (mapping : TopicMapping) : TopicMapping :=
  match mapping with
  | EmptyMapping => EmptyMapping
  | MapObj m => MapObj (invert_entries m)
  end.

(** The original names that feed a renamed topic, as the specification
    describes the inverted mapping: the sources whose target list names
    [target], in the order of the mapping (once for each time it is
    listed). *)
Definition sources_of (target : string) (m : list (string * list string)) : list string :=
  flat_map
    (fun '(key, values) =>
       map (fun _ => key) (filter (fun value => value = target) values))
    m.

(** The body of [mergeMappings]'s inner loop. *)
Definition merge_entry (merged : list (string * list string)) (entry : string * string)
    : list (string * list string) :=
  let '(key, value) := entry in
  JsMap.set key (uniq (default [] (JsMap.get key merged) ++ [value])) merged.

Definition merge_map (merged : list (string * list string)) (map : list (string * string))
    : list (string * list string) :=
  fold_left merge_entry map merged.

Definition mergeMappings (maps : list (list (string * string))) : list (string * list string) :=
  fold_left merge_map maps [].

Definition run_mappers (inputs : MappingInputs) : list (list (string * string)) :=
  map (fun mapper => mapper (default [] (topics inputs)) (variables inputs)) (mappers inputs).

Definition buildMapping (inputs : MappingInputs) : TopicMapping :=
  let mappings := run_mappers inputs in
  let anyMappings := existsb (fun map => bool_decide (0 < length map)%nat) mappings in
  if anyMappings then MapObj (mergeMappings mappings) else EmptyMapping.

Definition mapSubscriptions (inputs : MappingInputs) (subcriptions : list SubscribePayload)
    : returned (list SubscribePayload) :=
  let mapping := buildMapping inputs in
  match mapping with
  | EmptyMapping => SameRef
  | MapObj _ =>
      let inverseMapping := invertMapping mapping in
      NewObj
        (flat_map
           (fun sub =>
              match mapping_get (sub_topic sub) inverseMapping with
              | Some mappings => map (fun t => with_sub_topic sub t) mappings
              | None => [sub]
              end)
           subcriptions)
  end.

Record PlayerStateActiveData : Type := mkActiveData {
  ad_messages : list MessageEvent;
  ad_topics : list Topic;
  currentTime : Time;
  publishedTopics : option (list (string * list string));
  subscribedTopics : option (list (string * list string));
}.

Record PlayerState : Type := mkPlayerState {
  playerId : string;
  activeData : option PlayerStateActiveData;
  progress : Progress;
}.

(** The [memoizeWeak] wrappers only cache results by argument identity;
    they are transparent to the values computed here. *)
Definition mapPlayerState (inputs : MappingInputs) (playerState : PlayerState) : PlayerState :=
  let mapping := buildMapping inputs in
  {| playerId := playerId playerState;
     activeData :=
       match activeData playerState with
       | Some ad =>
           Some
             {| ad_topics := contents (ad_topics ad) (mapTopics (ad_topics ad) mapping);
                ad_messages := contents (ad_messages ad) (mapMessages (ad_messages ad) mapping);
                currentTime := currentTime ad;
                publishedTopics :=
                  match publishedTopics ad with
                  | Some pt => Some (contents pt (mapKeyedTopics pt mapping))
                  | None => None
                  end;
                subscribedTopics :=
                  match subscribedTopics ad with
                  | Some st => Some (contents st (mapKeyedTopics st mapping))
                  | None => None
                  end |}
       | None => None
       end;
     progress :=
       match messageCache (progress playerState) with
       | Some _ => contents (progress playerState) (mapProgress (progress playerState) mapping)
       | None => progress playerState
       end |}.

(** ** The topic mapping player ([TopicMappingPlayer.ts])

    The wrapped player and the listener are outside the class; what the
    class does to them is recorded as a trace of calls, oldest first. *)

Inductive PlayerCall : Type :=
  | InnerSetSubscriptions (subscriptions : list SubscribePayload)
  | InnerSetGlobalVariables (globalVariables : GlobalVariables)
  | InnerSetListener
  | ListenerCalled (state : PlayerState).

Record TopicMappingPlayer : Type := mkTopicMappingPlayer {
  tmp_inputs : MappingInputs;
  pendingSubscriptions : option (list SubscribePayload);
  skipMapping : bool;
  has_listener : bool;
  calls : list PlayerCall;
}.

Definition new_TopicMappingPlayer (mappers : list TopicMapper) (variables : GlobalVariables)
    : TopicMappingPlayer :=
  {| tmp_inputs := {| mappers := mappers; topics := None; variables := variables |};
     pendingSubscriptions := None;
     skipMapping := bool_decide (length mappers = 0%nat);
     has_listener := false;
     calls := [] |}.

(** [#skipMapping] mirrors the emptiness of the mapper list. *)
Definition consistent (p : TopicMappingPlayer) : Prop :=
  skipMapping p = bool_decide (length (mappers (tmp_inputs p)) = 0%nat).

Definition call (c : PlayerCall) (p : TopicMappingPlayer) : TopicMappingPlayer :=
  {| tmp_inputs := tmp_inputs p; pendingSubscriptions := pendingSubscriptions p;
     skipMapping := skipMapping p; has_listener := has_listener p;
     calls := calls p ++ [c] |}.

Definition set_pending (pending : option (list SubscribePayload)) (p : TopicMappingPlayer)
    : TopicMappingPlayer :=
  {| tmp_inputs := tmp_inputs p; pendingSubscriptions := pending;
     skipMapping := skipMapping p; has_listener := has_listener p; calls := calls p |}.

Definition setListener (p : TopicMappingPlayer) : TopicMappingPlayer :=
  call InnerSetListener
    {| tmp_inputs := tmp_inputs p; pendingSubscriptions := pendingSubscriptions p;
       skipMapping := skipMapping p; has_listener := true; calls := calls p |}.

Definition setMappers (p : TopicMappingPlayer) (mappers : list TopicMapper)
    : TopicMappingPlayer :=
  {| tmp_inputs := {| mappers := mappers; topics := topics (tmp_inputs p);
                      variables := variables (tmp_inputs p) |};
     pendingSubscriptions := pendingSubscriptions p;
     skipMapping := bool_decide (length mappers = 0%nat);
     has_listener := has_listener p; calls := calls p |}.

Definition setSubscriptions (p : TopicMappingPlayer) (subscriptions : list SubscribePayload)
    : TopicMappingPlayer :=
  if skipMapping p then call (InnerSetSubscriptions subscriptions) p
  else
    match topics (tmp_inputs p) with
    | Some _ =>
        let mappedSubscriptions :=
          contents subscriptions (mapSubscriptions (tmp_inputs p) subscriptions) in
        set_pending None (call (InnerSetSubscriptions mappedSubscriptions) p)
    | None => set_pending (Some subscriptions) p
    end.

Definition setGlobalVariables (p : TopicMappingPlayer) (globalVariables : GlobalVariables)
    : TopicMappingPlayer :=
  let p := call (InnerSetGlobalVariables globalVariables) p in
  {| tmp_inputs := {| mappers := mappers (tmp_inputs p); topics := topics (tmp_inputs p);
                      variables := globalVariables |};
     pendingSubscriptions := pendingSubscriptions p;
     skipMapping := skipMapping p; has_listener := has_listener p; calls := calls p |}.

Definition notify_listener (state : PlayerState) (p : TopicMappingPlayer)
    : TopicMappingPlayer :=
  if has_listener p then call (ListenerCalled state) p else p.

(** [#onPlayerState]; the listener is taken not to call back into the
    player while it is awaited. *)
Definition onPlayerState (p : TopicMappingPlayer) (playerState : PlayerState)
    : TopicMappingPlayer :=
  if skipMapping p then notify_listener playerState p
  else
    let p :=
      {| tmp_inputs := {| mappers := mappers (tmp_inputs p);
                          topics := option_map ad_topics (activeData playerState);
                          variables := variables (tmp_inputs p) |};
         pendingSubscriptions := pendingSubscriptions p;
         skipMapping := skipMapping p; has_listener := has_listener p; calls := calls p |} in
    let newState := mapPlayerState (tmp_inputs p) playerState in
    let p := notify_listener newState p in
    match pendingSubscriptions p, topics (tmp_inputs p) with
    | Some pending, Some _ => setSubscriptions p pending
    | _, _ => p
    end.
End Mapping.

(** *** The player in use

    A client calls the methods of the player, and the wrapped player hands
    states to the listener the proxy registered with it; a life of the
    player is a sequence of such events. *)
Section PlayerRuns.
Context {Payload GlobalVariables : Type}.

Inductive PlayerOp : Type :=
  | OpSetListener
  | OpSetMappers (mappers : list (@TopicMapper GlobalVariables))
  | OpSetSubscriptions (subscriptions : list SubscribePayload)
  | OpSetGlobalVariables (globalVariables : GlobalVariables)
  | OpPlayerState (playerState : @PlayerState Payload).

Definition apply_op (p : @TopicMappingPlayer Payload GlobalVariables) (op : PlayerOp)
    : @TopicMappingPlayer Payload GlobalVariables :=
  match op with
  | OpSetListener => setListener p
  | OpSetMappers mappers => setMappers p mappers
  | OpSetSubscriptions subscriptions => setSubscriptions p subscriptions
  | OpSetGlobalVariables globalVariables => setGlobalVariables p globalVariables
  | OpPlayerState playerState => onPlayerState p playerState
  end.

Definition run_ops (p : @TopicMappingPlayer Payload GlobalVariables) (ops : list PlayerOp)
    : @TopicMappingPlayer Payload GlobalVariables :=
  fold_left apply_op ops p.

(** What a proxy that maps nothing would do with the same events: every
    request goes to the wrapped player as it is, and every state goes to the
    listener, once there is one, as it is. *)
Fixpoint direct_calls (listening : bool) (ops : list PlayerOp)
    : list (@PlayerCall Payload GlobalVariables) :=
  match ops with
  | [] => []
  | OpSetListener :: ops => InnerSetListener :: direct_calls true ops
  | OpSetMappers _ :: ops => direct_calls listening ops
  | OpSetSubscriptions subscriptions :: ops =>
      InnerSetSubscriptions subscriptions :: direct_calls listening ops
  | OpSetGlobalVariables globalVariables :: ops =>
      InnerSetGlobalVariables globalVariables :: direct_calls listening ops
  | OpPlayerState playerState :: ops =>
      (if listening then [ListenerCalled playerState] else []) ++ direct_calls listening ops
  end.

(** The event registers no mapper. *)
Definition keeps_no_mapper (op : PlayerOp) : Prop :=
  match op with
  | OpSetMappers mappers => mappers = []
  | _ => True
  end.

Definition mappers_of (op : PlayerOp) : option (list (@TopicMapper GlobalVariables)) :=
  match op with
  | OpSetMappers mappers => Some mappers
  | _ => None
  end.

Definition variables_of (op : PlayerOp) : option GlobalVariables :=
  match op with
  | OpSetGlobalVariables globalVariables => Some globalVariables
  | _ => None
  end.
End PlayerRuns.

(** ** Namespaced topics ([namespaceTopic.ts])

    A JS string is represented by its bytes in UTF-8, a lone surrogate being
    written as the three bytes of its code point (generalised UTF-8).  A
    string is then well formed, that is free of lone surrogates, exactly when
    its bytes are valid UTF-8.  [encodeURIComponent] and
    [decodeURIComponent] are the built-in functions of ECMA-262 (Encode and
    Decode with the [uriUnescaped] set and the empty reserved set). *)

Definition byte_of (c : ascii) : N := N_of_ascii c.

(** Length of the UTF-8 sequence announced by a leading byte: the number of
    its leading one bits, with 0 read as a single byte. *)
Definition seq_len (b : N) : option nat :=
  if (b <? 128)%N then Some 1%nat
  else if (b <? 192)%N then None
  else if (b <? 224)%N then Some 2%nat
  else if (b <? 240)%N then Some 3%nat
  else if (b <? 248)%N then Some 4%nat
  else None.

Definition is_cont (b : N) : bool := (128 <=? b)%N && (b <? 192)%N.

(** The octets are the UTF-8 encoding of one Unicode scalar value (no
    overlong form, no surrogate, at most U+10FFFF). *)
Definition valid_octets (o : list N) : bool :=
  match o with
  | [b0] => (b0 <? 128)%N
  | [b0; b1] => (194 <=? b0)%N && (b0 <? 224)%N && is_cont b1
  | [b0; b1; b2] =>
      (224 <=? b0)%N && (b0 <? 240)%N && is_cont b1 && is_cont b2
      && (negb (b0 =? 224)%N || (160 <=? b1)%N)
      && (negb (b0 =? 237)%N || (b1 <? 160)%N)
  | [b0; b1; b2; b3] =>
      (240 <=? b0)%N && (b0 <? 245)%N && is_cont b1 && is_cont b2 && is_cont b3
      && (negb (b0 =? 240)%N || (144 <=? b1)%N)
      && (negb (b0 =? 244)%N || (b1 <? 144)%N)
  | _ => false
  end.

Fixpoint well_formed_bytes (s : list ascii) : bool :=
  match s with
  | [] => true
  | c0 :: s1 =>
      match seq_len (byte_of c0) with
      | Some 1%nat => well_formed_bytes s1
      | Some 2%nat =>
          match s1 with
          | c1 :: s2 => valid_octets [byte_of c0; byte_of c1] && well_formed_bytes s2
          | _ => false
          end
      | Some 3%nat =>
          match s1 with
          | c1 :: c2 :: s3 =>
              valid_octets [byte_of c0; byte_of c1; byte_of c2] && well_formed_bytes s3
          | _ => false
          end
      | Some 4%nat =>
          match s1 with
          | c1 :: c2 :: c3 :: s4 =>
              valid_octets [byte_of c0; byte_of c1; byte_of c2; byte_of c3]
              && well_formed_bytes s4
          | _ => false
          end
      | _ => false
      end
  end.

(** The string has no lone surrogate: percent-encoding does not break it. *)
Definition well_formed (s : string) : Prop :=
  well_formed_bytes (list_ascii_of_string s) = true.

(** [uriUnescaped]: letters, digits and [- _ . ! ~ * ' ( )]. *)
Definition is_unreserved (c : ascii) : bool :=
  let n := byte_of c in
  ((65 <=? n)%N && (n <=? 90)%N) || ((97 <=? n)%N && (n <=? 122)%N)
  || ((48 <=? n)%N && (n <=? 57)%N)
  || existsb (N.eqb n) [45; 95; 46; 33; 126; 42; 39; 40; 41]%N.

Definition hex_digit (n : N) : ascii :=
  if (n <? 10)%N then ascii_of_N (48 + n) else ascii_of_N (55 + n).

Definition hex_value (c : ascii) : option N :=
  let n := byte_of c in
  if (48 <=? n)%N && (n <=? 57)%N then Some (n - 48)%N
  else if (65 <=? n)%N && (n <=? 70)%N then Some (n - 55)%N
  else if (97 <=? n)%N && (n <=? 102)%N then Some (n - 87)%N
  else None.

Definition percent : ascii := "%"%char.
Definition colon : ascii := ":"%char.

Definition encode_byte (c : ascii) : list ascii :=
  if is_unreserved c then [c]
  else [percent; hex_digit (byte_of c / 16); hex_digit (byte_of c mod 16)].

Definition encode_bytes (s : list ascii) : list ascii := flat_map encode_byte s.

(** [encodeURIComponent] throws a URIError ([None]) on a lone surrogate. *)
Definition encodeURIComponent (s : string) : option string :=
  if well_formed_bytes (list_ascii_of_string s)
  then Some (string_of_list_ascii (encode_bytes (list_ascii_of_string s)))
  else None.

(** Decoding reads the text as literal characters and [%XY] escapes ... *)
Inductive token : Type :=
  | Raw (c : ascii)
  | Esc (c : ascii).

Fixpoint tokenize (s : list ascii) : option (list token) :=
  match s with
  | [] => Some []
  | c :: rest =>
      if decide (c = percent) then
        match rest with
        | h1 :: h2 :: rest' =>
            match hex_value h1, hex_value h2 with
            | Some a, Some b => cons (Esc (ascii_of_N (16 * a + b))) <$> tokenize rest'
            | _, _ => None
            end
        | _ => None
        end
      else cons (Raw c) <$> tokenize rest
  end.

(** ... and then turns every run of escapes that starts with a byte above 127
    into the character its octets encode, failing when the run is too short
    or the octets are not valid UTF-8. *)
Fixpoint decode_tokens (ts : list token) : option (list ascii) :=
  match ts with
  | [] => Some []
  | Raw c :: ts1 => cons c <$> decode_tokens ts1
  | Esc c0 :: ts1 =>
      match seq_len (byte_of c0) with
      | Some 1%nat => cons c0 <$> decode_tokens ts1
      | Some 2%nat =>
          match ts1 with
          | Esc c1 :: ts2 =>
              if valid_octets [byte_of c0; byte_of c1]
              then (fun r => c0 :: c1 :: r) <$> decode_tokens ts2
              else None
          | _ => None
          end
      | Some 3%nat =>
          match ts1 with
          | Esc c1 :: Esc c2 :: ts3 =>
              if valid_octets [byte_of c0; byte_of c1; byte_of c2]
              then (fun r => c0 :: c1 :: c2 :: r) <$> decode_tokens ts3
              else None
          | _ => None
          end
      | Some 4%nat =>
          match ts1 with
          | Esc c1 :: Esc c2 :: Esc c3 :: ts4 =>
              if valid_octets [byte_of c0; byte_of c1; byte_of c2; byte_of c3]
              then (fun r => c0 :: c1 :: c2 :: c3 :: r) <$> decode_tokens ts4
              else None
          | _ => None
          end
      | _ => None
      end
  end.

(** How a byte appears in encoded text: as itself or as an escape. *)
Definition token_of (c : ascii) : token := if is_unreserved c then Raw c else Esc c.

Definition decodeURIComponent (s : string) : option string :=
  ts ← tokenize (list_ascii_of_string s);
  string_of_list_ascii <$> decode_tokens ts.

(** [topic.split(":")[0]]: the text before the first colon, all of it when
    there is none. *)
Fixpoint first_segment (s : list ascii) : list ascii :=
  match s with
  | [] => []
  | c :: rest => if decide (c = colon) then [] else c :: first_segment rest
  end.

Definition NamespacedTopic : Type := string.

Definition namespaceTopic (topic schema : string) : option NamespacedTopic :=
  t ← encodeURIComponent topic;
  s ← encodeURIComponent schema;
  Some (t +:+ ":" +:+ s).

Definition unnamespacetopic (topic : NamespacedTopic) : option string :=
  let encodedTopic := string_of_list_ascii (first_segment (list_ascii_of_string topic)) in
  decodeURIComponent encodedTopic.

(** The characters of an encoded component: the unreserved ones and the
    percent sign of the escapes. *)
Definition uri_safe (c : ascii) : bool := is_unreserved c || Ascii.eqb c percent.

(** ** Choosing a schema for a topic

    [topicIsConvertibleToSchema] and [convertibleSchemaForTopic], the helpers
    that pick among a topic's own schema and the schemas it converts to.  A
    topic without a schema name is in no set of schema names. *)
Definition has_schema (supportedSchemaNames : gset string) (schemaName : option string) : bool :=
  match schemaName with
  | Some s => bool_decide (s ∈ supportedSchemaNames)
  | None => false
  end.

Definition topicIsConvertibleToSchema (topic : Topic) (supportedSchemaNames : gset string)
    : bool :=
  has_schema supportedSchemaNames (schemaName topic)
  || match convertibleTo topic with
     | Some names => existsb (fun name => bool_decide (name ∈ supportedSchemaNames)) names
     | None => false
     end.

Definition convertibleSchemaForTopic (topic : Topic) (supportedSchemaNames : gset string)
    : option string :=
  if has_schema supportedSchemaNames (schemaName topic) then schemaName topic
  else convertibleTo topic ≫= find (fun name => bool_decide (name ∈ supportedSchemaNames)).

(** ** Migrating legacy topic settings ([config.ts]) *)

(** JS truthiness of a string: every string but the empty one. *)
Definition truthy (s : string) : bool := negb (String.eqb s "").

Module Config.
Section defs.
(** [Partial<BaseSettings>] and the fields of a config other than the two
    topic maps are opaque here. *)
Context {BaseSettings OtherFields : Type}.

(** [ALL_ROS_DATATYPES] and [ALL_FOXGLOVE_DATATYPES] are defined in other
    modules of the panel. *)
Context (ALL_ROS_DATATYPES ALL_FOXGLOVE_DATATYPES : gset string).

Definition ALL_SUPPORTED_SCHEMAS : gset string :=
  ALL_ROS_DATATYPES ∪ ALL_FOXGLOVE_DATATYPES ∪ {["std_msgs/String"]}.

(** The records [topics] and [namespacedTopics] are plain objects used as
    maps from a name to settings (possibly [undefined]); they are kept as
    the finite maps of their own properties. *)
Record RendererConfig : Type := mkRendererConfig {
  topics : gmap string (option BaseSettings);
  namespacedTopics : gmap string (option BaseSettings);
  others : OtherFields;
}.

Definition supported (s : string) : bool := bool_decide (s ∈ ALL_SUPPORTED_SCHEMAS).

(** One turn of the loop over [Object.entries(oldConfig.topics)]; [None]
    is the URIError of [namespaceTopic].  [unmigratedTopics] and
    [newNamespacedTopics] are object literals that the turn assigns to.  The
    turns write to distinct properties, so the order in which the entries
    are visited does not show in the result. *)
Definition migrate_entry (knownTopics : list Topic)
    (acc : option (gmap string (option BaseSettings) * gmap string (option BaseSettings)))
    (entry : string * option BaseSettings)
    : option (gmap string (option BaseSettings) * gmap string (option BaseSettings)) :=
  '(unmigratedTopics, newNamespacedTopics) ← acc;
  let '(key, config) := entry in
  match find (fun top => bool_decide (name top = key)) knownTopics with
  | Some topic =>
      let viaConvertible :=
        match convertibleTo topic ≫= find supported with
        | Some convertibleSchema =>
            if truthy convertibleSchema then
              mappedKey ← namespaceTopic (name topic) convertibleSchema;
              Some (unmigratedTopics,
                    PlainObject.assign_property mappedKey config newNamespacedTopics)
            else Some (PlainObject.assign_property key config unmigratedTopics,
                       newNamespacedTopics)
        | None =>
            Some (PlainObject.assign_property key config unmigratedTopics,
                  newNamespacedTopics)
        end in
      match schemaName topic with
      | Some sn =>
          if truthy sn && supported sn then
            mappedKey ← namespaceTopic (name topic) sn;
            Some (unmigratedTopics,
                  PlainObject.assign_property mappedKey config newNamespacedTopics)
          else viaConvertible
      | None => viaConvertible
      end
  | None =>
      Some (PlainObject.assign_property key config unmigratedTopics, newNamespacedTopics)
  end.

(** The parameter [topics] of the source is [knownTopics] here, the field
    [topics] of the config keeping its name. *)
Definition migrateConfigTopicsNodes (oldConfig : RendererConfig) (knownTopics : list Topic)
    : option (returned RendererConfig) :=
  match knownTopics with
  | [] => Some SameRef
  | _ =>
      '(unmigratedTopics, newNamespacedTopics) ←
        fold_left (migrate_entry knownTopics) (map_to_list (topics oldConfig)) (Some (∅, ∅));
      if decide (newNamespacedTopics = ∅) then Some SameRef
      else
        Some
          (NewObj
             {| namespacedTopics := newNamespacedTopics ∪ namespacedTopics oldConfig;
                topics := unmigratedTopics;
                others := others oldConfig |})
  end.

(** The schema under which the specification says a legacy entry is to be
    namespaced, following its four cases: topic not found; found with a
    supported schema; found with a supported convertible-to schema, the
    first in the declared order; otherwise none. *)
Definition spec_destination (knownTopics : list Topic) (key : string) : option string :=
  match find (fun top => bool_decide (name top = key)) knownTopics with
  | None => None
  | Some topic =>
      match schemaName topic with
      | Some sn =>
          if decide (sn ∈ ALL_SUPPORTED_SCHEMAS) then Some sn
          else convertibleTo topic ≫= find (fun s => bool_decide (s ∈ ALL_SUPPORTED_SCHEMAS))
      | None => convertibleTo topic ≫= find (fun s => bool_decide (s ∈ ALL_SUPPORTED_SCHEMAS))
      end
  end.
End defs.
End Config.

(** ** The synchronized message handler ([MessageHandler.ts]) *)

(** [@foxglove/rostime]: [compare], [isLessThan], [toNanoSec] and
    [fromNanoSec].  The fields of a [Time] are numbers; the integers stand
    for the numbers with an integer value. *)
Definition compareTime (left right : Time) : Z :=
  let secDiff := (sec left - sec right)%Z in
  if decide (secDiff ≠ 0%Z) then secDiff else (nsec left - nsec right)%Z.

Definition isLessThan (left right : Time) : bool := bool_decide (compareTime left right < 0)%Z.

(** [BigInt(sec) * 1_000_000_000n + BigInt(nsec)], exact. *)
Definition toNanoSec (t : Time) : Z := (sec t * 1000000000 + nsec t)%Z.

(** [Number(n)] for a [BigInt]: the integer itself when it has at most 53
    significant bits, else the nearest number with 53 significant bits, a
    tie going to the even significand.  (Beyond the range of the doubles,
    from 2^1024 on, the source obtains an infinity, which the integers do
    not hold.) *)
Definition Number_of_BigInt (n : Z) : Z :=
  let a := Z.abs n in
  let dropped := (Z.log2 a - 52)%Z in
  if decide (dropped <= 0)%Z then n
  else
    let q := Z.shiftr a dropped in
    let r := Z.land a (Z.ones dropped) in
    let half := Z.shiftl 1 (dropped - 1) in
    let up := bool_decide (half < r)%Z || (bool_decide (r = half) && Z.odd q) in
    (Z.sgn n * Z.shiftl (if up then q + 1 else q) dropped)%Z.

(** [{ sec: Number(nsec / 1_000_000_000n), nsec: Number(nsec % 1_000_000_000n) }];
    the division of [BigInt] truncates towards zero. *)
Definition fromNanoSec (n : Z) : Time :=
  {| sec := Number_of_BigInt (Z.quot n 1000000000);
     nsec := Number_of_BigInt (Z.rem n 1000000000) |}.

(** The ordered index.  [AVLTree] of the package [@foxglove/avl] is used
    through [get], [set], [clear], [minKey], [shift], [entries] and [values];
    it is kept here as the list of its entries in increasing key order, keys
    being equal when the comparator returns 0. *)
Module AVLTree.
Section defs.
Context {V : Type}.

Fixpoint get (k : Time) (tree : list (Time * V)) : option V :=
  match tree with
  | [] => None
  | (k', v) :: rest =>
      if decide (compareTime k k' = 0%Z) then Some v else get k rest
  end.

Fixpoint set (k : Time) (v : V) (tree : list (Time * V)) : list (Time * V) :=
  match tree with
  | [] => [(k, v)]
  | (k', v') :: rest =>
      if decide (compareTime k k' = 0%Z) then (k', v) :: rest
      else if decide (compareTime k k' < 0)%Z then (k, v) :: (k', v') :: rest
      else (k', v') :: set k v rest
  end.

Definition minKey (tree : list (Time * V)) : option Time :=
  match tree with
  | [] => None
  | (k, _) :: _ => Some k
  end.

Definition shift (tree : list (Time * V)) : list (Time * V) := tail tree.

(** Keys strictly increasing. *)
Definition sorted (tree : list (Time * V)) : Prop :=
  StronglySorted (fun a b => (compareTime a.1 b.1 < 0)%Z) tree.
End defs.
End AVLTree.

Module Handler.
Section defs.
(** Normalized images, camera calibrations, the body of an annotation and
    the raw annotation messages are opaque; [getTimestampFromImage] and
    [normalizeAnnotations] are helpers of other modules. *)
Context {AnyImage CameraInfo AnnotationBody AnnotationMessage : Type}.
Context (getTimestampFromImage : AnyImage -> Time).

Record Annotation : Type := mkAnnotation {
  stamp : Time;
  body : AnnotationBody;
}.

Context (normalizeAnnotations : AnnotationMessage -> string -> list Annotation).

Record NormalizedAnnotations : Type := mkNormalizedAnnotations {
  originalMessage : @MessageEvent AnnotationMessage;
  annotations : list Annotation;
}.

Record SynchronizationItem : Type := mkSynchronizationItem {
  item_image : option (@MessageEvent AnyImage);
  item_annotationsByNamespacedTopic : gmap string NormalizedAnnotations;
}.

Record MessageHandlerState : Type := mkMessageHandlerState {
  image : option (@MessageEvent AnyImage);
  cameraInfo : option CameraInfo;
  annotationsByNamespacedTopic : gmap string NormalizedAnnotations;
}.

(** [Partial<MessageHandlerState>] *)
Record MessageRenderState : Type := mkMessageRenderState {
  rs_image : option (@MessageEvent AnyImage);
  rs_cameraInfo : option CameraInfo;
  rs_annotationsByNamespacedTopic : option (gmap string NormalizedAnnotations);
}.

Record AnnotationSettings : Type := mkAnnotationSettings { visible : option bool }.

(** The [annotations] record of a config.  The code compares two such
    records by reference, so each carries the identity of its object. *)
Record AnnotationsConfig : Type := mkAnnotationsConfig {
  object_id : nat;
  entries : gmap string (option AnnotationSettings);
}.

Record MessageHandlerConfig : Type := mkMessageHandlerConfig {
  synchronize : option bool;
  config_annotations : option AnnotationsConfig;
  calibrationTopic : option string;
  imageTopic : option string;
}.

(** [Partial<ImageModeConfig>]: a property is absent ([None]) or present
    with a value that may be [undefined] ([Some None]). *)
Record PartialConfig : Type := mkPartialConfig {
  new_synchronize : option (option bool);
  new_annotations : option (option AnnotationsConfig);
  new_calibrationTopic : option (option string);
  new_imageTopic : option (option string);
}.

(** A render state does not copy the [Map] of annotation batches it is
    made from: its [annotationsByNamespacedTopic] is the very [Map] of the
    current store or of an index entry, and what the handler later sets in
    or deletes from that [Map] is read through the state as well.  The
    handler keeps one such state, [#oldRenderState].  [Shared] tells which
    [Map] of the handler that state shares: none (the state has no [Map], or
    its [Map] belongs to an entry that has left the index and is changed no
    more), the [Map] of the current store, or the [Map] of the index entry
    at a stamp. *)
Inductive Shared : Type :=
  | SharesNothing
  | SharesStore
  | SharesEntry (stamp : Time).

#[global] Instance Shared_eq_dec : EqDecision Shared.
Proof. solve_decision. Defined.

(** The handler.  [oldRenderState] is the previous state as it reads now,
    [oldShares] the [Map] it shares.  [emitted] records the pairs (new
    state, previous state) handed to the registered listeners, oldest
    first, each as it reads at the time of the call. *)
Record MessageHandler : Type := mkMessageHandler {
  config : MessageHandlerConfig;
  oldRenderState : option MessageRenderState;
  oldShares : Shared;
  lastReceivedMessages : MessageHandlerState;
  tree : list (Time * SynchronizationItem);
  emitted : list (MessageRenderState * option MessageRenderState);
}.

Definition new_MessageHandler (config : MessageHandlerConfig) : MessageHandler :=
  {| config := config;
     oldRenderState := None;
     oldShares := SharesNothing;
     lastReceivedMessages :=
       {| image := None; cameraInfo := None; annotationsByNamespacedTopic := ∅ |};
     tree := [];
     emitted := [] |}.

(** The topics whose settings have [visible === true]. *)
Definition visible_topics (ann : gmap string (option AnnotationSettings)) : gset string :=
  dom (filter (fun kv => kv.2 ≫= visible = Some true) ann).

Definition visibleAnnotations (h : MessageHandler) : gset string :=
  match config_annotations (config h) with
  | Some ann => visible_topics (entries ann)
  | None => ∅
  end.

Definition hasOnlyVisibleAnnotations (visibleAnnotations : gset string)
    (messageState : SynchronizationItem) : bool :=
  bool_decide (size visibleAnnotations = size (item_annotationsByNamespacedTopic messageState))
  && forallb
       (fun topic => bool_decide (is_Some (item_annotationsByNamespacedTopic messageState !! topic)))
       (elements visibleAnnotations).

(** What the specification asks of a winning entry: it has an image and the
    topics of its buffered annotation batches are exactly the visible ones. *)
Definition is_synchronized (visibleAnnotations : gset string)
    (messageState : SynchronizationItem) : Prop :=
  is_Some (item_image messageState)
  /\ dom (item_annotationsByNamespacedTopic messageState) = visibleAnnotations.

(** The [while] loop of [findSynchronizedSetAndRemoveOlderItems]: [minKey]
    is the key of the first entry and [shift] drops that entry. *)
Fixpoint removeOlderItems (tree : list (Time * SynchronizationItem)) (key : Time)
    : list (Time * SynchronizationItem) :=
  match tree with
  | [] => []
  | (minKey, _) :: rest =>
      if isLessThan minKey key then removeOlderItems rest key else tree
  end.

Definition findSynchronizedSetAndRemoveOlderItems
    (tree : list (Time * SynchronizationItem)) (visibleAnnotations : gset string)
    : option (Time * SynchronizationItem) * list (Time * SynchronizationItem) :=
  let validEntry :=
    fold_left
      (fun validEntry entry =>
         if bool_decide (is_Some (item_image entry.2))
            && hasOnlyVisibleAnnotations visibleAnnotations entry.2
         then Some entry else validEntry)
      tree None in
  match validEntry with
  | Some entry => (validEntry, removeOlderItems tree entry.1)
  | None => (None, tree)
  end.

Definition set_tree (tree : list (Time * SynchronizationItem)) (h : MessageHandler)
    : MessageHandler :=
  {| config := config h; oldRenderState := oldRenderState h; oldShares := oldShares h;
     lastReceivedMessages := lastReceivedMessages h; tree := tree; emitted := emitted h |}.

Definition set_lastReceivedMessages (s : MessageHandlerState) (h : MessageHandler)
    : MessageHandler :=
  {| config := config h; oldRenderState := oldRenderState h; oldShares := oldShares h;
     lastReceivedMessages := s; tree := tree h; emitted := emitted h |}.

Definition set_config (c : MessageHandlerConfig) (h : MessageHandler) : MessageHandler :=
  {| config := c; oldRenderState := oldRenderState h; oldShares := oldShares h;
     lastReceivedMessages := lastReceivedMessages h; tree := tree h; emitted := emitted h |}.

Definition set_old (old : option MessageRenderState) (shares : Shared) (h : MessageHandler)
    : MessageHandler :=
  {| config := config h; oldRenderState := old; oldShares := shares;
     lastReceivedMessages := lastReceivedMessages h; tree := tree h; emitted := emitted h |}.

(** A render state whose [Map] of batches has been changed by [f]. *)
Definition with_batches
    (f : gmap string NormalizedAnnotations -> gmap string NormalizedAnnotations)
    (state : MessageRenderState) : MessageRenderState :=
  {| rs_image := rs_image state; rs_cameraInfo := rs_cameraInfo state;
     rs_annotationsByNamespacedTopic := f <$> rs_annotationsByNamespacedTopic state |}.

(** The change [f] of the [Map] [target] shows in the previous render state
    when that state shares the [Map]. *)
Definition through_old (target : Shared)
    (f : gmap string NormalizedAnnotations -> gmap string NormalizedAnnotations)
    (h : MessageHandler) : MessageHandler :=
  if decide (oldShares h = target)
  then set_old (with_batches f <$> oldRenderState h) (oldShares h) h
  else h.

(** Entries have left the index: the previous state no longer shares a
    [Map] of the handler when its entry is among them. *)
Definition detach (h : MessageHandler) : MessageHandler :=
  match oldShares h with
  | SharesEntry stamp =>
      match AVLTree.get stamp (tree h) with
      | Some _ => h
      | None => set_old (oldRenderState h) SharesNothing h
      end
  | _ => h
  end.

(** [getRenderState] prunes the index in synchronized mode, so it returns
    the handler along with the render state.  The state is given with the
    batches its [Map] holds at the time of the call. *)
Definition getRenderState (h : MessageHandler) : MessageRenderState * MessageHandler :=
  if decide (synchronize (config h) = Some true) then
    let '(validEntry, tree') :=
      findSynchronizedSetAndRemoveOlderItems (tree h) (visibleAnnotations h) in
    let h := set_tree tree' h in
    match validEntry with
    | Some entry =>
        ({| rs_cameraInfo := cameraInfo (lastReceivedMessages h);
            rs_image := item_image entry.2;
            rs_annotationsByNamespacedTopic := Some (item_annotationsByNamespacedTopic entry.2) |},
         detach h)
    | None =>
        ({| rs_cameraInfo := cameraInfo (lastReceivedMessages h);
            rs_image := None;
            rs_annotationsByNamespacedTopic := None |},
         h)
    end
  else
    ({| rs_cameraInfo := cameraInfo (lastReceivedMessages h);
        rs_image := image (lastReceivedMessages h);
        rs_annotationsByNamespacedTopic :=
          Some (annotationsByNamespacedTopic (lastReceivedMessages h)) |},
     h).

(** The [Map] that the state returned by [getRenderState] shares: that of
    the winning entry, none when no entry wins, that of the current store
    outside synchronized mode. *)
Definition shares_of_state (h : MessageHandler) : Shared :=
  if decide (synchronize (config h) = Some true) then
    match (findSynchronizedSetAndRemoveOlderItems (tree h) (visibleAnnotations h)).1 with
    | Some entry => SharesEntry entry.1
    | None => SharesNothing
    end
  else SharesStore.

(** What [oldShares] records, as a property of the handler: the [Map] of
    the previous state holds the batches of the [Map] it shares, and a
    shared entry is in the index. *)
Definition shares_the_map (h : MessageHandler) : Prop :=
  match oldShares h with
  | SharesNothing => True
  | SharesStore =>
      exists state,
        oldRenderState h = Some state
        /\ rs_annotationsByNamespacedTopic state
           = Some (annotationsByNamespacedTopic (lastReceivedMessages h))
  | SharesEntry stamp =>
      exists state item,
        oldRenderState h = Some state
        /\ AVLTree.get stamp (tree h) = Some item
        /\ rs_annotationsByNamespacedTopic state
           = Some (item_annotationsByNamespacedTopic item)
  end.

Definition emitState (h : MessageHandler) : MessageHandler :=
  let shares := shares_of_state h in
  let '(state, h) := getRenderState h in
  {| config := config h; oldRenderState := Some state; oldShares := shares;
     lastReceivedMessages := lastReceivedMessages h; tree := tree h;
     emitted := emitted h ++ [(state, oldRenderState h)] |}.

Definition with_image (img : option (@MessageEvent AnyImage)) (s : MessageHandlerState)
    : MessageHandlerState :=
  {| image := img; cameraInfo := cameraInfo s;
     annotationsByNamespacedTopic := annotationsByNamespacedTopic s |}.

Definition with_cameraInfo (c : option CameraInfo) (s : MessageHandlerState)
    : MessageHandlerState :=
  {| image := image s; cameraInfo := c;
     annotationsByNamespacedTopic := annotationsByNamespacedTopic s |}.

Definition with_annotations (a : gmap string NormalizedAnnotations) (s : MessageHandlerState)
    : MessageHandlerState :=
  {| image := image s; cameraInfo := cameraInfo s; annotationsByNamespacedTopic := a |}.

(** The part of [#handleImage] before its final [#emitState()], in
    synchronized mode.  [item.image = ...] changes the entry in place: the
    entry at that key becomes the updated item. *)
Definition handleImage_store (h : MessageHandler) (normalizedImageMessage : @MessageEvent AnyImage)
    : MessageHandler :=
  let image := message normalizedImageMessage in
  match AVLTree.get (getTimestampFromImage image) (tree h) with
  | Some item =>
      set_tree
        (AVLTree.set (getTimestampFromImage image)
           {| item_image := Some normalizedImageMessage;
              item_annotationsByNamespacedTopic := item_annotationsByNamespacedTopic item |}
           (tree h))
        h
  | None =>
      set_tree
        (AVLTree.set (getTimestampFromImage image)
           {| item_image := Some normalizedImageMessage;
              item_annotationsByNamespacedTopic := ∅ |}
           (tree h))
        h
  end.

Definition handleImage (h : MessageHandler) (message : @MessageEvent AnyImage) (image : AnyImage)
    : MessageHandler :=
  let normalizedImageMessage :=
    {| topic := topic message; msg_schemaName := msg_schemaName message;
       receiveTime := receiveTime message; message := image;
       sizeInBytes := sizeInBytes message |} in
  if decide (synchronize (config h) ≠ Some true) then
    emitState
      (set_lastReceivedMessages
         (with_image (Some normalizedImageMessage) (lastReceivedMessages h)) h)
  else emitState (handleImage_store h normalizedImageMessage).

Definition handleCameraInfo (h : MessageHandler) (cameraInfo : CameraInfo) : MessageHandler :=
  emitState
    (set_lastReceivedMessages (with_cameraInfo (Some cameraInfo) (lastReceivedMessages h)) h).

(** Grouping of the annotations of one message by [toNanoSec(stamp)], a
    [Map<bigint, Annotation[]>] in insertion order. *)
Definition group_annotations (annotations : list Annotation) : list (Z * list Annotation) :=
  fold_left
    (fun groups annotation =>
       let key := toNanoSec (stamp annotation) in
       match JsMap.get key groups with
       | Some arr => JsMap.set key (arr ++ [annotation]) groups
       | None => JsMap.set key [annotation] groups
       end)
    annotations [].

(** The stamp under which the loop over the groups files an annotation. *)
Definition landing (annotation : Annotation) : Time :=
  fromNanoSec (toNanoSec (stamp annotation)).

(** One turn of the loop over the groups: the entry at the stamp is looked
    up or created, and its batch for the namespaced topic is set in place. *)
Definition store_group (namespacedTopic : string)
    (messageEvent : @MessageEvent AnnotationMessage)
    (tree : list (Time * SynchronizationItem)) (entry : Z * list Annotation)
    : list (Time * SynchronizationItem) :=
  let '(stampNsec, group) := entry in
  let stamp := fromNanoSec stampNsec in
  let item :=
    match AVLTree.get stamp tree with
    | Some item => item
    | None => {| item_image := None; item_annotationsByNamespacedTopic := ∅ |}
    end in
  AVLTree.set stamp
    {| item_image := item_image item;
       item_annotationsByNamespacedTopic :=
         <[namespacedTopic := {| originalMessage := messageEvent; annotations := group |}]>
           (item_annotationsByNamespacedTopic item) |}
    tree.

(** The part of [handleAnnotations] before its final [#emitState()], in
    synchronized mode: each group is stored in the index, and the batch set
    in the [Map] of its entry shows in the previous state when that state
    shares the [Map]. *)
Definition handleAnnotations_store (h : MessageHandler) (namespacedTopic : string)
    (messageEvent : @MessageEvent AnnotationMessage) (annotations : list Annotation)
    : MessageHandler :=
  fold_left
    (fun h entry =>
       through_old (SharesEntry (fromNanoSec entry.1))
         (insert namespacedTopic
            {| originalMessage := messageEvent; annotations := entry.2 |})
         (set_tree (store_group namespacedTopic messageEvent (tree h) entry) h))
    (group_annotations annotations) h.

(** [None] is the URIError of [namespaceTopic]; nothing has been changed
    when it is thrown. *)
Definition handleAnnotations (h : MessageHandler)
    (messageEvent : @MessageEvent AnnotationMessage) : option MessageHandler :=
  let annotations :=
    normalizeAnnotations (message messageEvent) (msg_schemaName messageEvent) in
  namespacedTopic ← namespaceTopic (topic messageEvent) (msg_schemaName messageEvent);
  if decide (synchronize (config h) ≠ Some true) then
    Some
      (emitState
         (through_old SharesStore
            (insert namespacedTopic
               {| originalMessage := messageEvent; annotations := annotations |})
            (set_lastReceivedMessages
               (with_annotations
                  (<[namespacedTopic :=
                       {| originalMessage := messageEvent; annotations := annotations |}]>
                     (annotationsByNamespacedTopic (lastReceivedMessages h)))
                  (lastReceivedMessages h))
               h)))
  else Some (emitState (handleAnnotations_store h namespacedTopic messageEvent annotations)).

(** The loops of [setConfig] that delete the batches whose topic is not in
    [newVisibleAnnotationsMap]; the flag tells whether one was deleted. *)
Definition delete_invisible (newVisible : gset string)
    (batches : gmap string NormalizedAnnotations)
    : gmap string NormalizedAnnotations * bool :=
  fold_left
    (fun '(batches, changed) topic =>
       if decide (topic ∈ newVisible) then (batches, changed)
       else (delete topic batches, true))
    (map_to_list batches).*1 (batches, false).

Definition delete_invisible_in_tree (newVisible : gset string)
    (tree : list (Time * SynchronizationItem))
    : list (Time * SynchronizationItem) * bool :=
  fold_left
    (fun '(done, changed) '(k, syncEntry) =>
       let '(batches, c) :=
         delete_invisible newVisible (item_annotationsByNamespacedTopic syncEntry) in
       (done ++ [(k, {| item_image := item_image syncEntry;
                        item_annotationsByNamespacedTopic := batches |})],
        changed || c))
    tree ([], false).

Definition merge_config (c : MessageHandlerConfig) (newConfig : PartialConfig)
    : MessageHandlerConfig :=
  {| synchronize := default (synchronize c) (new_synchronize newConfig);
     config_annotations := default (config_annotations c) (new_annotations newConfig);
     calibrationTopic := default (calibrationTopic c) (new_calibrationTopic newConfig);
     imageTopic := default (imageTopic c) (new_imageTopic newConfig) |}.

(** An entry reduced to the batches of the visible topics, as the
    specification describes the effect of narrowing. *)
Definition only_visible (newVisible : gset string) (item : SynchronizationItem)
    : SynchronizationItem :=
  {| item_image := item_image item;
     item_annotationsByNamespacedTopic :=
       filter (fun kv => kv.1 ∈ newVisible) (item_annotationsByNamespacedTopic item) |}.

(** The events of [setConfig] as the specification names them, read off
    the stored config and the partial config: the synchronize flag is
    toggled when a boolean other than the stored value is given, a topic is
    changed when the property is given with another value, and the
    annotations are replaced when a record is given in place of a stored
    record that is another object. *)
Definition toggles_synchronize (c : MessageHandlerConfig) (newConfig : PartialConfig) : Prop :=
  exists b : bool, new_synchronize newConfig = Some (Some b) /\ synchronize c ≠ Some b.

Definition changes_imageTopic (c : MessageHandlerConfig) (newConfig : PartialConfig) : Prop :=
  exists t, new_imageTopic newConfig = Some t /\ imageTopic c ≠ t.

Definition changes_calibrationTopic (c : MessageHandlerConfig) (newConfig : PartialConfig)
    : Prop :=
  exists t, new_calibrationTopic newConfig = Some t /\ calibrationTopic c ≠ t.


(** A topic that a record of annotation settings makes visible. *)
Definition shows (ann : gmap string (option AnnotationSettings)) (topic : string) : Prop :=
  exists settings, ann !! topic = Some (Some settings) /\ visible settings = Some true.

#[global] Instance toggles_synchronize_dec c newConfig :
  Decision (toggles_synchronize c newConfig).
Proof.
  unfold toggles_synchronize. destruct (new_synchronize newConfig) as [[b|]|].
  - destruct (decide (synchronize c = Some b)) as [He|Hne].
    + right. intros (b' & Hb & Hd). injection Hb as <-. done.
    + left. by exists b.
  - right. intros (b & Hb & _). discriminate.
  - right. intros (b & Hb & _). discriminate.
Defined.

#[global] Instance changes_imageTopic_dec c newConfig :
  Decision (changes_imageTopic c newConfig).
Proof.
  unfold changes_imageTopic. destruct (new_imageTopic newConfig) as [t|].
  - destruct (decide (imageTopic c = t)) as [He|Hne].
    + right. intros (t' & Ht & Hd). injection Ht as <-. done.
    + left. by exists t.
  - right. intros (t & Ht & _). discriminate.
Defined.

#[global] Instance changes_calibrationTopic_dec c newConfig :
  Decision (changes_calibrationTopic c newConfig).
Proof.
  unfold changes_calibrationTopic. destruct (new_calibrationTopic newConfig) as [t|].
  - destruct (decide (calibrationTopic c = t)) as [He|Hne].
    + right. intros (t' & Ht & Hd). injection Ht as <-. done.
    + left. by exists t.
  - right. intros (t & Ht & _). discriminate.
Defined.

#[global] Instance shows_dec ann topic : Decision (shows ann topic).
Proof.
  unfold shows. destruct (ann !! topic) as [[settings|]|].
  - destruct (decide (visible settings = Some true)) as [He|Hne].
    + left. by exists settings.
    + right. intros (s & Hs & Hv). injection Hs as <-. done.
  - right. intros (s & Hs & _). discriminate.
  - right. intros (s & Hs & _). discriminate.
Defined.


(** The conditions of the four guarded blocks of [setConfig]. *)
Definition synchronize_toggled (c : MessageHandlerConfig) (newConfig : PartialConfig) : bool :=
  match new_synchronize newConfig with
  | Some (Some b) => bool_decide (Some b ≠ synchronize c)
  | _ => false
  end.

Definition imageTopic_changed (c : MessageHandlerConfig) (newConfig : PartialConfig) : bool :=
  match new_imageTopic newConfig with
  | Some t => bool_decide (imageTopic c ≠ t)
  | None => false
  end.

Definition calibrationTopic_changed (c : MessageHandlerConfig) (newConfig : PartialConfig)
    : bool :=
  match new_calibrationTopic newConfig with
  | Some t => bool_decide (calibrationTopic c ≠ t)
  | None => false
  end.

(** The fourth condition holds when both records are defined and are not
    the same object; the new record is then returned. *)
Definition annotations_replaced (c : MessageHandlerConfig) (newConfig : PartialConfig)
    : option AnnotationsConfig :=
  match new_annotations newConfig, config_annotations c with
  | Some (Some newAnn), Some oldAnn =>
      if decide (object_id oldAnn ≠ object_id newAnn) then Some newAnn else None
  | _, _ => None
  end.

(** The bodies of the blocks. *)
Definition without_image (item : SynchronizationItem) : SynchronizationItem :=
  {| item_image := None;
     item_annotationsByNamespacedTopic := item_annotationsByNamespacedTopic item |}.

Definition clear_images (h : MessageHandler) : MessageHandler :=
  set_lastReceivedMessages (with_image None (lastReceivedMessages h))
    (set_tree (map (fun '(k, item) => (k, without_image item)) (tree h)) h).

Definition clear_calibration (h : MessageHandler) : MessageHandler :=
  set_lastReceivedMessages (with_cameraInfo None (lastReceivedMessages h)) h.

(** The two loops run over the [Map] of the current store and over the
    [Map] of every index entry, so whichever of them the previous state
    shares loses its invisible batches. *)
Definition drop_invisible (newVisibleAnnotationsMap : gset string) (h : MessageHandler)
    : MessageHandler * bool :=
  let '(current, c1) :=
    delete_invisible newVisibleAnnotationsMap
      (annotationsByNamespacedTopic (lastReceivedMessages h)) in
  let '(tree', c2) := delete_invisible_in_tree newVisibleAnnotationsMap (tree h) in
  let h' :=
    set_lastReceivedMessages (with_annotations current (lastReceivedMessages h))
      (set_tree tree' h) in
  (if decide (oldShares h = SharesNothing) then h'
   else
     set_old
       (with_batches (fun batches => (delete_invisible newVisibleAnnotationsMap batches).1)
          <$> oldRenderState h)
       (oldShares h) h',
   c1 || c2).

(** [setConfig] up to the assignment of the merged config; the flag is the
    variable [changed].  The conditions read [this.#config], which is
    replaced only at the end. *)
Definition setConfig_resets (h : MessageHandler) (newConfig : PartialConfig)
    : MessageHandler * bool :=
  let c := config h in
  let changed := false in
  let '(h, changed) :=
    if synchronize_toggled c newConfig then (detach (set_tree [] h), true)
    else (h, changed) in
  let '(h, changed) :=
    if imageTopic_changed c newConfig then (clear_images h, true) else (h, changed) in
  let '(h, changed) :=
    if calibrationTopic_changed c newConfig then (clear_calibration h, true)
    else (h, changed) in
  let '(h, changed) :=
    match annotations_replaced c newConfig with
    | Some newAnn =>
        let '(h', deleted) := drop_invisible (visible_topics (entries newAnn)) h in
        (h', changed || deleted)
    | None => (h, changed)
    end in
  (set_config (merge_config c newConfig) h, changed).

Definition setConfig (h : MessageHandler) (newConfig : PartialConfig) : MessageHandler :=
  let '(h', changed) := setConfig_resets h newConfig in
  if changed then emitState h' else h'.

Definition clear (h : MessageHandler) : MessageHandler :=
  emitState
    {| config := config h; oldRenderState := None; oldShares := SharesNothing;
       lastReceivedMessages :=
         {| image := None; cameraInfo := None; annotationsByNamespacedTopic := ∅ |};
       tree := []; emitted := emitted h |}.
End defs.
End Handler.

(** *** The handler in use

    The calls a panel makes on its handler, one after the other; the four
    public image handlers differ only in the normalizer they apply before
    [#handleImage], and [handleCameraInfo] is given the normalized
    calibration.  A call that throws ends the session. *)
Module Session.
Section defs.
Context {AnyImage CameraInfo AnnotationBody AnnotationMessage : Type}.
Context (getTimestampFromImage : AnyImage -> Time).
Context (normalizeAnnotations :
           AnnotationMessage -> string -> list (@Handler.Annotation AnnotationBody)).

Inductive Call : Type :=
  | HandleImage (messageEvent : @MessageEvent AnyImage) (image : AnyImage)
  | HandleCameraInfo (cameraInfo : CameraInfo)
  | HandleAnnotations (messageEvent : @MessageEvent AnnotationMessage)
  | SetConfig (newConfig : Handler.PartialConfig)
  | Clear.

Definition perform
    (h : @Handler.MessageHandler AnyImage CameraInfo AnnotationBody AnnotationMessage)
    (c : Call)
    : option (@Handler.MessageHandler AnyImage CameraInfo AnnotationBody AnnotationMessage) :=
  match c with
  | HandleImage messageEvent image =>
      Some (Handler.handleImage getTimestampFromImage h messageEvent image)
  | HandleCameraInfo cameraInfo => Some (Handler.handleCameraInfo h cameraInfo)
  | HandleAnnotations messageEvent =>
      Handler.handleAnnotations normalizeAnnotations h messageEvent
  | SetConfig newConfig => Some (Handler.setConfig h newConfig)
  | Clear => Some (Handler.clear h)
  end.

Definition run
    (h : @Handler.MessageHandler AnyImage CameraInfo AnnotationBody AnnotationMessage)
    (calls : list Call)
    : option (@Handler.MessageHandler AnyImage CameraInfo AnnotationBody AnnotationMessage) :=
  fold_left (fun acc c => acc ≫= fun h => perform h c) calls (Some h).

(** The call does not pass [synchronize: undefined] explicitly. *)
Definition defines_synchronize (c : Call) : Prop :=
  match c with
  | SetConfig newConfig => Handler.new_synchronize newConfig ≠ Some None
  | _ => True
  end.
End defs.
End Session.

(** ** Sample inputs *)

Module Samples.
(** Two mappers that both rename topic [A]. *)
Definition fan_out_inputs : @MappingInputs unit :=
{| mappers := [(fun _ _ => [("A", "B")]); (fun _ _ => [("A", "C")])];
   topics := None; variables := tt |}.

(** Two mappers that rename different topics to the same name [B]. *)
Definition fan_in_inputs : @MappingInputs unit :=
{| mappers := [(fun _ _ => [("A", "B")]); (fun _ _ => [("D", "B")])];
   topics := None; variables := tt |}.

(** Mappers that rename nothing. *)
Definition idle_inputs : @MappingInputs unit :=
{| mappers := [(fun _ _ => []); (fun _ _ => [])]; topics := None; variables := tt |}.

Definition sub (t : string) : SubscribePayload :=
{| sub_topic := t; sub_preloadType := Some PreloadPartial; sub_fields := None |}.

Definition msg (t : string) : @MessageEvent string :=
{| topic := t; msg_schemaName := "whatever"; receiveTime := mkTime 0 0;
   message := "payload"; sizeInBytes := 0 |}.

Definition renaming_player : @TopicMappingPlayer string unit :=
new_TopicMappingPlayer [(fun _ _ => [("/original_topic_1", "/renamed_topic_1")])] tt.

Definition state_with_topics : @PlayerState string :=
{| playerId := "1";
   activeData :=
     Some {| ad_messages := []; ad_topics := [mkTopic "/original_topic_1" (Some "any.schema") None None];
             currentTime := mkTime 0 0; publishedTopics := None; subscribedTopics := None |};
   progress := {| fullyLoadedFractionRanges := []; messageCache := None |} |}.

(** The config and the topics of the migration test of the repository. *)
Definition foxglove_datatypes : gset string := {["foxglove.Grid"; "foxglove.RawImage"]}.

Definition legacy_config : @Config.RendererConfig unit unit :=
  {| Config.topics :=
       <["topic_a" := Some tt]> (<["topic_b" := Some tt]> (<["topic_c" := Some tt]>
         (<["/robot_description" := Some tt]> ∅)));
     Config.namespacedTopics := ∅;
     Config.others := tt |}.

Definition known_topics : list Topic :=
  [ mkTopic "topic_a" (Some "foxglove.Grid") None None;
    mkTopic "topic_c" (Some "unsupported.Schema") (Some ["foxglove.RawImage"]) None;
    mkTopic "/robot_description" (Some "std_msgs/String") None None ].

(** A handler in synchronized mode with one visible annotation topic [X]:
    images and annotations at t = 1 and t = 2, annotations only at t = 3. *)
Definition image_at (t : Z) : @MessageEvent Time :=
  {| topic := "/camera"; msg_schemaName := "foxglove.RawImage"; receiveTime := mkTime t 0;
     message := mkTime t 0; sizeInBytes := 0 |}.

Definition annotation_message (tp : string) : @MessageEvent (list Time) :=
  {| topic := tp; msg_schemaName := "foxglove.ImageAnnotations"; receiveTime := mkTime 0 0;
     message := []; sizeInBytes := 0 |}.

Definition batch (tp : string) (t : Z) : @Handler.NormalizedAnnotations unit (list Time) :=
  {| Handler.originalMessage := annotation_message tp;
     Handler.annotations := [Handler.mkAnnotation (mkTime t 0) tt] |}.

Definition item (img : bool) (t : Z) (tps : list string)
    : @Handler.SynchronizationItem Time unit (list Time) :=
  {| Handler.item_image := if img then Some (image_at t) else None;
     Handler.item_annotationsByNamespacedTopic :=
       list_to_map (map (fun tp => (tp, batch tp t)) tps) |}.

Definition annotation_settings (tps : list string) (id : nat) : Handler.AnnotationsConfig :=
  {| Handler.object_id := id;
     Handler.entries :=
       list_to_map (map (fun tp => (tp, Some (Handler.mkAnnotationSettings (Some true)))) tps) |}.

Definition handler_config (tps : list string) : Handler.MessageHandlerConfig :=
  {| Handler.synchronize := Some true;
     Handler.config_annotations := Some (annotation_settings tps 1);
     Handler.calibrationTopic := Some "/calibration";
     Handler.imageTopic := Some "/camera" |}.

Definition synchronized_handler : @Handler.MessageHandler Time string unit (list Time) :=
  {| Handler.config := handler_config ["X"];
     Handler.oldRenderState := None;
     Handler.oldShares := Handler.SharesNothing;
     Handler.lastReceivedMessages :=
       {| Handler.image := None; Handler.cameraInfo := Some "calibration";
          Handler.annotationsByNamespacedTopic := ∅ |};
     Handler.tree :=
       [(mkTime 1 0, item true 1 ["X"]); (mkTime 2 0, item true 2 ["X"]);
        (mkTime 3 0, item false 3 ["X"])];
     Handler.emitted := [] |}.



Definition timestamp_of (image : Time) : Time := image.

Definition annotations_of (stamps : list Time) (schema : string)
    : list (@Handler.Annotation unit) :=
  map (fun t => Handler.mkAnnotation t tt) stamps.

(** The topics and the single mapper of the tests of [mapPlayerState]. *)
Definition test_topics : list Topic :=
  [mkTopic "/topic_1" (Some "whatever") None None;
   mkTopic "/topic_2" (Some "whatever") None None].

Definition rename_inputs : @MappingInputs unit :=
  {| mappers := [(fun _ _ => [("/topic_1", "/renamed_topic_1")])];
     topics := Some test_topics; variables := tt |}.

(** The scenario of the specification for the synchronized handler: one
    visible annotation topic, whose messages namespace to [nt_X]. *)
Definition nt_X : string := "%2Fannotations:foxglove.ImageAnnotations".

Definition empty_handler : @Handler.MessageHandler Time string unit (list Time) :=
  Handler.new_MessageHandler (handler_config [nt_X]).

Definition annotations_at (t : Z) : @MessageEvent (list Time) :=
  {| topic := "/annotations"; msg_schemaName := "foxglove.ImageAnnotations";
     receiveTime := mkTime t 0; message := [mkTime t 0]; sizeInBytes := 0 |}.

Definition last_state (h : option (@Handler.MessageHandler Time string unit (list Time)))
    : option (option (@MessageEvent Time) * option (list string)) :=
  h ≫= fun h =>
    (fun s => (Handler.rs_image s,
               (fun m => (map_to_list m).*1) <$> Handler.rs_annotationsByNamespacedTopic s))
    <$> Handler.oldRenderState h.

Definition stamps (h : option (@Handler.MessageHandler Time string unit (list Time)))
    : option (list Time) :=
  (fun h => (Handler.tree h).*1) <$> h.

(** A state whose two messages are on the two listed topics. *)
Definition state_with_messages : @PlayerState string :=
  {| playerId := "1";
     activeData :=
       Some {| ad_messages := [msg "/topic_1"; msg "/topic_2"]; ad_topics := test_topics;
               currentTime := mkTime 0 0; publishedTopics := None; subscribedTopics := None |};
     progress := {| fullyLoadedFractionRanges := []; messageCache := None |} |}.

(** A client that sets a listener and subscribes, and a state that comes in. *)
Definition plain_session : list (@PlayerOp string unit) :=
  [OpSetListener; OpSetSubscriptions [sub "/topic_1"]; OpPlayerState state_with_topics].

(** The config of the migration test, once migrated. *)
Definition migrated_config : @Config.RendererConfig unit unit :=
  {| Config.topics := <["topic_b" := Some tt]> ∅;
     Config.namespacedTopics :=
       <["topic_a:foxglove.Grid" := Some tt]>
         (<["topic_c:foxglove.RawImage" := Some tt]>
            (<["%2Frobot_description:std_msgs%2FString" := Some tt]> ∅));
     Config.others := tt |}.

(** A synchronized handler that shows no annotation topic and holds one
    image, and a handler that does not synchronize. *)
Definition image_only_handler : @Handler.MessageHandler Time string unit (list Time) :=
  {| Handler.config := handler_config [];
     Handler.oldRenderState := None;
     Handler.oldShares := Handler.SharesNothing;
     Handler.lastReceivedMessages :=
       {| Handler.image := None; Handler.cameraInfo := None;
          Handler.annotationsByNamespacedTopic := ∅ |};
     Handler.tree := [(mkTime 1 0, item true 1 [])];
     Handler.emitted := [] |}.

Definition unsynchronized_handler : @Handler.MessageHandler Time string unit (list Time) :=
  Handler.new_MessageHandler
    {| Handler.synchronize := Some false;
       Handler.config_annotations := Some (annotation_settings [nt_X] 1);
       Handler.calibrationTopic := None;
       Handler.imageTopic := Some "/camera" |}.

(** An annotation message that carries no annotation. *)
Definition empty_annotations : @MessageEvent (list Time) := annotation_message "/annotations".

(** Switching synchronization off. *)
Definition stop_synchronizing : Handler.PartialConfig :=
  {| Handler.new_synchronize := Some (Some false);
     Handler.new_annotations := None;
     Handler.new_calibrationTopic := None;
     Handler.new_imageTopic := None |}.

Definition panel_session : list (@Session.Call Time string (list Time)) :=
  [Session.HandleImage (image_at 1) (mkTime 1 0);
   Session.HandleAnnotations (annotations_at 1);
   Session.SetConfig stop_synchronizing;
   Session.HandleImage (image_at 2) (mkTime 2 0)].

(** Three mappers, two of which propose the same new name for [A]. *)
Definition repeated_inputs : @MappingInputs unit :=
  {| mappers := [(fun _ _ => [("A", "B")]); (fun _ _ => [("A", "B")]);
                 (fun _ _ => [("A", "C")])];
     topics := Some []; variables := tt |}.

(** A legacy config with settings for a topic named [__proto__], which no
    known topic bears, and for [topic_a]. *)
Definition proto_config : @Config.RendererConfig unit unit :=
  {| Config.topics := <["__proto__" := Some tt]> (<["topic_a" := Some tt]> ∅);
     Config.namespacedTopics := ∅;
     Config.others := tt |}.

(** A block with messages on a topic named [__proto__]. *)
Definition proto_block : @MessageBlock string :=
  {| messagesByTopic := [("__proto__", [msg "__proto__"]); ("/topic_2", [msg "/topic_2"])];
     block_sizeInBytes := 0 |}.




(** An unsynchronized handler that has shown a first batch of annotations:
    its previous state shares the [Map] of the current store. *)
Definition shown_once_handler : @Handler.MessageHandler Time string unit (list Time) :=
  default unsynchronized_handler
    (Handler.handleAnnotations annotations_of unsynchronized_handler (annotations_at 1)).

(** The synchronized handler of the scenario once the image and the
    annotations of t = 1 are shown: its previous state shares the [Map] of
    the entry of t = 1.  And annotations stamped t = 1 that arrive again. *)
Definition shown_pair_handler : @Handler.MessageHandler Time string unit (list Time) :=
  default empty_handler
    (Handler.handleAnnotations annotations_of
       (Handler.handleImage timestamp_of empty_handler (image_at 1) (mkTime 1 0))
       (annotations_at 1)).

Definition annotations_again : @MessageEvent (list Time) :=
  {| topic := "/annotations"; msg_schemaName := "foxglove.ImageAnnotations";
     receiveTime := mkTime 9 0; message := [mkTime 1 0]; sizeInBytes := 0 |}.

(** A block whose topics are named like an array index and otherwise. *)
Definition indexed_block : @MessageBlock string :=
  {| messagesByTopic := [("b", [msg "b"]); ("a", [msg "a"])];
     block_sizeInBytes := 0 |}.
End Samples.

(** * Properties *)

(** ** Insertion-ordered maps and [uniq] *)

Section JsMapFacts.
Context {K V : Type} `{EqDecision K}.
Implicit Types (m : list (K * V)) (k : K) (v : V).

Lemma get_set_eq m k v : JsMap.get k (JsMap.set k v m) = Some v.
Proof.
  induction m as [|[k' v'] m IH]; simpl.
  - by rewrite decide_True.
  - destruct (decide (k = k')) as [->|Hne]; simpl.
    + by rewrite decide_True.
    + by rewrite decide_False.
Qed.

Lemma get_set_ne m k k' v : k ≠ k' -> JsMap.get k (JsMap.set k' v m) = JsMap.get k m.
Proof.
  intros Hne. induction m as [|[k0 v0] m IH]; simpl.
  - by rewrite decide_False.
  - destruct (decide (k' = k0)) as [->|Hne0]; simpl.
    + by rewrite !decide_False.
    + destruct (decide (k = k0)); [done | apply IH].
Qed.

Lemma get_None m k : JsMap.get k m = None <-> k ∉ m.*1.
Proof.
  induction m as [|[k' v'] m IH]; simpl.
  - split; [intros _; apply not_elem_of_nil | done].
  - rewrite not_elem_of_cons. destruct (decide (k = k')) as [->|Hne].
    + split; [done | by intros [? _]].
    + rewrite IH. tauto.
Qed.

Lemma get_Some_elem m k v : JsMap.get k m = Some v -> (k, v) ∈ m.
Proof.
  induction m as [|[k' v'] m IH]; simpl; [done |].
  destruct (decide (k = k')) as [->|Hne].
  - intros [= ->]. apply list_elem_of_here.
  - intros H. apply list_elem_of_further, IH, H.
Qed.

Lemma elem_get_wf m k v : JsMap.wf m -> (k, v) ∈ m -> JsMap.get k m = Some v.
Proof.
  unfold JsMap.wf. induction m as [|[k' v'] m IH]; simpl.
  - intros _ H. by apply elem_of_nil in H.
  - intros Hnd Hin. apply NoDup_cons in Hnd as [Hk' Hnd].
    apply elem_of_cons in Hin as [[= -> ->]|Hin].
    + by rewrite decide_True.
    + rewrite decide_False; [by apply IH |].
      intros ->. apply Hk'. apply list_elem_of_fmap. by exists (k', v).
Qed.

Lemma set_keys_in m k v k0 : k0 ∈ (JsMap.set k v m).*1 <-> k0 = k \/ k0 ∈ m.*1.
Proof.
  induction m as [|[k' v'] m IH]; simpl.
  - rewrite list_elem_of_singleton. split; [auto | intros [?|H]; [done | by apply elem_of_nil in H]].
  - destruct (decide (k = k')) as [->|Hne]; simpl.
    + rewrite !elem_of_cons. tauto.
    + rewrite !elem_of_cons, IH. tauto.
Qed.

Lemma set_wf m k v : JsMap.wf m -> JsMap.wf (JsMap.set k v m).
Proof.
  unfold JsMap.wf. induction m as [|[k' v'] m IH]; simpl; intros Hnd.
  - apply NoDup_singleton.
  - apply NoDup_cons in Hnd as [Hk' Hnd].
    destruct (decide (k = k')) as [->|Hne]; simpl.
    + by apply NoDup_cons.
    + apply NoDup_cons. split; [| by apply IH].
      rewrite set_keys_in. intros [?|?]; [congruence | done].
Qed.

Lemma set_elem m k v k0 v0 :
  (k0, v0) ∈ JsMap.set k v m -> (k0 = k /\ v0 = v) \/ (k0, v0) ∈ m.
Proof.
  induction m as [|[k' v'] m IH]; simpl.
  - intros H. apply list_elem_of_singleton in H as [= -> ->]. by left.
  - destruct (decide (k = k')) as [->|Hne]; rewrite !elem_of_cons.
    + intros [[= -> ->]|H]; [by left | right; by right].
    + intros [[= -> ->]|H]; [right; by left |].
      destruct (IH H) as [?|?]; [by left | right; by right].
Qed.
End JsMapFacts.

Lemma uniq_snoc l x : uniq (l ++ [x]) = uniq_step (uniq l) x.
Proof. unfold uniq. by rewrite fold_left_app. Qed.

Lemma elem_of_uniq l x : x ∈ uniq l <-> x ∈ l.
Proof.
  induction l as [|y l IH] using rev_ind.
  - done.
  - rewrite uniq_snoc. unfold uniq_step.
    destruct (decide (y ∈ uniq l)) as [Hin|Hnin].
    + rewrite elem_of_app, list_elem_of_singleton, IH. split; [auto |].
      intros [? | ->]; [done | by apply IH].
    + by rewrite !elem_of_app, IH.
Qed.

Lemma NoDup_uniq l : NoDup (uniq l).
Proof.
  induction l as [|y l IH] using rev_ind.
  - apply NoDup_nil_2.
  - rewrite uniq_snoc. unfold uniq_step.
    destruct (decide (y ∈ uniq l)) as [Hin|Hnin]; [done |].
    apply NoDup_app. split_and!; [done | | apply NoDup_singleton].
    intros x Hx Hy. apply list_elem_of_singleton in Hy as ->. done.
Qed.

Lemma uniq_NoDup_id l : NoDup l -> uniq l = l.
Proof.
  induction l as [|y l IH] using rev_ind; [done |].
  intros Hnd. apply NoDup_app in Hnd as (Hl & Hy & _).
  rewrite uniq_snoc, IH by done. unfold uniq_step.
  rewrite decide_False; [done |].
  intros Hin. apply (Hy y Hin). apply list_elem_of_here.
Qed.

Lemma uniq_uniq_snoc l x : uniq (uniq l ++ [x]) = uniq (l ++ [x]).
Proof. by rewrite !uniq_snoc, (uniq_NoDup_id (uniq l)) by apply NoDup_uniq. Qed.

(** The scan of [uniq] from any point on: the names already kept, then the
    first occurrences of the others. *)
Lemma uniq_from (l : list string) :
  forall acc, fold_left uniq_step l acc = acc ++ filter (fun y => y ∉ acc) (dedup l).
Proof.
  induction l as [|x l IH]; intros acc; cbn [fold_left dedup].
  - by rewrite filter_nil, app_nil_r.
  - rewrite IH, filter_cons, list_filter_filter. unfold uniq_step.
    destruct (decide (x ∈ acc)) as [Hin|Hnin].
    + rewrite decide_False by (by intros ?). f_equal. apply list_filter_iff.
      intros y. split; [| by intros [? _]]. intros Hy. split; [done |]. by intros ->.
    + rewrite decide_True by done. rewrite <- app_assoc. simpl. do 2 f_equal.
      apply list_filter_iff. intros y. rewrite not_elem_of_app, list_elem_of_singleton. done.
Qed.

(** [uniq] keeps the first occurrence of every name. *)
Lemma uniq_dedup (l : list string) : uniq l = dedup l.
Proof.
  unfold uniq. rewrite uniq_from. simpl. generalize (dedup l). intros d.
  induction d as [|y d IH]; [done |].
  rewrite filter_cons_True by apply not_elem_of_nil. by rewrite IH.
Qed.

(** ** The mapping engine *)

Section MappingFacts.
Context {Payload GlobalVariables : Type}.
Implicit Types (m : list (string * list string)) (maps : list (list (string * string))).
Implicit Types (inputs : @MappingInputs GlobalVariables).
Implicit Types (msg : @MessageEvent Payload) (sub : SubscribePayload).

(** *** [mergeMappings] *)

Lemma merge_map_get (mp : list (string * string)) merged k :
  JsMap.wf mp ->
  JsMap.get k (merge_map merged mp) =
    match JsMap.get k mp with
    | Some v => Some (uniq (default [] (JsMap.get k merged) ++ [v]))
    | None => JsMap.get k merged
    end.
Proof.
  unfold JsMap.wf. revert merged.
  induction mp as [|[key value] mp IH]; intros merged Hnd; [done |].
  simpl in Hnd. apply NoDup_cons in Hnd as [Hkey Hnd]. simpl.
  rewrite IH by done.
  destruct (decide (k = key)) as [->|Hne].
  - apply get_None in Hkey. rewrite Hkey. apply get_set_eq.
  - by rewrite get_set_ne.
Qed.

Lemma mergeMappings_fold maps merged k ps0 :
  Forall JsMap.wf maps ->
  JsMap.get k merged = entry_of (uniq ps0) ->
  JsMap.get k (fold_left merge_map maps merged) =
    entry_of (uniq (ps0 ++ omap (JsMap.get k) maps)).
Proof.
  revert merged ps0.
  induction maps as [|mp maps IH]; intros merged ps0 Hwf Hm.
  - by rewrite app_nil_r.
  - apply Forall_cons in Hwf as [Hmp Hwf]. simpl.
    destruct (JsMap.get k mp) as [v|] eqn:Hk.
    + rewrite (IH _ (ps0 ++ [v])); [by rewrite <- app_assoc | done |].
      rewrite merge_map_get, Hk, Hm by done.
      replace (default [] (entry_of (uniq ps0))) with (uniq ps0)
        by (by destruct (uniq ps0)).
      rewrite uniq_uniq_snoc, uniq_snoc. unfold uniq_step.
      destruct (decide (v ∈ uniq ps0)) as [Hin|Hnin].
      * destruct (uniq ps0); [by apply elem_of_nil in Hin | done].
      * by destruct (uniq ps0).
    + apply IH; [done |]. by rewrite merge_map_get, Hk.
Qed.

Lemma mergeMappings_get maps k :
  Forall JsMap.wf maps ->
  JsMap.get k (mergeMappings maps) = entry_of (uniq (omap (JsMap.get k) maps)).
Proof.
  intros Hwf. unfold mergeMappings.
  exact (mergeMappings_fold maps [] k [] Hwf eq_refl).
Qed.

Lemma uniq_nil_inv l : uniq l = [] -> l = [].
Proof.
  destruct l as [|x l]; [done |]. intros H.
  assert (Hx : x ∈ uniq (x :: l)) by (apply elem_of_uniq, list_elem_of_here).
  rewrite H in Hx. by apply elem_of_nil in Hx.
Qed.

Lemma mergeMappings_wf maps : JsMap.wf (mergeMappings maps).
Proof.
  unfold mergeMappings.
  assert (H : forall maps merged, JsMap.wf merged ->
    JsMap.wf (fold_left merge_map maps merged)).
  { clear maps. induction maps as [|mp maps IH]; intros merged Hm; [done |].
    simpl. apply IH. clear IH. revert merged Hm.
    induction mp as [|[key value] mp IH]; intros merged Hm; [done |].
    simpl. apply IH. by apply set_wf. }
  apply H. apply NoDup_nil_2.
Qed.

Lemma mergeMappings_values_NoDup maps k vs :
  (k, vs) ∈ mergeMappings maps -> NoDup vs.
Proof.
  unfold mergeMappings.
  assert (H : forall maps merged,
    (forall k vs, (k, vs) ∈ merged -> NoDup vs) ->
    forall k vs,
      (k, vs) ∈ fold_left merge_map maps merged ->
      NoDup vs).
  { clear. induction maps as [|mp maps IH]; intros merged Hm; [done |].
    simpl. apply IH. clear IH. revert merged Hm.
    induction mp as [|[key value] mp IH]; intros merged Hm; [done |].
    simpl. apply IH. intros k vs Hin.
    apply set_elem in Hin as [[-> ->]|Hin]; [apply NoDup_uniq | by eapply Hm]. }
  apply H. intros ? ? Hin. by apply elem_of_nil in Hin.
Qed.

Lemma buildMapping_cases inputs :
  (Forall (fun mp => mp = []) (run_mappers inputs) /\ buildMapping inputs = EmptyMapping)
  \/ buildMapping inputs = MapObj (mergeMappings (run_mappers inputs)).
Proof.
  unfold buildMapping.
  destruct (existsb _ _) eqn:E; [by right | left].
  split; [| done].
  apply Forall_forall. intros mp Hin.
  destruct mp as [|e mp]; [done |].
  assert (existsb (fun map => bool_decide (0 < length map)%nat) (run_mappers inputs) = true)
    as Habs.
  { apply existsb_exists. exists (e :: mp). split; [by apply list_elem_of_In |].
    apply bool_decide_eq_true. simpl. lia. }
  congruence.
Qed.

Lemma buildMapping_get inputs k :
  Forall JsMap.wf (run_mappers inputs) ->
  mapping_get k (buildMapping inputs) =
    entry_of (uniq (omap (JsMap.get k) (run_mappers inputs))).
Proof.
  intros Hwf. destruct (buildMapping_cases inputs) as [[Hall ->]| ->]; simpl.
  - replace (omap (JsMap.get k) (run_mappers inputs)) with (@nil string); [done |].
    induction Hall as [|mp maps -> _ IH]; [done |]. simpl.
    apply Forall_cons in Hwf as [_ Hwf]. by apply IH.
  - by apply mergeMappings_get.
Qed.

Lemma flat_map_nil_iff_helper {A B : Type} (f : A -> list B) (l : list A) :
  (forall x, x ∈ l -> f x = []) -> flat_map f l = [].
Proof.
  induction l as [|x l IH]; intros H; [done |]. simpl.
  rewrite (H x) by apply list_elem_of_here. apply IH.
  intros y Hy. apply H. by apply list_elem_of_further.
Qed.

(** *** [invertMapping] *)

Lemma default_entry_of (l : list string) : default [] (entry_of l) = l.
Proof. by destruct l. Qed.

Lemma invert_value_fold key vs inverted (S : string -> list string) :
  (forall t, JsMap.get t inverted = entry_of (S t)) ->
  forall t, JsMap.get t (fold_left (invert_value key) vs inverted) =
    entry_of (S t ++ map (fun _ => key) (filter (fun v => v = t) vs)).
Proof.
  revert inverted S.
  induction vs as [|v vs IH]; intros inverted S HS t; simpl.
  - by rewrite app_nil_r.
  - rewrite (IH _ (fun t => S t ++ if decide (v = t) then [key] else [])).
    + rewrite <- app_assoc. f_equal. f_equal.
      rewrite filter_cons. by destruct (decide (v = t)).
    + intros t'. unfold invert_value. destruct (decide (v = t')) as [->|Hne].
      * rewrite get_set_eq, HS, default_entry_of. by destruct (S t').
      * rewrite get_set_ne, HS, app_nil_r by done. done.
Qed.

Lemma invert_entries_fold m inverted (S : string -> list string) :
  (forall t, JsMap.get t inverted = entry_of (S t)) ->
  forall t, JsMap.get t (fold_left invert_entry m inverted) =
    entry_of (S t ++ sources_of t m).
Proof.
  revert inverted S.
  induction m as [|[key vs] m IH]; intros inverted S HS t; simpl.
  - by rewrite app_nil_r.
  - rewrite (IH _ (fun t => S t ++ map (fun _ => key) (filter (fun v => v = t) vs))).
    + by rewrite <- app_assoc.
    + intros t'. by apply invert_value_fold.
Qed.

Lemma invert_entries_get m t :
  JsMap.get t (invert_entries m) = entry_of (sources_of t m).
Proof. exact (invert_entries_fold m [] (fun _ => []) (fun _ => eq_refl) t). Qed.

Lemma elem_of_sources_of m t k :
  k ∈ sources_of t m <-> exists vs, (k, vs) ∈ m /\ t ∈ vs.
Proof.
  unfold sources_of. rewrite list_elem_of_In, in_flat_map. split.
  - intros ([key vs] & Hin & Hk). apply list_elem_of_In in Hin.
    apply list_elem_of_In, list_elem_of_fmap in Hk as (v & -> & Hv).
    apply list_elem_of_filter in Hv as [-> Hv]. eauto.
  - intros (vs & Hin & Ht). exists (k, vs). split; [by apply list_elem_of_In |].
    apply list_elem_of_In, list_elem_of_fmap. exists t. split; [done |].
    by apply list_elem_of_filter.
Qed.

Lemma filter_eq_not_in (vs : list string) t : t ∉ vs -> filter (fun v => v = t) vs = [].
Proof.
  induction vs as [|v vs IH]; intros Hnin; [done |].
  apply not_elem_of_cons in Hnin as [Hne Hnin].
  rewrite filter_cons_False by congruence. by apply IH.
Qed.

Lemma filter_eq_NoDup (vs : list string) t :
  NoDup vs -> t ∈ vs -> filter (fun v => v = t) vs = [t].
Proof.
  induction vs as [|v vs IH]; intros Hnd Hin; [by apply elem_of_nil in Hin |].
  apply NoDup_cons in Hnd as [Hv Hnd]. rewrite filter_cons.
  destruct (decide (v = t)) as [->|Hne].
  - f_equal. by apply filter_eq_not_in.
  - apply IH; [done |]. apply elem_of_cons in Hin as [?|?]; [congruence | done].
Qed.

(** In a well-formed mapping whose target lists have no duplicates, a
    target fed by the single source [A] has [[A]] as its sources. *)
Lemma sources_of_single m A B :
  JsMap.wf m ->
  (forall k vs, (k, vs) ∈ m -> NoDup vs) ->
  (exists vs, (A, vs) ∈ m /\ B ∈ vs) ->
  (forall k vs, (k, vs) ∈ m -> B ∈ vs -> k = A) ->
  sources_of B m = [A].
Proof.
  unfold JsMap.wf, sources_of.
  induction m as [|[key vs] m IH]; intros Hwf Hnd (vsA & HA & HB) Honly.
  - by apply elem_of_nil in HA.
  - simpl in Hwf. apply NoDup_cons in Hwf as [Hkey Hwf]. simpl.
    destruct (decide (B ∈ vs)) as [Hin|Hnin].
    + assert (key = A) as -> by (eapply Honly; [apply list_elem_of_here | done]).
      rewrite filter_eq_NoDup; [| eapply Hnd; apply list_elem_of_here | done].
      simpl. f_equal.
      apply flat_map_nil_iff_helper.
      intros [k' vs'] Hin'.
      destruct (decide (B ∈ vs')) as [Hin2|Hnin2].
      * exfalso. apply Hkey. apply list_elem_of_fmap. exists (k', vs').
        split; [| done]. simpl. symmetry. eapply Honly; [| done].
        by apply list_elem_of_further.
      * by rewrite filter_eq_not_in.
    + rewrite filter_eq_not_in by done. simpl. apply IH; [done | | |].
      * intros k vs' Hin'. eapply Hnd. by apply list_elem_of_further.
      * exists vsA. split; [| done].
        apply elem_of_cons in HA as [[= <- <-]|HA]; [done | done].
      * intros k vs' Hin'. apply Honly. by apply list_elem_of_further.
Qed.

Lemma mapMessages_app (l1 l2 : list (@MessageEvent Payload)) mapping :
  contents (l1 ++ l2) (mapMessages (l1 ++ l2) mapping) =
  contents l1 (mapMessages l1 mapping) ++ contents l2 (mapMessages l2 mapping).
Proof. destruct mapping; simpl; [done | apply flat_map_app]. Qed.

Lemma mapMessages_one msg mapping :
  contents [msg] (mapMessages [msg] mapping) =
  match mapping_get (topic msg) mapping with
  | Some targets => map (with_topic msg) targets
  | None => [msg]
  end.
Proof.
  destruct mapping as [|m]; simpl; [done |]. rewrite app_nil_r.
  by destruct (JsMap.get (topic msg) m).
Qed.

Lemma mapSubscriptions_app inputs (l1 l2 : list SubscribePayload) :
  contents (l1 ++ l2) (mapSubscriptions inputs (l1 ++ l2)) =
  contents l1 (mapSubscriptions inputs l1) ++ contents l2 (mapSubscriptions inputs l2).
Proof.
  unfold mapSubscriptions. destruct (buildMapping inputs); simpl; [done | apply flat_map_app].
Qed.

Lemma mapSubscriptions_one inputs sub :
  contents [sub] (mapSubscriptions inputs [sub]) =
  match mapping_get (sub_topic sub) (invertMapping (buildMapping inputs)) with
  | Some sources => map (with_sub_topic sub) sources
  | None => [sub]
  end.
Proof.
  unfold mapSubscriptions. destruct (buildMapping inputs) as [|m]; simpl; [done |].
  rewrite app_nil_r. by destruct (JsMap.get (sub_topic sub) (invert_entries m)).
Qed.

(** C2. The merged mapping gives every source topic the de-duplicated
    union, in registration order, of the targets the mappers propose for
    it: every proposed name once, at the place of its first proposal; a
    source that no mapper claims has no entry.  A message on a claimed
    topic is replaced, in place, by one copy for each name of that list, in
    that order, and a message on a topic no mapper claims passes through.
    When exactly two mappers claim [A], the earlier proposing [B] and the
    later [C], the mapping for [A] is [[B; C]] and a message on [A] becomes
    its copy on [B] followed by its copy on [C]; when the two propose one
    and the same name the mapping is [[B]] and there is one copy.  A copy
    differs from the original only in its topic. *)
Theorem merged_mapping_union_and_fan_out inputs :
  Forall JsMap.wf (run_mappers inputs) ->
  let mapping := buildMapping inputs in
  let proposals source := omap (JsMap.get source) (run_mappers inputs) in
  (forall source, mapping_get source mapping = entry_of (dedup (proposals source)))
  /\ (forall (pre post : list (@MessageEvent Payload)) msg,
        contents (pre ++ msg :: post) (mapMessages (pre ++ msg :: post) mapping) =
        contents pre (mapMessages pre mapping)
        ++ match proposals (topic msg) with
           | [] => [msg]
           | _ :: _ => map (with_topic msg) (dedup (proposals (topic msg)))
           end
        ++ contents post (mapMessages post mapping))
  /\ (forall A B C,
        proposals A = [B; C] ->
        (B ≠ C ->
         mapping_get A mapping = Some [B; C]
         /\ forall (pre post : list (@MessageEvent Payload)) msg,
              topic msg = A ->
              contents (pre ++ msg :: post) (mapMessages (pre ++ msg :: post) mapping) =
              contents pre (mapMessages pre mapping)
              ++ [with_topic msg B; with_topic msg C]
              ++ contents post (mapMessages post mapping))
        /\ (B = C ->
            mapping_get A mapping = Some [B]
            /\ forall (pre post : list (@MessageEvent Payload)) msg,
                 topic msg = A ->
                 contents (pre ++ msg :: post) (mapMessages (pre ++ msg :: post) mapping) =
                 contents pre (mapMessages pre mapping)
                 ++ [with_topic msg B]
                 ++ contents post (mapMessages post mapping)))
  /\ (forall (msg : @MessageEvent Payload) t,
        topic (with_topic msg t) = t
        /\ msg_schemaName (with_topic msg t) = msg_schemaName msg
        /\ receiveTime (with_topic msg t) = receiveTime msg
        /\ message (with_topic msg t) = message msg
        /\ sizeInBytes (with_topic msg t) = sizeInBytes msg).
Proof.
  intros Hwf mapping proposals.
  assert (Hget : forall source,
    mapping_get source mapping = entry_of (dedup (proposals source))).
  { intros source. subst mapping proposals. simpl.
    rewrite buildMapping_get by done. by rewrite uniq_dedup. }
  assert (Hsplit : forall (pre post : list (@MessageEvent Payload)) msg,
    contents (pre ++ msg :: post) (mapMessages (pre ++ msg :: post) mapping) =
    contents pre (mapMessages pre mapping)
    ++ match proposals (topic msg) with
       | [] => [msg]
       | _ :: _ => map (with_topic msg) (dedup (proposals (topic msg)))
       end
    ++ contents post (mapMessages post mapping)).
  { intros pre post msg.
    change (msg :: post) with ([msg] ++ post).
    rewrite !mapMessages_app, mapMessages_one, Hget.
    by destruct (proposals (topic msg)). }
  split_and!; [exact Hget | exact Hsplit | | done].
  intros A B C HA. split.
  - intros Hne.
    assert (Hd : dedup [B; C] = [B; C]).
    { simpl. rewrite filter_cons, filter_nil. by rewrite decide_True. }
    split; [by rewrite Hget, HA, Hd |].
    intros pre post msg <-. by rewrite Hsplit, HA, Hd.
  - intros <-.
    assert (Hd : dedup [B; B] = [B]).
    { simpl. rewrite filter_cons, filter_nil. rewrite decide_False; [done |]. by intros ?. }
    split; [by rewrite Hget, HA, Hd |].
    intros pre post msg <-. by rewrite Hsplit, HA, Hd.
Qed.

(** C6, as amended.  For a mapping that contains [A → B], the inverted
    mapping sends [B] to the list of all the sources that feed [B], which
    contains [A] and is [[A]] when [A] is the only one; a subscription to
    [B] is rewritten into one subscription for each such source, equal to
    the request in every field but the topic; a subscription to a topic
    that is the target of nothing passes through. *)
Theorem inverted_mapping_rewrites_subscriptions inputs m A B targets :
  buildMapping inputs = MapObj m ->
  JsMap.get A m = Some targets ->
  B ∈ targets ->
  let sources := sources_of B m in
  A ∈ sources
  /\ mapping_get B (invertMapping (MapObj m)) = Some sources
  /\ ((forall k vs, (k, vs) ∈ m -> B ∈ vs -> k = A) -> sources = [A])
  /\ (forall pre post sub,
        sub_topic sub = B ->
        contents (pre ++ sub :: post) (mapSubscriptions inputs (pre ++ sub :: post)) =
        contents pre (mapSubscriptions inputs pre)
        ++ map (with_sub_topic sub) sources
        ++ contents post (mapSubscriptions inputs post))
  /\ (forall pre post sub,
        (forall k vs, (k, vs) ∈ m -> sub_topic sub ∉ vs) ->
        contents (pre ++ sub :: post) (mapSubscriptions inputs (pre ++ sub :: post)) =
        contents pre (mapSubscriptions inputs pre) ++ [sub]
        ++ contents post (mapSubscriptions inputs post))
  /\ (forall sub t,
        sub_topic (with_sub_topic sub t) = t
        /\ sub_preloadType (with_sub_topic sub t) = sub_preloadType sub
        /\ sub_fields (with_sub_topic sub t) = sub_fields sub).
Proof.
  intros Hm HA HB sources. subst sources.
  assert (Hin : A ∈ sources_of B m).
  { apply elem_of_sources_of. exists targets. split; [by apply get_Some_elem | done]. }
  assert (Hinv : forall t,
    mapping_get t (invertMapping (buildMapping inputs)) = entry_of (sources_of t m)).
  { intros t. rewrite Hm. simpl. apply invert_entries_get. }
  assert (Hsplit : forall pre post sub,
    contents (pre ++ sub :: post) (mapSubscriptions inputs (pre ++ sub :: post)) =
    contents pre (mapSubscriptions inputs pre)
    ++ match entry_of (sources_of (sub_topic sub) m) with
       | Some srcs => map (with_sub_topic sub) srcs
       | None => [sub]
       end
    ++ contents post (mapSubscriptions inputs post)).
  { intros pre post sub. change (sub :: post) with ([sub] ++ post).
    by rewrite !mapSubscriptions_app, mapSubscriptions_one, Hinv. }
  assert (Hsome : entry_of (sources_of B m) = Some (sources_of B m)).
  { destruct (sources_of B m); [by apply elem_of_nil in Hin | done]. }
  split_and!; [done | | | | | done].
  - simpl. by rewrite invert_entries_get.
  - intros Honly. destruct (buildMapping_cases inputs) as [[_ Hb]|Hb]; [congruence |].
    assert (m = mergeMappings (run_mappers inputs)) as Heq by congruence.
    apply sources_of_single; [| | | done].
    + rewrite Heq. apply mergeMappings_wf.
    + intros k vs Hk. rewrite Heq in Hk. by eapply mergeMappings_values_NoDup.
    + exists targets. split; [by apply get_Some_elem | done].
  - intros pre post sub <-. by rewrite Hsplit, Hsome.
  - intros pre post sub Hnone. rewrite Hsplit.
    replace (sources_of (sub_topic sub) m) with (@nil string); [done |].
    symmetry. destruct (sources_of (sub_topic sub) m) as [|k l] eqn:E; [done |].
    assert (k ∈ sources_of (sub_topic sub) m) as Hk by (rewrite E; apply list_elem_of_here).
    apply elem_of_sources_of in Hk as (vs & Hk & Ht). by destruct (Hnone k vs).
Qed.

(** C8. When every mapper returns an empty map, [buildMapping] returns the
    sentinel [EmptyMapping], and with it every transform hands back the
    very object it was given: the topic list, the message batch, the
    blocks, the keyed topic sets, the progress and the subscriptions. *)
Theorem no_rename_gives_identity_sentinel inputs :
  Forall (fun proposed => proposed = []) (run_mappers inputs) ->
  buildMapping inputs = EmptyMapping
  /\ (forall topics : list Topic, mapTopics topics (buildMapping inputs) = SameRef)
  /\ (forall messages : list (@MessageEvent Payload),
        mapMessages messages (buildMapping inputs) = SameRef)
  /\ (forall blocks : @MessageBlocks Payload, mapBlocks blocks (buildMapping inputs) = SameRef)
  /\ (forall keyed : list (string * list string),
        mapKeyedTopics keyed (buildMapping inputs) = SameRef)
  /\ (forall progress : @Progress Payload,
        mapProgress progress (buildMapping inputs) = SameRef)
  /\ (forall subscriptions : list SubscribePayload,
        mapSubscriptions inputs subscriptions = SameRef)
  /\ (forall (A : Type) (input : A), contents input SameRef = input).
Proof.
  intros Hall.
  assert (Hb : buildMapping inputs = EmptyMapping).
  { unfold buildMapping.
    replace (existsb _ (run_mappers inputs)) with false; [done |].
    symmetry. induction Hall as [|mp maps -> _ IH]; [done | exact IH]. }
  unfold mapSubscriptions. rewrite Hb. by split_and!.
Qed.

(** C10. When the mapping fans [A] out to [[B; C]], a request list that
    subscribes to [B] and to [C] is forwarded as the payloads for the
    sources of [B] followed by those for the sources of [C]; [A] is among
    both, so two forwarded payloads name [A]; and when nothing else feeds
    [B] or [C] these two payloads are all that is forwarded. *)
Theorem fanned_out_subscriptions_not_coalesced inputs m A B C subB subC :
  buildMapping inputs = MapObj m ->
  JsMap.get A m = Some [B; C] ->
  sub_topic subB = B ->
  sub_topic subC = C ->
  mapSubscriptions inputs [subB; subC]
  = NewObj (map (with_sub_topic subB) (sources_of B m)
            ++ map (with_sub_topic subC) (sources_of C m))
  /\ A ∈ sources_of B m
  /\ A ∈ sources_of C m
  /\ ((forall k vs, (k, vs) ∈ m -> k ≠ A -> (B ∉ vs) /\ (C ∉ vs)) ->
      mapSubscriptions inputs [subB; subC]
      = NewObj [with_sub_topic subB A; with_sub_topic subC A]).
Proof.
  intros Hm HA HB HC.
  assert (HinB : A ∈ sources_of B m).
  { apply elem_of_sources_of. exists [B; C].
    split; [by apply get_Some_elem | apply list_elem_of_here]. }
  assert (HinC : A ∈ sources_of C m).
  { apply elem_of_sources_of. exists [B; C].
    split; [by apply get_Some_elem | apply list_elem_of_further, list_elem_of_here]. }
  assert (Hgen : mapSubscriptions inputs [subB; subC]
                 = NewObj (map (with_sub_topic subB) (sources_of B m)
                           ++ map (with_sub_topic subC) (sources_of C m))).
  { unfold mapSubscriptions. rewrite Hm. simpl.
    rewrite HB, HC, !invert_entries_get, app_nil_r.
    destruct (sources_of B m); [by apply elem_of_nil in HinB |].
    destruct (sources_of C m); [by apply elem_of_nil in HinC | done]. }
  split_and!; [exact Hgen | exact HinB | exact HinC |].
  intros Hothers. rewrite Hgen.
  destruct (buildMapping_cases inputs) as [[_ Hb]|Hb]; [congruence |].
  assert (m = mergeMappings (run_mappers inputs)) as Heq by congruence.
  assert (Hwf : JsMap.wf m) by (rewrite Heq; apply mergeMappings_wf).
  assert (Hnd : forall k vs, (k, vs) ∈ m -> NoDup vs).
  { intros k vs Hk. rewrite Heq in Hk. by eapply mergeMappings_values_NoDup. }
  assert (Hsrc : forall T, T ∈ [B; C] -> sources_of T m = [A]).
  { intros T HT. apply sources_of_single; [done | done | |].
    - exists [B; C]. split; [by apply get_Some_elem | done].
    - intros k vs Hk HTin. destruct (decide (k = A)) as [|Hne]; [done |].
      destruct (Hothers k vs Hk Hne) as [HnB HnC].
      apply elem_of_cons in HT as [->|HT]; [done |].
      apply list_elem_of_singleton in HT as ->. done. }
  rewrite (Hsrc B), (Hsrc C); [done | |].
  - apply list_elem_of_further, list_elem_of_here.
  - apply list_elem_of_here.
Qed.
End MappingFacts.

(** Three registered mappers, [A → B], [A → B] again and [A → C]: the
    merged mapping for [A] names [B] once, and a message on [A] becomes two
    copies. *)
Lemma merged_mapping_union_and_fan_out_witness :
  Forall JsMap.wf (run_mappers Samples.repeated_inputs)
  /\ omap (JsMap.get "A") (run_mappers Samples.repeated_inputs) = ["B"; "B"; "C"]
  /\ mapping_get "A" (buildMapping Samples.repeated_inputs) = Some ["B"; "C"]
  /\ contents [Samples.msg "A"]
       (mapMessages ([] ++ Samples.msg "A" :: []) (buildMapping Samples.repeated_inputs))
     = [with_topic (Samples.msg "A") "B"; with_topic (Samples.msg "A") "C"].
Proof.
  assert (Hwf : Forall JsMap.wf (run_mappers Samples.repeated_inputs)).
  { repeat (constructor; [unfold JsMap.wf; simpl; apply NoDup_singleton |]). constructor. }
  destruct (merged_mapping_union_and_fan_out (Payload := string) Samples.repeated_inputs Hwf)
    as (Hget & Hmsgs & _).
  split_and!; [exact Hwf | reflexivity | exact (Hget "A") |].
  exact (Hmsgs [] [] (Samples.msg "A")).
Defined.

(** C6 fails as stated: with [A → B] and [D → B] the inverted mapping sends
    [B] to [[A; D]], not to [[A]], and a subscription to [B] becomes two
    subscriptions. *)
Lemma inverted_mapping_is_not_always_single_source :
  mapping_get "A" (buildMapping Samples.fan_in_inputs) = Some ["B"]
  /\ mapping_get "B" (invertMapping (buildMapping Samples.fan_in_inputs)) = Some ["A"; "D"]
  /\ mapping_get "B" (invertMapping (buildMapping Samples.fan_in_inputs)) ≠ Some ["A"]
  /\ mapSubscriptions Samples.fan_in_inputs [Samples.sub "B"]
     = NewObj [Samples.sub "A"; Samples.sub "D"].
Proof. split_and!; [reflexivity | reflexivity | discriminate | reflexivity]. Qed.

Lemma inverted_mapping_rewrites_subscriptions_witness :
  mapping_get "B" (invertMapping (MapObj [("A", ["B"]); ("D", ["B"])])) = Some ["A"; "D"]
  /\ contents [Samples.sub "B"] (mapSubscriptions Samples.fan_in_inputs [Samples.sub "B"])
     = [Samples.sub "A"; Samples.sub "D"].
Proof.
  destruct (inverted_mapping_rewrites_subscriptions Samples.fan_in_inputs
              [("A", ["B"]); ("D", ["B"])] "A" "B" ["B"])
    as (_ & Hinv & _ & Hsub & _).
  - reflexivity.
  - reflexivity.
  - apply list_elem_of_here.
  - split; [exact Hinv |]. exact (Hsub [] [] (Samples.sub "B") eq_refl).
Defined.

Lemma no_rename_gives_identity_sentinel_witness :
  buildMapping Samples.idle_inputs = EmptyMapping
  /\ mapTopics [mkTopic "A" (Some "s") None None] (buildMapping Samples.idle_inputs) = SameRef.
Proof.
  destruct (no_rename_gives_identity_sentinel (Payload := string) Samples.idle_inputs)
    as (Hb & Ht & _).
  - repeat constructor.
  - split; [exact Hb | apply Ht].
Defined.

Lemma fanned_out_subscriptions_not_coalesced_witness :
  mapSubscriptions Samples.fan_out_inputs [Samples.sub "B"; Samples.sub "C"]
  = NewObj [Samples.sub "A"; Samples.sub "A"].
Proof.
  destruct (fanned_out_subscriptions_not_coalesced Samples.fan_out_inputs
              [("A", ["B"; "C"])] "A" "B" "C" (Samples.sub "B") (Samples.sub "C"))
    as (_ & _ & _ & Honly); [reflexivity ..|].
  apply Honly.
  intros k vs Hin Hne. apply list_elem_of_singleton in Hin as [= -> ->]. done.
Defined.

(** ** The topic mapping player *)

Section PlayerFacts.
Context {Payload GlobalVariables : Type}.
Implicit Types (p : @TopicMappingPlayer Payload GlobalVariables).
Implicit Types (subs pending : list SubscribePayload).

Lemma new_player_consistent (mappers : list (@TopicMapper GlobalVariables)) variables :
  consistent (new_TopicMappingPlayer (Payload := Payload) mappers variables).
Proof. reflexivity. Qed.

Lemma setMappers_consistent p mappers : consistent (setMappers p mappers).
Proof. reflexivity. Qed.

Lemma notify_listener_fields p state :
  tmp_inputs (notify_listener state p) = tmp_inputs p
  /\ pendingSubscriptions (notify_listener state p) = pendingSubscriptions p
  /\ skipMapping (notify_listener state p) = skipMapping p
  /\ has_listener (notify_listener state p) = has_listener p
  /\ calls (notify_listener state p) =
     calls p ++ (if has_listener p then [ListenerCalled state] else []).
Proof.
  unfold notify_listener. destruct (has_listener p) eqn:E; simpl; [by rewrite E |].
  by rewrite app_nil_r.
Qed.

Lemma setSubscriptions_consistent p subs : consistent p -> consistent (setSubscriptions p subs).
Proof.
  unfold consistent, setSubscriptions. intros Hc.
  destruct (skipMapping p) eqn:Hskip; [by rewrite <- Hskip in Hc |].
  destruct (topics (tmp_inputs p)); simpl; by rewrite <- Hskip in Hc.
Qed.

Lemma setGlobalVariables_consistent p variables :
  consistent p -> consistent (setGlobalVariables p variables).
Proof. done. Qed.

Lemma onPlayerState_consistent p state : consistent p -> consistent (onPlayerState p state).
Proof.
  unfold consistent, onPlayerState. intros Hc.
  destruct (skipMapping p) eqn:Hskip.
  - destruct (notify_listener_fields p state) as (-> & _ & -> & _). congruence.
  - match goal with |- context [notify_listener ?s ?q] =>
      destruct (notify_listener_fields q s) as (Hi & Hp & Hs & _); set (p1 := notify_listener s q) in *
    end.
    simpl in Hi, Hp, Hs.
    destruct (pendingSubscriptions p1); [| by rewrite Hs, Hi].
    destruct (topics (tmp_inputs p1)) eqn:Ht; [| by rewrite Hs, Hi].
    apply setSubscriptions_consistent. unfold consistent. by rewrite Hs, Hi.
Qed.

(** C3. While the player has a mapper but no topic list, [setSubscriptions]
    forwards nothing and keeps the request as the pending one, replacing
    any earlier pending request; the next state that carries a topic list
    makes the player forward the pending request, mapped with that topic
    list, and clear the pending slot, while a state without one leaves it
    pending; with no mapper the request is forwarded as it is. *)
Theorem pending_subscriptions_buffered_until_topics p :
  consistent p ->
  (mappers (tmp_inputs p) ≠ [] ->
     (topics (tmp_inputs p) = None ->
        (forall subs, setSubscriptions p subs = set_pending (Some subs) p)
        /\ (forall subs1 subs2,
              setSubscriptions (setSubscriptions p subs1) subs2 = setSubscriptions p subs2))
     /\ (forall pending state ad,
           pendingSubscriptions p = Some pending ->
           activeData state = Some ad ->
           let inputs' :=
             {| mappers := mappers (tmp_inputs p); topics := Some (ad_topics ad);
                variables := variables (tmp_inputs p) |} in
           let p' := onPlayerState p state in
           pendingSubscriptions p' = None
           /\ tmp_inputs p' = inputs'
           /\ calls p' =
              calls p
              ++ (if has_listener p then [ListenerCalled (mapPlayerState inputs' state)] else [])
              ++ [InnerSetSubscriptions (contents pending (mapSubscriptions inputs' pending))])
     /\ (forall state,
           activeData state = None ->
           pendingSubscriptions (onPlayerState p state) = pendingSubscriptions p
           /\ forall subs, InnerSetSubscriptions subs ∈ calls (onPlayerState p state) ->
                           InnerSetSubscriptions subs ∈ calls p))
  /\ (mappers (tmp_inputs p) = [] ->
        forall subs, setSubscriptions p subs = call (InnerSetSubscriptions subs) p).
Proof.
  unfold consistent. intros Hc. split.
  - intros Hne.
    assert (Hskip : skipMapping p = false).
    { rewrite Hc. apply bool_decide_eq_false. by destruct (mappers (tmp_inputs p)). }
    split_and!.
    + intros Hnone. split.
      * intros subs. unfold setSubscriptions. by rewrite Hskip, Hnone.
      * intros subs1 subs2. unfold setSubscriptions. rewrite Hskip, Hnone. simpl.
        by rewrite Hskip, Hnone.
    + intros pending state ad Hp Hst.
      set (inputs' := {| mappers := mappers (tmp_inputs p); topics := Some (ad_topics ad);
                         variables := variables (tmp_inputs p) |}).
      unfold onPlayerState. rewrite Hskip, Hst. simpl. fold inputs'.
      match goal with |- context [notify_listener ?s ?q] =>
        destruct (notify_listener_fields q s) as (Hi & Hpd & Hs & _ & Hcalls);
        set (p1 := notify_listener s q) in *
      end.
      simpl in Hi, Hpd, Hs, Hcalls.
      rewrite Hpd, Hp, Hi. simpl.
      unfold setSubscriptions. rewrite Hs, Hi. simpl.
      rewrite Hcalls, Hi. by rewrite <- app_assoc.
    + intros state Hst. unfold onPlayerState. rewrite Hskip, Hst. simpl.
      match goal with |- context [notify_listener ?s ?q] =>
        destruct (notify_listener_fields q s) as (Hi & Hpd & Hs & _ & Hcalls);
        set (p1 := notify_listener s q) in *
      end.
      simpl in Hi, Hpd, Hs, Hcalls.
      rewrite Hi. simpl.
      assert (Hsame : (match pendingSubscriptions p1 with
                       | Some _ => p1 | None => p1 end) = p1)
        by (by destruct (pendingSubscriptions p1)).
      rewrite Hsame, Hpd. split; [done |].
      intros subs. rewrite Hcalls, elem_of_app. intros [?|Hin]; [done |].
      destruct (has_listener p); [| by apply elem_of_nil in Hin].
      by apply list_elem_of_singleton in Hin.
  - intros Hnil subs. unfold setSubscriptions.
    rewrite Hc, Hnil. done.
Qed.
End PlayerFacts.

(** The player built with one mapper: two requests before any state, then a
    state with topics. *)
Lemma pending_subscriptions_buffered_until_topics_witness :
  consistent Samples.renaming_player
  /\ setSubscriptions (setSubscriptions Samples.renaming_player [Samples.sub "/old_request"])
       [Samples.sub "/renamed_topic_1"; Samples.sub "/topic_2"]
     = set_pending (Some [Samples.sub "/renamed_topic_1"; Samples.sub "/topic_2"])
         Samples.renaming_player
  /\ calls
       (onPlayerState
          (set_pending (Some [Samples.sub "/renamed_topic_1"; Samples.sub "/topic_2"])
             Samples.renaming_player)
          Samples.state_with_topics)
     = [InnerSetSubscriptions [Samples.sub "/original_topic_1"; Samples.sub "/topic_2"]].
Proof.
  assert (Hc : consistent Samples.renaming_player) by reflexivity.
  destruct (pending_subscriptions_buffered_until_topics Samples.renaming_player Hc)
    as [Hactive _].
  destruct Hactive as (Hbuffer & _); [discriminate |].
  destruct (Hbuffer eq_refl) as [Hset Hlast].
  split_and!; [exact Hc | by rewrite Hlast, Hset | reflexivity].
Defined.

(** ** Namespaced topics *)

Section NamespaceFacts.
Implicit Types (c : ascii) (s : list ascii).

Ltac all_bytes c := destruct c as [[] [] [] [] [] [] [] []]; vm_compute.

Lemma unreserved_not_percent c : is_unreserved c = true -> c ≠ percent.
Proof. all_bytes c; intros H; discriminate || (intros E; discriminate). Qed.

Lemma unreserved_single c : is_unreserved c = true -> seq_len (byte_of c) = Some 1%nat.
Proof. all_bytes c; intros H; reflexivity || discriminate. Qed.

Lemma escape_roundtrip c :
  hex_value (hex_digit (byte_of c / 16)) = Some (byte_of c / 16)%N
  /\ hex_value (hex_digit (byte_of c mod 16)) = Some (byte_of c mod 16)%N
  /\ ascii_of_N (16 * (byte_of c / 16) + byte_of c mod 16) = c.
Proof. all_bytes c; repeat split. Qed.

Lemma encode_byte_no_colon c : forallb (fun x => negb (Ascii.eqb x colon)) (encode_byte c) = true.
Proof. all_bytes c; reflexivity. Qed.

Lemma cont_not_single b : is_cont b = true -> seq_len b = None.
Proof.
  unfold is_cont, seq_len. intros H. apply andb_prop in H as [H1 H2].
  apply N.leb_le in H1. apply N.ltb_lt in H2.
  destruct (N.ltb_spec b 128); [lia |]. destruct (N.ltb_spec b 192); [done | lia].
Qed.

Lemma cont_escaped c : is_cont (byte_of c) = true -> token_of c = Esc c.
Proof.
  intros H. unfold token_of. destruct (is_unreserved c) eqn:E; [| done].
  apply unreserved_single in E. apply cont_not_single in H. congruence.
Qed.

Lemma lead_escaped c n :
  seq_len (byte_of c) = Some n -> n ≠ 1%nat -> token_of c = Esc c.
Proof.
  intros H Hn. unfold token_of. destruct (is_unreserved c) eqn:E; [| done].
  apply unreserved_single in E. congruence.
Qed.

Lemma tokenize_encode_byte c rest :
  tokenize (encode_byte c ++ rest) = cons (token_of c) <$> tokenize rest.
Proof.
  unfold encode_byte, token_of. destruct (is_unreserved c) eqn:E; simpl.
  - rewrite decide_False by (by apply unreserved_not_percent). done.
  - destruct (escape_roundtrip c) as (-> & -> & ->). done.
Qed.

Lemma tokenize_encode_bytes s : tokenize (encode_bytes s) = Some (map token_of s).
Proof.
  induction s as [|c s IH]; [done |].
  unfold encode_bytes in *. simpl. by rewrite tokenize_encode_byte, IH.
Qed.

Lemma decode_tokens_single c ts :
  seq_len (byte_of c) = Some 1%nat ->
  decode_tokens (token_of c :: ts) = cons c <$> decode_tokens ts.
Proof. intros H. unfold token_of. destruct (is_unreserved c); simpl; by rewrite ?H. Qed.

Lemma decode_tokens_encoded n s :
  (length s <= n)%nat ->
  well_formed_bytes s = true ->
  decode_tokens (map token_of s) = Some s.
Proof.
  revert s. induction n as [|n IH]; intros s Hlen Hwf.
  { destruct s; [done | simpl in Hlen; lia]. }
  destruct s as [|c0 s1]; [done |].
  simpl in Hlen. cbn [well_formed_bytes] in Hwf.
  destruct (seq_len (byte_of c0)) as [[|[|[|[|[|k]]]]]|] eqn:H0; try discriminate.
  - rewrite map_cons, decode_tokens_single, IH by (done || lia). done.
  - destruct s1 as [|c1 s2]; [discriminate |].
    apply andb_prop in Hwf as [Hv Hwf]. simpl in Hlen.
    assert (Hc1 : is_cont (byte_of c1) = true).
    { simpl in Hv. by apply andb_prop in Hv as [_ ?]. }
    rewrite !map_cons, (lead_escaped c0 2), (cont_escaped c1) by done.
    cbn [decode_tokens]. rewrite H0, Hv, IH by (done || lia). done.
  - destruct s1 as [|c1 [|c2 s3]]; try discriminate.
    apply andb_prop in Hwf as [Hv Hwf]. simpl in Hlen.
    assert (Hc : is_cont (byte_of c1) = true /\ is_cont (byte_of c2) = true).
    { simpl in Hv. repeat (apply andb_prop in Hv as [Hv ?]). done. }
    destruct Hc as [Hc1 Hc2].
    rewrite !map_cons, (lead_escaped c0 3), (cont_escaped c1), (cont_escaped c2) by done.
    cbn [decode_tokens]. rewrite H0, Hv, IH by (done || lia). done.
  - destruct s1 as [|c1 [|c2 [|c3 s4]]]; try discriminate.
    apply andb_prop in Hwf as [Hv Hwf]. simpl in Hlen.
    assert (Hc : is_cont (byte_of c1) = true /\ is_cont (byte_of c2) = true
                 /\ is_cont (byte_of c3) = true).
    { simpl in Hv. repeat (apply andb_prop in Hv as [Hv ?]). done. }
    destruct Hc as (Hc1 & Hc2 & Hc3).
    rewrite !map_cons, (lead_escaped c0 4), (cont_escaped c1), (cont_escaped c2),
      (cont_escaped c3) by done.
    cbn [decode_tokens]. rewrite H0, Hv, IH by (done || lia). done.
Qed.

Lemma list_ascii_of_string_app (a b : string) :
  list_ascii_of_string (a +:+ b) = list_ascii_of_string a ++ list_ascii_of_string b.
Proof. induction a as [|c a IH]; [done |]. simpl. by rewrite IH. Qed.

Lemma encodeURIComponent_Some (t e : string) :
  encodeURIComponent t = Some e ->
  well_formed t /\ list_ascii_of_string e = encode_bytes (list_ascii_of_string t).
Proof.
  unfold encodeURIComponent, well_formed.
  destruct (well_formed_bytes (list_ascii_of_string t)); [| done].
  intros [= <-]. by rewrite list_ascii_of_string_of_list_ascii.
Qed.

Lemma decode_encode (t e : string) :
  encodeURIComponent t = Some e -> decodeURIComponent e = Some t.
Proof.
  intros H. apply encodeURIComponent_Some in H as [Hwf He].
  unfold decodeURIComponent. rewrite He, tokenize_encode_bytes. simpl.
  rewrite (decode_tokens_encoded (length (list_ascii_of_string t))) by done.
  simpl. by rewrite string_of_list_ascii_of_string.
Qed.

Lemma encode_bytes_no_colon s : colon ∉ encode_bytes s.
Proof.
  unfold encode_bytes. rewrite list_elem_of_In, in_flat_map.
  intros (c & _ & Hin).
  pose proof (encode_byte_no_colon c) as H.
  rewrite forallb_forall in H. specialize (H _ Hin).
  by rewrite Ascii.eqb_refl in H.
Qed.

Lemma first_segment_app s rest : colon ∉ s -> first_segment (s ++ colon :: rest) = s.
Proof.
  induction s as [|c s IH]; intros Hnin; cbn [app first_segment].
  - by rewrite decide_True.
  - apply not_elem_of_cons in Hnin as [Hne Hnin].
    rewrite decide_False by congruence. by rewrite IH.
Qed.

Lemma split_at_colon (l1 l2 r1 r2 : list ascii) :
  colon ∉ l1 -> colon ∉ l2 -> l1 ++ colon :: r1 = l2 ++ colon :: r2 -> l1 = l2 /\ r1 = r2.
Proof.
  revert l2. induction l1 as [|c l1 IH]; intros l2 H1 H2 Heq.
  - destruct l2 as [|c2 l2]; simpl in Heq.
    + by injection Heq.
    + injection Heq as <- _. exfalso. apply H2, list_elem_of_here.
  - destruct l2 as [|c2 l2]; simpl in Heq.
    + injection Heq as -> _. exfalso. apply H1, list_elem_of_here.
    + injection Heq as -> Heq.
      apply not_elem_of_cons in H1 as [_ H1]. apply not_elem_of_cons in H2 as [_ H2].
      destruct (IH l2 H1 H2 Heq) as [-> ->]. done.
Qed.

Lemma namespaceTopic_Some (topic schema : string) nt :
  namespaceTopic topic schema = Some nt ->
  exists et es : string,
    encodeURIComponent topic = Some et /\ encodeURIComponent schema = Some es
    /\ list_ascii_of_string nt =
       encode_bytes (list_ascii_of_string topic)
       ++ colon :: encode_bytes (list_ascii_of_string schema).
Proof.
  unfold namespaceTopic.
  destruct (encodeURIComponent topic) as [et|] eqn:Ht; [| done].
  destruct (encodeURIComponent schema) as [es|] eqn:Hs; [| done].
  simpl. intros [= <-]. exists et, es. split_and!; [done | done |].
  apply encodeURIComponent_Some in Ht as [_ Ht]. apply encodeURIComponent_Some in Hs as [_ Hs].
  rewrite !list_ascii_of_string_app, Ht, Hs. done.
Qed.

Lemma namespaceTopic_total (topic schema : string) :
  well_formed topic -> well_formed schema -> is_Some (namespaceTopic topic schema).
Proof.
  unfold namespaceTopic, encodeURIComponent, well_formed. intros -> ->. by eexists.
Qed.

Lemma unnamespace_namespace (topic schema : string) nt :
  namespaceTopic topic schema = Some nt -> unnamespacetopic nt = Some topic.
Proof.
  intros Hnt. apply namespaceTopic_Some in Hnt as (et & es & Het & _ & Hl).
  unfold unnamespacetopic. rewrite Hl, first_segment_app by apply encode_bytes_no_colon.
  apply decode_encode. rewrite Het. f_equal.
  apply encodeURIComponent_Some in Het as [_ <-].
  by rewrite string_of_list_ascii_of_string.
Qed.

Lemma encodeURIComponent_inj (a b ea eb : string) :
  encodeURIComponent a = Some ea -> encodeURIComponent b = Some eb ->
  encode_bytes (list_ascii_of_string a) = encode_bytes (list_ascii_of_string b) ->
  a = b.
Proof.
  intros Ha Hb Heq.
  assert (ea = eb) as ->.
  { apply encodeURIComponent_Some in Ha as [_ Ha].
    apply encodeURIComponent_Some in Hb as [_ Hb].
    rewrite <- (string_of_list_ascii_of_string ea), <- (string_of_list_ascii_of_string eb).
    congruence. }
  apply decode_encode in Ha. apply decode_encode in Hb. congruence.
Qed.

Lemma namespaceTopic_inj (topic1 schema1 topic2 schema2 : string) nt :
  namespaceTopic topic1 schema1 = Some nt ->
  namespaceTopic topic2 schema2 = Some nt ->
  topic1 = topic2 /\ schema1 = schema2.
Proof.
  intros H1 H2.
  apply namespaceTopic_Some in H1 as (t1 & s1 & Ht1 & Hs1 & Hl1).
  apply namespaceTopic_Some in H2 as (t2 & s2 & Ht2 & Hs2 & Hl2).
  rewrite Hl1 in Hl2.
  apply split_at_colon in Hl2 as [Ht Hs]; [| apply encode_bytes_no_colon ..].
  split; eapply encodeURIComponent_inj; eauto.
Qed.

(** C5. For well-formed topic and schema strings, [namespaceTopic]
    succeeds and [unnamespacetopic] gives back the topic; and two pairs
    with the same namespaced topic are the same pair. *)
Theorem namespace_roundtrip_and_injective :
  (forall topic schema : string,
     well_formed topic -> well_formed schema ->
     exists nt, namespaceTopic topic schema = Some nt /\ unnamespacetopic nt = Some topic)
  /\ (forall (topic1 schema1 topic2 schema2 : string) nt,
        namespaceTopic topic1 schema1 = Some nt ->
        namespaceTopic topic2 schema2 = Some nt ->
        topic1 = topic2 /\ schema1 = schema2).
Proof.
  split.
  - intros topic schema Ht Hs.
    destruct (namespaceTopic_total topic schema Ht Hs) as [nt Hnt].
    exists nt. split; [done | by eapply unnamespace_namespace].
  - apply namespaceTopic_inj.
Qed.
End NamespaceFacts.

Lemma namespace_roundtrip_and_injective_witness :
  well_formed "/robot_description" /\ well_formed "std_msgs/String"
  /\ namespaceTopic "/robot_description" "std_msgs/String"
     = Some "%2Frobot_description:std_msgs%2FString"
  /\ unnamespacetopic "%2Frobot_description:std_msgs%2FString" = Some "/robot_description".
Proof.
  assert (H1 : well_formed "/robot_description") by reflexivity.
  assert (H2 : well_formed "std_msgs/String") by reflexivity.
  destruct (proj1 namespace_roundtrip_and_injective _ _ H1 H2) as (nt & Hnt & Hback).
  assert (nt = "%2Frobot_description:std_msgs%2FString") as -> by (vm_compute in Hnt; congruence).
  split_and!; [exact H1 | exact H2 | exact Hnt | exact Hback].
Defined.

(** ** Config migration *)

Section ConfigFacts.
Context {BaseSettings OtherFields : Type}.
Context (ROS FOX : gset string).
Implicit Types (knownTopics : list Topic) (key schema nk : string).
Implicit Types (u n : gmap string (option BaseSettings)).
Implicit Types (config : option BaseSettings).

(** No schema name is the empty string. *)
Hypothesis empty_unsupported : "" ∉ Config.ALL_SUPPORTED_SCHEMAS ROS FOX.

Lemma supported_truthy schema :
  schema ∈ Config.ALL_SUPPORTED_SCHEMAS ROS FOX -> truthy schema = true.
Proof.
  intros Hin. unfold truthy. destruct (String.eqb_spec schema ""); [| done].
  subst. done.
Qed.

Lemma find_supported_in (l : list string) schema :
  find (Config.supported ROS FOX) l = Some schema ->
  schema ∈ Config.ALL_SUPPORTED_SCHEMAS ROS FOX.
Proof.
  intros H. apply find_some in H as [_ H]. by apply bool_decide_eq_true in H.
Qed.

(** A namespaced topic holds a colon, so it is an ordinary property name. *)
Lemma namespaceTopic_not_proto key schema nk :
  namespaceTopic key schema = Some nk -> nk ≠ "__proto__".
Proof.
  intros Hnk ->. apply namespaceTopic_Some in Hnk as (et & es & _ & _ & Hl).
  assert (Hin : colon ∈ list_ascii_of_string "__proto__").
  { rewrite Hl. apply elem_of_app. right. apply list_elem_of_here. }
  simpl in Hin. repeat (apply elem_of_cons in Hin as [Hin|Hin]; [discriminate |]).
  by apply elem_of_nil in Hin.
Qed.

Lemma assign_namespaced key schema nk config n :
  namespaceTopic key schema = Some nk ->
  PlainObject.assign_property nk config n = <[nk := config]> n.
Proof.
  intros Hnk. unfold PlainObject.assign_property.
  rewrite decide_False; [done | by eapply namespaceTopic_not_proto].
Qed.

Lemma assign_property_Some {V : Type} key (v : V) (o : gmap string V) k x :
  PlainObject.assign_property key v o !! k = Some x
  <-> (k = key /\ x = v /\ key ≠ "__proto__") \/ (o !! k = Some x /\ (k ≠ key \/ key = "__proto__")).
Proof.
  unfold PlainObject.assign_property. destruct (decide (key = "__proto__")) as [->|Hne].
  - split; [intros H; right; split; [done | by right] | intros [(_ & _ & ?)|[? _]]; done].
  - rewrite lookup_insert_Some. split.
    + intros [[<- <-]|[? ?]]; [by left | right; split; [done | left; congruence]].
    + intros [(-> & -> & _)|[? [?|?]]]; [by left | right; split; congruence | done].
Qed.

(** One turn of the loop does what the specification's cases say, but for
    an entry named [__proto__] that is to stay. *)
Lemma migrate_entry_eq knownTopics u n key config :
  Config.migrate_entry ROS FOX knownTopics (Some (u, n)) (key, config) =
  match Config.spec_destination ROS FOX knownTopics key with
  | Some schema => nk ← namespaceTopic key schema; Some (u, <[nk := config]> n)
  | None => Some (PlainObject.assign_property key config u, n)
  end.
Proof.
  unfold Config.migrate_entry, Config.spec_destination. simpl.
  destruct (find _ knownTopics) as [tp|] eqn:Hfind; [| done].
  apply find_some in Hfind as [_ Hname]. apply bool_decide_eq_true in Hname.
  rewrite Hname.
  assert (Hmove : forall schema,
    (mappedKey ← namespaceTopic key schema;
     Some (u, PlainObject.assign_property mappedKey config n))
    = (nk ← namespaceTopic key schema; Some (u, <[nk := config]> n))).
  { intros schema. destruct (namespaceTopic key schema) as [nk|] eqn:Hnk; [| done].
    simpl. by rewrite (assign_namespaced key schema nk). }
  assert (Hconv :
    match convertibleTo tp ≫= find (Config.supported ROS FOX) with
    | Some convertibleSchema =>
        if truthy convertibleSchema then
          mappedKey ← namespaceTopic key convertibleSchema;
          Some (u, PlainObject.assign_property mappedKey config n)
        else Some (PlainObject.assign_property key config u, n)
    | None => Some (PlainObject.assign_property key config u, n)
    end =
    match convertibleTo tp ≫= find (Config.supported ROS FOX) with
    | Some schema => nk ← namespaceTopic key schema; Some (u, <[nk := config]> n)
    | None => Some (PlainObject.assign_property key config u, n)
    end).
  { destruct (convertibleTo tp ≫= find (Config.supported ROS FOX)) as [c|] eqn:Hc; [| done].
    rewrite supported_truthy; [apply Hmove |].
    destruct (convertibleTo tp) as [l|]; [| done]. by eapply find_supported_in. }
  destruct (schemaName tp) as [sn|]; [| exact Hconv].
  unfold Config.supported at 1.
  destruct (decide (sn ∈ Config.ALL_SUPPORTED_SCHEMAS ROS FOX)) as [Hin|Hnin].
  - rewrite supported_truthy, bool_decide_eq_true_2 by done. apply Hmove.
  - rewrite bool_decide_eq_false_2, andb_false_r by done. exact Hconv.
Qed.

Lemma migrate_fold_None knownTopics (L : list (string * option BaseSettings)) :
  fold_left (Config.migrate_entry ROS FOX knownTopics) L None = None.
Proof. induction L as [|[key config] L IH]; [done | exact IH]. Qed.

(** The loop, from any point on: what it has built when it ends, and the
    entry at which [namespaceTopic] throws when it does not end. *)
Lemma migrate_fold knownTopics (L : list (string * option BaseSettings)) :
  forall (P : list (string * option BaseSettings)) u n,
    NoDup ((P ++ L).*1) ->
    (forall k v, u !! k = Some v <->
       (k, v) ∈ P /\ Config.spec_destination ROS FOX knownTopics k = None
       /\ k ≠ "__proto__") ->
    (forall nk c, n !! nk = Some c <->
       exists key schema,
         (key, c) ∈ P /\ Config.spec_destination ROS FOX knownTopics key = Some schema
         /\ namespaceTopic key schema = Some nk) ->
    match fold_left (Config.migrate_entry ROS FOX knownTopics) L (Some (u, n)) with
    | Some (u', n') =>
        (forall k v, u' !! k = Some v <->
           (k, v) ∈ P ++ L /\ Config.spec_destination ROS FOX knownTopics k = None
           /\ k ≠ "__proto__")
        /\ (forall nk c, n' !! nk = Some c <->
              exists key schema,
                (key, c) ∈ P ++ L
                /\ Config.spec_destination ROS FOX knownTopics key = Some schema
                /\ namespaceTopic key schema = Some nk)
        /\ (forall key c schema,
              (key, c) ∈ L ->
              Config.spec_destination ROS FOX knownTopics key = Some schema ->
              is_Some (namespaceTopic key schema))
    | None =>
        exists key c schema,
          (key, c) ∈ L
          /\ Config.spec_destination ROS FOX knownTopics key = Some schema
          /\ namespaceTopic key schema = None
    end.
Proof.
  induction L as [|[key config] L IH]; intros P u n Hnd Hu Hn.
  { simpl. rewrite app_nil_r. split_and!; [done | done |].
    intros ? ? ? Hin. by apply elem_of_nil in Hin. }
  assert (Hfresh : forall v, (key, v) ∉ P).
  { intros v Hin. rewrite fmap_app in Hnd. apply NoDup_app in Hnd as (_ & Hdisj & _).
    apply (Hdisj key).
    - apply list_elem_of_fmap. by exists (key, v).
    - simpl. apply list_elem_of_here. }
  cbn [fold_left]. rewrite migrate_entry_eq.
  replace (P ++ (key, config) :: L) with ((P ++ [(key, config)]) ++ L) in *
    by (by rewrite <- app_assoc).
  destruct (Config.spec_destination ROS FOX knownTopics key) as [schema|] eqn:Hdest.
  - destruct (namespaceTopic key schema) as [nk|] eqn:Hnk; simpl.
    + specialize (IH (P ++ [(key, config)]) u (<[nk := config]> n) Hnd).
      destruct (fold_left _ L _) as [[u' n']|].
      * destruct IH as (Hu' & Hn' & Hok).
        -- intros k v. rewrite Hu, elem_of_app, list_elem_of_singleton. split.
           ++ intros (? & ? & ?). auto.
           ++ intros ([?|[= -> ->]] & Hd & ?); [done | congruence].
        -- intros nk' c. rewrite lookup_insert_Some, Hn. split.
           ++ intros [[<- <-]|[Hne (k & s & Hin & Hd & Hns)]].
              ** exists key, schema. split_and!; [| done | done].
                 apply elem_of_app. right. apply list_elem_of_here.
              ** exists k, s. split_and!; [| done | done]. apply elem_of_app. by left.
           ++ intros (k & s & Hin & Hd & Hns).
              apply elem_of_app in Hin as [Hin|Hin].
              ** right. split; [| by exists k, s].
                 intros <-. destruct (namespaceTopic_inj _ _ _ _ _ Hnk Hns) as [<- _].
                 by apply (Hfresh c).
              ** apply list_elem_of_singleton in Hin as [= -> ->]. left.
                 split; [| done]. congruence.
        -- split_and!; [done | done |]. intros k c s Hin Hd.
           apply elem_of_cons in Hin as [[= -> ->]|Hin]; [| by eapply Hok].
           rewrite Hdest in Hd. injection Hd as <-. by eexists.
      * destruct IH as (k & c & s & Hin & Hd & Hns).
        -- intros k v. rewrite Hu, elem_of_app, list_elem_of_singleton. split.
           ++ intros (? & ? & ?). auto.
           ++ intros ([?|[= -> ->]] & Hd & ?); [done | congruence].
        -- intros nk' c. rewrite lookup_insert_Some, Hn. split.
           ++ intros [[<- <-]|[Hne (k & s & Hin & Hd & Hns)]].
              ** exists key, schema. split_and!; [| done | done].
                 apply elem_of_app. right. apply list_elem_of_here.
              ** exists k, s. split_and!; [| done | done]. apply elem_of_app. by left.
           ++ intros (k & s & Hin & Hd & Hns).
              apply elem_of_app in Hin as [Hin|Hin].
              ** right. split; [| by exists k, s].
                 intros <-. destruct (namespaceTopic_inj _ _ _ _ _ Hnk Hns) as [<- _].
                 by apply (Hfresh c).
              ** apply list_elem_of_singleton in Hin as [= -> ->]. left.
                 split; [| done]. congruence.
        -- exists k, c, s. split_and!; [by apply list_elem_of_further | done | done].
    + rewrite migrate_fold_None. exists key, config, schema.
      split_and!; [apply list_elem_of_here | done | done].
  - specialize (IH (P ++ [(key, config)]) (PlainObject.assign_property key config u) n Hnd).
    assert (Hu1 : forall k v,
      PlainObject.assign_property key config u !! k = Some v <->
      (k, v) ∈ P ++ [(key, config)]
      /\ Config.spec_destination ROS FOX knownTopics k = None /\ k ≠ "__proto__").
    { intros k v. rewrite assign_property_Some, Hu, elem_of_app, list_elem_of_singleton. split.
      - intros [(-> & -> & ?)|[(? & ? & ?) _]]; [split_and!; [by right | done | done] |].
        split_and!; [by left | done | done].
      - intros ([Hin|[= -> ->]] & Hd & Hp); [| by left].
        right. split; [done |]. left. intros ->. by apply (Hfresh v). }
    assert (Hn1 : forall nk c, n !! nk = Some c <->
      exists key0 schema,
        (key0, c) ∈ P ++ [(key, config)]
        /\ Config.spec_destination ROS FOX knownTopics key0 = Some schema
        /\ namespaceTopic key0 schema = Some nk).
    { intros nk c. rewrite Hn. split.
      - intros (k & s & Hin & Hd & Hns). exists k, s. split_and!; [| done | done].
        apply elem_of_app. by left.
      - intros (k & s & Hin & Hd & Hns). exists k, s. split_and!; [| done | done].
        apply elem_of_app in Hin as [Hin|Hin]; [done |].
        apply list_elem_of_singleton in Hin as [= -> ->]. congruence. }
    specialize (IH Hu1 Hn1).
    destruct (fold_left _ L _) as [[u' n']|].
    + destruct IH as (Hu' & Hn' & Hok). split_and!; [done | done |].
      intros k c s Hin Hd. apply elem_of_cons in Hin as [[= -> ->]|Hin]; [congruence |].
      by eapply Hok.
    + destruct IH as (k & c & s & Hin & Hd & Hns).
      exists k, c, s. split_and!; [by apply list_elem_of_further | done | done].
Qed.

Lemma migrate_loop knownTopics (oldConfig : @Config.RendererConfig BaseSettings OtherFields) :
  match fold_left (Config.migrate_entry ROS FOX knownTopics)
          (map_to_list (Config.topics oldConfig)) (Some (∅, ∅)) with
  | Some (u', n') =>
      (forall k v, u' !! k = Some v <->
         Config.topics oldConfig !! k = Some v
         /\ Config.spec_destination ROS FOX knownTopics k = None /\ k ≠ "__proto__")
      /\ (forall nk c, n' !! nk = Some c <->
            exists key schema,
              Config.topics oldConfig !! key = Some c
              /\ Config.spec_destination ROS FOX knownTopics key = Some schema
              /\ namespaceTopic key schema = Some nk)
      /\ (forall key c schema,
            Config.topics oldConfig !! key = Some c ->
            Config.spec_destination ROS FOX knownTopics key = Some schema ->
            is_Some (namespaceTopic key schema))
  | None =>
      exists key c schema,
        Config.topics oldConfig !! key = Some c
        /\ Config.spec_destination ROS FOX knownTopics key = Some schema
        /\ namespaceTopic key schema = None
  end.
Proof.
  pose proof (migrate_fold knownTopics (map_to_list (Config.topics oldConfig)) [] ∅ ∅)
    as Hfold.
  destruct (fold_left _ (map_to_list (Config.topics oldConfig)) _) as [[u' n']|].
  - destruct Hfold as (Hu & Hn & Hok).
    + apply NoDup_fst_map_to_list.
    + intros k v. rewrite lookup_empty. split; [done |].
      intros [Hin _]. by apply elem_of_nil in Hin.
    + intros nk c. rewrite lookup_empty. split; [done |].
      intros (k & sch & Hin & _). by apply elem_of_nil in Hin.
    + split_and!.
      * intros k v. rewrite Hu. simpl. by rewrite elem_of_map_to_list.
      * intros nk c. rewrite Hn. simpl. by setoid_rewrite elem_of_map_to_list.
      * intros key c schema Hc. apply (Hok key c schema). by apply elem_of_map_to_list.
  - destruct Hfold as (k & c & s & Hin & Hd & Hns).
    + apply NoDup_fst_map_to_list.
    + intros k v. rewrite lookup_empty. split; [done |].
      intros [Hin _]. by apply elem_of_nil in Hin.
    + intros nk c. rewrite lookup_empty. split; [done |].
      intros (k & sch & Hin & _). by apply elem_of_nil in Hin.
    + exists k, c, s. split_and!; [by apply elem_of_map_to_list | done | done].
Qed.

End ConfigFacts.

(** C4. The migration of [Samples.proto_config], whose legacy settings are
    those of [topic_a], a known topic with a supported schema, and those of
    a topic named [__proto__], which is not a known topic and has no
    destination.  The settings of [topic_a] are moved.  Those of
    [__proto__], which are to stay in the legacy map, are not in the legacy
    map of the config that is returned: the assignment
    [unmigratedTopics[key] = config] creates no property of that name. *)
Theorem migration_loses_the_entry_named_proto :
  Config.topics Samples.proto_config !! "__proto__" = Some (Some tt)
  /\ find (fun top => bool_decide (name top = "__proto__")) Samples.known_topics = None
  /\ Config.spec_destination ∅ Samples.foxglove_datatypes Samples.known_topics "__proto__"
     = None
  /\ exists newConfig,
       Config.migrateConfigTopicsNodes ∅ Samples.foxglove_datatypes
         Samples.proto_config Samples.known_topics = Some (NewObj newConfig)
       /\ Config.namespacedTopics newConfig !! "topic_a:foxglove.Grid" = Some (Some tt)
       /\ Config.topics newConfig !! "topic_a" = None
       /\ Config.topics newConfig !! "__proto__" = None.
Proof.
  split_and!; [reflexivity | reflexivity | reflexivity |].
  eexists. split; [vm_compute; reflexivity |]. split_and!; reflexivity.
Qed.

(** ** Time and the ordered index *)

Lemma compareTime_eq (a b : Time) : compareTime a b = 0%Z <-> a = b.
Proof.
  destruct a as [s1 n1], b as [s2 n2]. unfold compareTime. simpl.
  destruct (decide ((s1 - s2)%Z ≠ 0%Z)) as [Hne|He].
  - split; [done | intros [= -> ->]; lia].
  - split; [intros Hn; f_equal; lia | intros [= -> ->]; lia].
Qed.

Lemma compareTime_refl (a : Time) : compareTime a a = 0%Z.
Proof. by apply compareTime_eq. Qed.

Lemma compareTime_trans (a b c : Time) :
  (compareTime a b < 0)%Z -> (compareTime b c < 0)%Z -> (compareTime a c < 0)%Z.
Proof.
  destruct a as [s1 n1], b as [s2 n2], c as [s3 n3]. unfold compareTime. simpl.
  repeat case_decide; lia.
Qed.

Lemma compareTime_le_lt_trans (a b c : Time) :
  (compareTime a b <= 0)%Z -> (compareTime b c < 0)%Z -> (compareTime a c < 0)%Z.
Proof.
  destruct a as [s1 n1], b as [s2 n2], c as [s3 n3]. unfold compareTime. simpl.
  repeat case_decide; lia.
Qed.

Lemma compareTime_asym (a b : Time) :
  (compareTime a b < 0)%Z -> ~ (compareTime b a <= 0)%Z.
Proof.
  destruct a as [s1 n1], b as [s2 n2]. unfold compareTime. simpl.
  repeat case_decide; lia.
Qed.

Lemma compareTime_antisym (a b : Time) :
  (compareTime a b <= 0)%Z -> (compareTime b a <= 0)%Z -> a = b.
Proof.
  destruct a as [s1 n1], b as [s2 n2]. unfold compareTime. simpl.
  repeat case_decide; intros; f_equal; lia.
Qed.

Lemma compareTime_total (a b : Time) :
  (compareTime a b < 0)%Z \/ a = b \/ (compareTime b a < 0)%Z.
Proof.
  destruct (Z.lt_trichotomy (compareTime a b) 0) as [?|[He|Hgt]]; [by left | |].
  - right. left. by apply compareTime_eq.
  - right. right. destruct a as [s1 n1], b as [s2 n2]. unfold compareTime in *. simpl in *.
    repeat case_decide; lia.
Qed.

Lemma isLessThan_spec (a b : Time) : isLessThan a b = true <-> (compareTime a b < 0)%Z.
Proof. unfold isLessThan. apply bool_decide_eq_true. Qed.

(** An integer of at most 53 bits is a number as it is. *)
Lemma Number_of_BigInt_exact (z : Z) :
  (Z.abs z < 2 ^ 53)%Z -> Number_of_BigInt z = z.
Proof.
  intros Hz. unfold Number_of_BigInt. rewrite decide_True; [done |].
  destruct (decide (Z.abs z = 0%Z)) as [->|Hne]; [done |].
  assert (Z.log2 (Z.abs z) < 53)%Z; [| lia].
  apply Z.log2_lt_pow2; lia.
Qed.

(** A stamp in the usual form, with seconds below 2^53, goes through
    [toNanoSec] and [fromNanoSec] unchanged. *)
Lemma fromNanoSec_toNanoSec (t : Time) :
  (0 <= sec t < 2 ^ 53)%Z -> (0 <= nsec t < 1000000000)%Z ->
  fromNanoSec (toNanoSec t) = t.
Proof.
  destruct t as [s n]. simpl. intros Hs Hn. unfold fromNanoSec, toNanoSec. simpl.
  assert (Hq : Z.quot (s * 1000000000 + n) 1000000000 = s).
  { rewrite Z.quot_div_nonneg by lia. rewrite Z.div_add_l by lia.
    rewrite Z.div_small by lia. lia. }
  assert (Hr : Z.rem (s * 1000000000 + n) 1000000000 = n).
  { rewrite Z.rem_mod_nonneg by lia.
    rewrite Z.add_comm, Z.mod_add by lia. by apply Z.mod_small. }
  rewrite Hq, Hr. rewrite !Number_of_BigInt_exact; [done | lia | lia].
Qed.

Section AVLTreeFacts.
Context {V : Type}.
Implicit Types (tree : list (Time * V)) (k : Time) (v : V).

Lemma sorted_cons_inv k v tree :
  AVLTree.sorted ((k, v) :: tree) ->
  AVLTree.sorted tree /\ forall k' v', (k', v') ∈ tree -> (compareTime k k' < 0)%Z.
Proof.
  unfold AVLTree.sorted. intros H. apply StronglySorted_inv in H as [Hs Hall].
  split; [done |]. intros k' v' Hin. rewrite Forall_forall in Hall.
  by apply (Hall (k', v')).
Qed.

Lemma sorted_cons k v tree :
  AVLTree.sorted tree ->
  (forall k' v', (k', v') ∈ tree -> (compareTime k k' < 0)%Z) ->
  AVLTree.sorted ((k, v) :: tree).
Proof.
  unfold AVLTree.sorted. intros Hs Hall. constructor; [done |].
  apply Forall_forall. intros [k' v'] Hin. by apply (Hall k' v').
Qed.

Lemma get_elem tree k v : AVLTree.get k tree = Some v -> (k, v) ∈ tree.
Proof.
  induction tree as [|[k' v'] tree IH]; simpl; [done |].
  destruct (decide (compareTime k k' = 0%Z)) as [He|Hne].
  - apply compareTime_eq in He as ->. intros [= ->]. apply list_elem_of_here.
  - intros H. by apply list_elem_of_further, IH.
Qed.

Lemma elem_get tree k v : AVLTree.sorted tree -> (k, v) ∈ tree -> AVLTree.get k tree = Some v.
Proof.
  induction tree as [|[k' v'] tree IH]; intros Hs Hin; [by apply elem_of_nil in Hin |].
  apply sorted_cons_inv in Hs as [Hs Hall]. simpl.
  apply elem_of_cons in Hin as [[= -> ->]|Hin].
  - by rewrite decide_True by apply compareTime_refl.
  - rewrite decide_False; [by apply IH |].
    intros He. apply compareTime_eq in He as ->.
    specialize (Hall _ _ Hin). rewrite compareTime_refl in Hall. lia.
Qed.

Lemma set_elem_of tree k v k0 v0 :
  (k0, v0) ∈ AVLTree.set k v tree -> (k0 = k /\ v0 = v) \/ (k0, v0) ∈ tree.
Proof.
  induction tree as [|[k' v'] tree IH]; simpl.
  - intros H. apply list_elem_of_singleton in H as [= -> ->]. by left.
  - destruct (decide (compareTime k k' = 0%Z)) as [He|Hne].
    + apply compareTime_eq in He as <-. rewrite !elem_of_cons.
      intros [[= -> ->]|H]; [by left | right; by right].
    + destruct (decide (compareTime k k' < 0)%Z); rewrite !elem_of_cons.
      * intros [[= -> ->]|H]; [by left | by right].
      * intros [[= -> ->]|H]; [right; by left |].
        destruct (IH H) as [?|?]; [by left | right; by right].
Qed.

Lemma set_sorted tree k v : AVLTree.sorted tree -> AVLTree.sorted (AVLTree.set k v tree).
Proof.
  induction tree as [|[k' v'] tree IH]; intros Hs; simpl.
  - apply sorted_cons; [done |]. intros ? ? H. by apply elem_of_nil in H.
  - pose proof Hs as Hs0. apply sorted_cons_inv in Hs as [Hs Hall].
    destruct (decide (compareTime k k' = 0%Z)) as [He|Hne].
    + by apply sorted_cons.
    + destruct (decide (compareTime k k' < 0)%Z) as [Hlt|Hge].
      * apply sorted_cons; [done |]. intros k0 v0 Hin.
        apply elem_of_cons in Hin as [[= -> ->]|Hin]; [done |].
        eapply compareTime_trans; [done | by eapply Hall].
      * apply sorted_cons; [by apply IH |]. intros k0 v0 Hin.
        apply set_elem_of in Hin as [[-> ->]|Hin]; [| by eapply Hall].
        destruct (compareTime_total k' k) as [?|[->|?]]; [done | | lia].
        by rewrite compareTime_refl in Hne.
Qed.

Lemma get_set tree k v k0 :
  AVLTree.sorted tree ->
  AVLTree.get k0 (AVLTree.set k v tree) = if decide (k0 = k) then Some v else AVLTree.get k0 tree.
Proof.
  assert (Hdec : forall a b : Time, forall (x y : option V),
    (if decide (compareTime a b = 0%Z) then x else y) = if decide (a = b) then x else y).
  { intros a b x y. destruct (decide (a = b)) as [->|Hne].
    - by rewrite decide_True by apply compareTime_refl.
    - rewrite decide_False; [done |]. by rewrite compareTime_eq. }
  induction tree as [|[k' v'] tree IH]; intros Hs; simpl.
  - by rewrite Hdec.
  - apply sorted_cons_inv in Hs as [Hs Hall].
    destruct (decide (compareTime k k' = 0%Z)) as [He|Hne]; simpl.
    + apply compareTime_eq in He as <-. rewrite !Hdec. by destruct (decide (k0 = k)).
    + destruct (decide (compareTime k k' < 0)%Z) as [Hlt|Hge]; simpl.
      * by rewrite !Hdec.
      * rewrite !Hdec, IH by done.
        destruct (decide (k0 = k')) as [->|Hne0]; [| done].
        rewrite decide_False; [done |]. intros <-. by rewrite compareTime_refl in Hne.
Qed.
End AVLTreeFacts.

(** ** The synchronized message handler *)

Section HandlerFacts.
Context {AnyImage CameraInfo AnnotationBody AnnotationMessage : Type}.
Context (getTimestampFromImage : AnyImage -> Time).
Context (normalizeAnnotations :
           AnnotationMessage -> string -> list (@Handler.Annotation AnnotationBody)).

Implicit Types
  (tree : list (Time * @Handler.SynchronizationItem AnyImage AnnotationBody AnnotationMessage))
  (item : @Handler.SynchronizationItem AnyImage AnnotationBody AnnotationMessage)
  (visible : gset string)
  (h : @Handler.MessageHandler AnyImage CameraInfo AnnotationBody AnnotationMessage).

(** *** Finding the synchronized set *)

Lemma hasOnlyVisibleAnnotations_spec visible item :
  Handler.hasOnlyVisibleAnnotations visible item = true
  <-> dom (Handler.item_annotationsByNamespacedTopic item) = visible.
Proof.
  unfold Handler.hasOnlyVisibleAnnotations.
  rewrite andb_true_iff, bool_decide_eq_true, forallb_forall. split.
  - intros [Hsize Hall]. symmetry. apply set_subseteq_size_eq.
    + intros topic Hin. apply elem_of_dom.
      specialize (Hall topic). rewrite bool_decide_eq_true in Hall.
      apply Hall. by apply list_elem_of_In, elem_of_elements.
    + rewrite size_dom. lia.
  - intros <-. split; [by rewrite size_dom |].
    intros topic Hin. apply bool_decide_eq_true, elem_of_dom.
    by apply elem_of_elements, list_elem_of_In.
Qed.

Lemma qualifies_spec visible item :
  bool_decide (is_Some (Handler.item_image item))
  && Handler.hasOnlyVisibleAnnotations visible item = true
  <-> Handler.is_synchronized visible item.
Proof.
  unfold Handler.is_synchronized.
  by rewrite andb_true_iff, bool_decide_eq_true, hasOnlyVisibleAnnotations_spec.
Qed.

(** The scan keeps the last entry that qualifies. *)
Lemma scan_spec visible tree :
  AVLTree.sorted tree ->
  match
    fold_left
      (fun validEntry
           (entry : Time * @Handler.SynchronizationItem AnyImage AnnotationBody AnnotationMessage) =>
         if bool_decide (is_Some (Handler.item_image entry.2))
            && Handler.hasOnlyVisibleAnnotations visible entry.2
         then Some entry else validEntry)
      tree None
  with
  | Some entry =>
      entry ∈ tree /\ Handler.is_synchronized visible entry.2
      /\ forall k v, (k, v) ∈ tree -> Handler.is_synchronized visible v ->
                     (compareTime k entry.1 <= 0)%Z
  | None => forall k v, (k, v) ∈ tree -> ~ Handler.is_synchronized visible v
  end.
Proof.
  induction tree as [|[k0 v0] tree IH] using rev_ind; intros Hs.
  - simpl. intros k v Hin. by apply elem_of_nil in Hin.
  - rewrite fold_left_app. simpl.
    unfold AVLTree.sorted in Hs. apply StronglySorted_app in Hs as (Hlt & Hs1 & _).
    specialize (IH Hs1).
    destruct (bool_decide (is_Some (Handler.item_image v0))
              && Handler.hasOnlyVisibleAnnotations visible v0) eqn:Hq.
    + apply qualifies_spec in Hq. split_and!.
      * apply elem_of_app. right. apply list_elem_of_here.
      * done.
      * intros k v Hin _. apply elem_of_app in Hin as [Hin|Hin].
        -- specialize (Hlt (k, v) (k0, v0) Hin). simpl in Hlt.
           assert (compareTime k k0 < 0)%Z by (apply Hlt, list_elem_of_here). simpl. lia.
        -- apply list_elem_of_singleton in Hin as [= -> ->]. simpl.
           rewrite compareTime_refl. lia.
    + assert (Hnq : ~ Handler.is_synchronized visible v0).
      { intros Hq'. apply qualifies_spec in Hq'. congruence. }
      destruct (fold_left _ tree None) as [entry|].
      * destruct IH as (Hin & Hsync & Hmax). split_and!.
        -- apply elem_of_app. by left.
        -- done.
        -- intros k v Hin' Hq'. apply elem_of_app in Hin' as [Hin'|Hin'].
           ++ by eapply Hmax.
           ++ apply list_elem_of_singleton in Hin' as [= -> ->]. done.
      * intros k v Hin. apply elem_of_app in Hin as [Hin|Hin]; [by eapply IH |].
        apply list_elem_of_singleton in Hin as [= -> ->]. done.
Qed.

(** The loop unfolds as [minKey]/[shift] in the source. *)
Lemma removeOlderItems_unfold tree key :
  Handler.removeOlderItems tree key =
  match AVLTree.minKey tree with
  | Some minKey =>
      if isLessThan minKey key then Handler.removeOlderItems (AVLTree.shift tree) key else tree
  | None => tree
  end.
Proof. by destruct tree as [|[k v] tree]. Qed.

Lemma removeOlderItems_spec tree key :
  AVLTree.sorted tree ->
  AVLTree.sorted (Handler.removeOlderItems tree key)
  /\ forall k v, (k, v) ∈ Handler.removeOlderItems tree key
                 <-> (k, v) ∈ tree /\ ~ (compareTime k key < 0)%Z.
Proof.
  induction tree as [|[k0 v0] tree IH]; intros Hs.
  - split; [done |]. intros k v. simpl. split; [intros H; by apply elem_of_nil in H | tauto].
  - pose proof Hs as Hs0. apply sorted_cons_inv in Hs as [Hs Hall]. simpl.
    destruct (isLessThan k0 key) eqn:Hlt.
    + apply isLessThan_spec in Hlt. destruct (IH Hs) as [Hs' Hiff].
      split; [done |]. intros k v. rewrite Hiff, elem_of_cons. split; [tauto |].
      intros [[[= -> ->]|Hin] Hge]; [done | done].
    + assert (Hge : ~ (compareTime k0 key < 0)%Z).
      { intros H. apply isLessThan_spec in H. congruence. }
      split; [done |]. intros k v. split; [| tauto].
      intros Hin. split; [done |].
      apply elem_of_cons in Hin as [[= -> ->]|Hin]; [done |].
      intros Hlt'. apply Hge. eapply compareTime_trans; [| done]. by eapply Hall.
Qed.

Lemma sorted_key_unique tree k v v' :
  AVLTree.sorted tree -> (k, v) ∈ tree -> (k, v') ∈ tree -> v = v'.
Proof.
  intros Hs H1 H2. apply (elem_get _ _ _ Hs) in H1. apply (elem_get _ _ _ Hs) in H2. congruence.
Qed.

Lemma find_spec visible tree :
  AVLTree.sorted tree ->
  match Handler.findSynchronizedSetAndRemoveOlderItems tree visible with
  | (Some entry, tree') =>
      entry ∈ tree /\ Handler.is_synchronized visible entry.2
      /\ (forall k v, (k, v) ∈ tree -> Handler.is_synchronized visible v ->
                      (compareTime k entry.1 <= 0)%Z)
      /\ AVLTree.sorted tree'
      /\ (forall k v, (k, v) ∈ tree' <-> (k, v) ∈ tree /\ ~ (compareTime k entry.1 < 0)%Z)
  | (None, tree') =>
      tree' = tree /\ forall k v, (k, v) ∈ tree -> ~ Handler.is_synchronized visible v
  end.
Proof.
  intros Hs. unfold Handler.findSynchronizedSetAndRemoveOlderItems.
  pose proof (scan_spec visible tree Hs) as Hscan.
  destruct (fold_left _ tree None) as [entry|]; [| done].
  destruct Hscan as (Hin & Hq & Hmax).
  destruct (removeOlderItems_spec tree entry.1 Hs) as [Hs' Hiff]. done.
Qed.

Lemma set_tree_same h : Handler.set_tree (Handler.tree h) h = h.
Proof. by destruct h. Qed.

(** Detaching the previous state touches nothing but [oldShares]. *)
Lemma detach_frame h :
  Handler.config (Handler.detach h) = Handler.config h
  /\ Handler.lastReceivedMessages (Handler.detach h) = Handler.lastReceivedMessages h
  /\ Handler.oldRenderState (Handler.detach h) = Handler.oldRenderState h
  /\ Handler.tree (Handler.detach h) = Handler.tree h
  /\ Handler.emitted (Handler.detach h) = Handler.emitted h.
Proof.
  unfold Handler.detach. destruct (Handler.oldShares h); try done.
  by destruct (AVLTree.get _ _).
Qed.

Lemma through_old_frame target f h :
  Handler.config (Handler.through_old target f h) = Handler.config h
  /\ Handler.lastReceivedMessages (Handler.through_old target f h)
     = Handler.lastReceivedMessages h
  /\ Handler.tree (Handler.through_old target f h) = Handler.tree h
  /\ Handler.emitted (Handler.through_old target f h) = Handler.emitted h
  /\ Handler.oldShares (Handler.through_old target f h) = Handler.oldShares h.
Proof. unfold Handler.through_old. by destruct (decide _). Qed.

(** C1. In synchronized mode, [getRenderState] returns the image and the
    annotations of the newest index entry that has an image and whose
    annotation topics are exactly the visible ones, with the stored
    calibration; the index then holds exactly its former entries that are
    not strictly older than that entry.  Such a newest entry exists as soon
    as some entry qualifies.  When none qualifies the state carries the
    calibration alone and the handler is unchanged. *)
Theorem getRenderState_returns_newest_synchronized_set h :
  Handler.synchronize (Handler.config h) = Some true ->
  AVLTree.sorted (Handler.tree h) ->
  let visible := Handler.visibleAnnotations h in
  let state := (Handler.getRenderState h).1 in
  let h' := (Handler.getRenderState h).2 in
  (forall t item,
     (t, item) ∈ Handler.tree h ->
     Handler.is_synchronized visible item ->
     (forall t' item', (t', item') ∈ Handler.tree h ->
                       Handler.is_synchronized visible item' ->
                       (compareTime t' t <= 0)%Z) ->
     state =
       {| Handler.rs_image := Handler.item_image item;
          Handler.rs_cameraInfo := Handler.cameraInfo (Handler.lastReceivedMessages h);
          Handler.rs_annotationsByNamespacedTopic :=
            Some (Handler.item_annotationsByNamespacedTopic item) |}
     /\ forall k v, (k, v) ∈ Handler.tree h'
                    <-> (k, v) ∈ Handler.tree h /\ ~ (compareTime k t < 0)%Z)
  /\ ((exists t item, (t, item) ∈ Handler.tree h /\ Handler.is_synchronized visible item) ->
      exists t item,
        (t, item) ∈ Handler.tree h /\ Handler.is_synchronized visible item
        /\ forall t' item', (t', item') ∈ Handler.tree h ->
                            Handler.is_synchronized visible item' ->
                            (compareTime t' t <= 0)%Z)
  /\ ((forall t item, (t, item) ∈ Handler.tree h -> ~ Handler.is_synchronized visible item) ->
      state =
        {| Handler.rs_image := None;
           Handler.rs_cameraInfo := Handler.cameraInfo (Handler.lastReceivedMessages h);
           Handler.rs_annotationsByNamespacedTopic := None |}
      /\ h' = h)
  /\ AVLTree.sorted (Handler.tree h')
  /\ Handler.config h' = Handler.config h
  /\ Handler.lastReceivedMessages h' = Handler.lastReceivedMessages h
  /\ Handler.oldRenderState h' = Handler.oldRenderState h
  /\ Handler.emitted h' = Handler.emitted h.
Proof.
  intros Hsync Hs visible state h'. subst state h'.
  unfold Handler.getRenderState. rewrite decide_True by done. fold visible.
  pose proof (find_spec visible (Handler.tree h) Hs) as Hfind.
  destruct (Handler.findSynchronizedSetAndRemoveOlderItems (Handler.tree h) visible)
    as [[[t0 item0]|] tree'].
  - destruct Hfind as (Hin0 & Hq0 & Hmax0 & Hs' & Hiff). cbn [fst snd].
    destruct (detach_frame (Handler.set_tree tree' h)) as (-> & -> & -> & -> & ->).
    simpl in *. split_and!; try done.
    + intros t item Hin Hq Hmax.
      assert (t = t0) as ->.
      { apply compareTime_antisym;
          [apply (Hmax0 t item Hin Hq) | apply (Hmax t0 item0 Hin0 Hq0)]. }
      assert (item = item0) as ->
        by apply (sorted_key_unique (Handler.tree h) t0 item item0 Hs Hin Hin0).
      done.
    + intros _. exists t0, item0. done.
    + intros Hnone. by destruct (Hnone t0 item0).
  - destruct Hfind as [-> Hnone]. simpl. rewrite set_tree_same.
    split_and!; try done.
    + intros t item Hin Hq. by destruct (Hnone t item).
    + intros (t & item & Hin & Hq). by destruct (Hnone t item).
Qed.

(** *** Emitting *)

Lemma removeOlderItems_subset tree key k v :
  (k, v) ∈ Handler.removeOlderItems tree key -> (k, v) ∈ tree.
Proof.
  induction tree as [|[k0 v0] tree IH]; simpl; [done |].
  destruct (isLessThan k0 key); [| done].
  intros H. by apply list_elem_of_further, IH.
Qed.

Lemma getRenderState_frame h :
  Handler.config (Handler.getRenderState h).2 = Handler.config h
  /\ Handler.lastReceivedMessages (Handler.getRenderState h).2 = Handler.lastReceivedMessages h
  /\ Handler.oldRenderState (Handler.getRenderState h).2 = Handler.oldRenderState h
  /\ Handler.emitted (Handler.getRenderState h).2 = Handler.emitted h
  /\ forall k v, (k, v) ∈ Handler.tree (Handler.getRenderState h).2 -> (k, v) ∈ Handler.tree h.
Proof.
  unfold Handler.getRenderState.
  destruct (decide (Handler.synchronize (Handler.config h) = Some true)); [| done].
  unfold Handler.findSynchronizedSetAndRemoveOlderItems.
  destruct (fold_left _ (Handler.tree h) None) as [entry|]; cbn [fst snd]; [| done].
  match goal with |- context [Handler.detach ?x] =>
    destruct (detach_frame x) as (-> & -> & -> & -> & ->)
  end.
  simpl. split_and!; try done. intros k v. apply removeOlderItems_subset.
Qed.

Lemma emitState_frame h :
  Handler.config (Handler.emitState h) = Handler.config h
  /\ Handler.lastReceivedMessages (Handler.emitState h) = Handler.lastReceivedMessages h
  /\ Handler.oldRenderState (Handler.emitState h) = Some (Handler.getRenderState h).1
  /\ Handler.emitted (Handler.emitState h)
     = Handler.emitted h ++ [((Handler.getRenderState h).1, Handler.oldRenderState h)]
  /\ forall k v, (k, v) ∈ Handler.tree (Handler.emitState h) -> (k, v) ∈ Handler.tree h.
Proof.
  unfold Handler.emitState.
  destruct (getRenderState_frame h) as (Hc & Hl & Ho & He & Ht).
  destruct (Handler.getRenderState h) as [state h1]. simpl in *.
  by rewrite Hc, Hl, Ho, He.
Qed.

(** *** Grouping and storing annotations *)

Lemma group_annotations_snoc (anns : list (@Handler.Annotation AnnotationBody)) a :
  Handler.group_annotations (anns ++ [a]) =
  let key := toNanoSec (Handler.stamp a) in
  match JsMap.get key (Handler.group_annotations anns) with
  | Some arr => JsMap.set key (arr ++ [a]) (Handler.group_annotations anns)
  | None => JsMap.set key [a] (Handler.group_annotations anns)
  end.
Proof. unfold Handler.group_annotations. by rewrite fold_left_app. Qed.

Lemma group_annotations_wf (anns : list (@Handler.Annotation AnnotationBody)) :
  JsMap.wf (Handler.group_annotations anns).
Proof.
  induction anns as [|a anns IH] using rev_ind; [apply NoDup_nil_2 |].
  rewrite group_annotations_snoc. simpl.
  destruct (JsMap.get _ _); by apply set_wf.
Qed.

Lemma entry_of_Some {A : Type} (l arr : list A) : entry_of l = Some arr -> arr = l /\ l ≠ [].
Proof. destruct l; [done |]. by intros [= <-]. Qed.

Lemma entry_of_None {A : Type} (l : list A) : entry_of l = None -> l = [].
Proof. by destruct l. Qed.

Lemma group_annotations_get (anns : list (@Handler.Annotation AnnotationBody)) z :
  JsMap.get z (Handler.group_annotations anns) =
  entry_of (filter (fun a => toNanoSec (Handler.stamp a) = z) anns).
Proof.
  induction anns as [|a anns IH] using rev_ind; [done |].
  rewrite group_annotations_snoc, filter_app. simpl.
  destruct (decide (z = toNanoSec (Handler.stamp a))) as [->|Hne].
  - rewrite filter_cons_True, filter_nil by done.
    destruct (JsMap.get _ (Handler.group_annotations anns)) as [arr|] eqn:Hget;
      rewrite get_set_eq.
    + symmetry in IH. apply entry_of_Some in IH as [-> Hne].
      by destruct (filter _ anns).
    + symmetry in IH. apply entry_of_None in IH. by rewrite IH.
  - rewrite filter_cons_False, filter_nil, app_nil_r by congruence.
    destruct (JsMap.get (toNanoSec (Handler.stamp a)) _); by rewrite get_set_ne.
Qed.

Lemma store_group_get nt (ev : @MessageEvent AnnotationMessage) tree z
    (g : list (@Handler.Annotation AnnotationBody)) k :
  AVLTree.sorted tree ->
  AVLTree.sorted (Handler.store_group nt ev tree (z, g))
  /\ AVLTree.get k (Handler.store_group nt ev tree (z, g)) =
     if decide (k = fromNanoSec z) then
       Some {| Handler.item_image := AVLTree.get k tree ≫= Handler.item_image;
               Handler.item_annotationsByNamespacedTopic :=
                 <[nt := {| Handler.originalMessage := ev; Handler.annotations := g |}]>
                   (default ∅ (Handler.item_annotationsByNamespacedTopic <$> AVLTree.get k tree)) |}
     else AVLTree.get k tree.
Proof.
  intros Hs. unfold Handler.store_group. split; [by apply set_sorted |].
  rewrite get_set by done.
  destruct (decide (k = fromNanoSec z)) as [->|]; [| done].
  by destruct (AVLTree.get (fromNanoSec z) tree).
Qed.

Lemma last_filter_snoc {A : Type} (P : A -> Prop) `{!forall x, Decision (P x)} (l : list A) x :
  last (filter P (l ++ [x])) = if decide (P x) then Some x else last (filter P l).
Proof.
  rewrite filter_app, filter_cons, filter_nil.
  destruct (decide (P x)); [by rewrite last_snoc | by rewrite app_nil_r].
Qed.

Lemma last_filter_Some {A : Type} (P : A -> Prop) `{!forall x, Decision (P x)} (l : list A) x :
  last (filter P l) = Some x -> x ∈ l /\ P x.
Proof.
  intros Hlast. apply last_Some_elem_of in Hlast.
  by apply list_elem_of_filter in Hlast as [? ?].
Qed.

Lemma filter_ext_in {A : Type} (P Q : A -> Prop)
    `{!forall x, Decision (P x)} `{!forall x, Decision (Q x)} (l : list A) :
  (forall x, x ∈ l -> P x <-> Q x) -> filter P l = filter Q l.
Proof.
  induction l as [|x l IH]; intros Hiff; [done |].
  rewrite !filter_cons.
  assert (Hx : P x <-> Q x) by apply Hiff, list_elem_of_here.
  rewrite IH by (intros y Hy; by apply Hiff, list_elem_of_further).
  destruct (decide (P x)), (decide (Q x)); tauto || done.
Qed.

Lemma last_filter_None {A : Type} (P : A -> Prop) `{!forall x, Decision (P x)} (l : list A) :
  last (filter P l) = None <-> forall x, x ∈ l -> ~ P x.
Proof.
  rewrite last_None. split.
  - intros Hnil x Hin HP.
    assert (x ∈ filter P l) as Hx by (by apply list_elem_of_filter).
    rewrite Hnil in Hx. by apply elem_of_nil in Hx.
  - intros Hall. destruct (filter P l) as [|x l'] eqn:Hf; [done |].
    assert (x ∈ filter P l) as Hx by (rewrite Hf; apply list_elem_of_here).
    apply list_elem_of_filter in Hx as [HP Hin]. by destruct (Hall x Hin).
Qed.

(** The loop over the groups, stamp by stamp: the entry at a stamp holds
    the batch of the last group that lands on it, and is as before when none
    does.  Two groups land on one stamp when [fromNanoSec] rounds their keys
    to the same [Time]. *)
Lemma store_groups_spec nt (ev : @MessageEvent AnnotationMessage)
    (G : list (Z * list (@Handler.Annotation AnnotationBody))) tree :
  AVLTree.sorted tree ->
  let tree1 := fold_left (Handler.store_group nt ev) G tree in
  AVLTree.sorted tree1
  /\ forall t,
       AVLTree.get t tree1 =
       match last (filter (fun zg => fromNanoSec zg.1 = t) G) with
       | Some zg =>
           Some {| Handler.item_image := AVLTree.get t tree ≫= Handler.item_image;
                   Handler.item_annotationsByNamespacedTopic :=
                     <[nt := {| Handler.originalMessage := ev; Handler.annotations := zg.2 |}]>
                       (default ∅ (Handler.item_annotationsByNamespacedTopic
                                     <$> AVLTree.get t tree)) |}
       | None => AVLTree.get t tree
       end.
Proof.
  intros Hs. induction G as [|[z g] G IH] using rev_ind; [done |].
  simpl. rewrite fold_left_app. cbn [fold_left].
  destruct IH as [Hs1 Hget].
  split; [by apply (store_group_get nt ev _ z g (fromNanoSec z)) |].
  intros t. rewrite (proj2 (store_group_get nt ev _ z g t Hs1)), last_filter_snoc.
  cbn [fst snd].
  destruct (decide (t = fromNanoSec z)) as [->|Hne].
  - rewrite decide_True by done. rewrite Hget.
    destruct (last (filter _ G)) as [[z' g']|]; [| done].
    simpl. by rewrite insert_insert_eq.
  - rewrite decide_False by done. apply Hget.
Qed.

(** The same loop on the handler: the index as above, and the previous
    state shows the batch set in the [Map] it shares. *)
Lemma handleAnnotations_store_eq h nt (ev : @MessageEvent AnnotationMessage)
    (anns : list (@Handler.Annotation AnnotationBody)) :
  Handler.handleAnnotations_store h nt ev anns =
  {| Handler.config := Handler.config h;
     Handler.oldRenderState :=
       match Handler.oldShares h with
       | Handler.SharesEntry t =>
           match last (filter (fun zg => fromNanoSec zg.1 = t)
                         (Handler.group_annotations anns)) with
           | Some zg =>
               Handler.with_batches
                 (insert nt {| Handler.originalMessage := ev; Handler.annotations := zg.2 |})
               <$> Handler.oldRenderState h
           | None => Handler.oldRenderState h
           end
       | _ => Handler.oldRenderState h
       end;
     Handler.oldShares := Handler.oldShares h;
     Handler.lastReceivedMessages := Handler.lastReceivedMessages h;
     Handler.tree :=
       fold_left (Handler.store_group nt ev) (Handler.group_annotations anns) (Handler.tree h);
     Handler.emitted := Handler.emitted h |}.
Proof.
  unfold Handler.handleAnnotations_store.
  generalize (Handler.group_annotations anns). intros G.
  induction G as [|[z g] G IH] using rev_ind.
  { destruct h as [c old shares last tree emitted]. simpl. by destruct shares. }
  rewrite !fold_left_app. cbn [fold_left]. rewrite IH. clear IH.
  unfold Handler.through_old, Handler.set_tree, Handler.set_old. cbn [fst snd
    Handler.config Handler.oldRenderState Handler.oldShares Handler.lastReceivedMessages
    Handler.tree Handler.emitted].
  destruct (Handler.oldShares h) as [| |t0] eqn:Hshares.
  - rewrite decide_False by done. done.
  - rewrite decide_False by done. done.
  - rewrite last_filter_snoc. cbn [fst snd].
    destruct (decide (fromNanoSec z = t0)) as [->|Hne].
    + rewrite decide_True by done. f_equal.
      destruct (last (filter _ G)) as [[z' g']|]; [| done].
      destruct (Handler.oldRenderState h) as [[img cam [batches|]]|]; simpl; [| done | done].
      unfold Handler.with_batches. simpl. by rewrite insert_insert_eq.
    + rewrite decide_False by congruence. done.
Qed.

(** The groups and the annotations that land on a stamp. *)
Lemma groups_landing (anns : list (@Handler.Annotation AnnotationBody)) (t : Time) :
  match last (filter (fun zg => fromNanoSec zg.1 = t) (Handler.group_annotations anns)) with
  | Some zg =>
      fromNanoSec zg.1 = t
      /\ zg.2 = filter (fun a => toNanoSec (Handler.stamp a) = zg.1) anns
      /\ zg.2 ≠ []
  | None => forall a, a ∈ anns -> fromNanoSec (toNanoSec (Handler.stamp a)) ≠ t
  end.
Proof.
  destruct (last (filter _ (Handler.group_annotations anns))) as [[z g]|] eqn:Hlast.
  - apply last_filter_Some in Hlast as [Hin Hz]. simpl in *. split; [done |].
    apply (elem_get_wf _ _ _ (group_annotations_wf anns)) in Hin.
    rewrite group_annotations_get in Hin. by apply entry_of_Some in Hin as [-> ?].
  - intros a Ha Hland.
    assert (Hnone := proj1 (last_filter_None _ _) Hlast).
    apply (Hnone (toNanoSec (Handler.stamp a),
                  filter (fun b => toNanoSec (Handler.stamp b) = toNanoSec (Handler.stamp a))
                    anns)); [| done].
    apply get_Some_elem. rewrite group_annotations_get.
    destruct (filter _ anns) as [|b l] eqn:Hf; [| done].
    assert (a ∈ filter (fun b => toNanoSec (Handler.stamp b) = toNanoSec (Handler.stamp a))
                  anns) as Hin by (by apply list_elem_of_filter).
    rewrite Hf in Hin. by apply elem_of_nil in Hin.
Qed.

(** The group that the loop leaves on a stamp: the annotations of the last
    group, in the order of the groups, that lands there. *)
Lemma landing_group (anns : list (@Handler.Annotation AnnotationBody)) (t : Time) :
  match last (filter (fun zg => fromNanoSec zg.1 = t) (Handler.group_annotations anns)) with
  | Some zg =>
      zg.2 ≠ []
      /\ (forall a, a ∈ zg.2 -> a ∈ anns /\ Handler.landing a = t)
      /\ ((forall a b, a ∈ anns -> b ∈ anns -> Handler.landing a = t -> Handler.landing b = t ->
                       toNanoSec (Handler.stamp a) = toNanoSec (Handler.stamp b)) ->
          zg.2 = filter (fun a => Handler.landing a = t) anns)
  | None => forall a, a ∈ anns -> Handler.landing a ≠ t
  end.
Proof.
  pose proof (groups_landing anns t) as Hland.
  destruct (last (filter _ (Handler.group_annotations anns))) as [[z g]|]; simpl in *;
    [| exact Hland].
  destruct Hland as (Hz & Hg & Hne). split_and!; [done | |].
  - intros a Ha. rewrite Hg in Ha. apply list_elem_of_filter in Ha as [Ha1 Ha2].
    split; [done |]. unfold Handler.landing. by rewrite Ha1.
  - intros Hsame. rewrite Hg. apply filter_ext_in. intros a Hin. unfold Handler.landing.
    split; [intros ->; done |]. intros Ha.
    destruct g as [|b g']; [done |].
    assert (Hb : b ∈ filter (fun a => toNanoSec (Handler.stamp a) = z) anns)
      by (rewrite <- Hg; apply list_elem_of_here).
    apply list_elem_of_filter in Hb as [Hb1 Hb2].
    rewrite <- Hb1. apply Hsame; [done | done | done |].
    unfold Handler.landing. by rewrite Hb1.
Qed.

(** The previous render state after the loop: it reads the batch that the
    loop has set in the [Map] it shares. *)
Lemma previous_state_after_store h nt (ev : @MessageEvent AnnotationMessage)
    (anns : list (@Handler.Annotation AnnotationBody)) :
  let h1 := Handler.handleAnnotations_store h nt ev anns in
  Handler.oldShares h1 = Handler.oldShares h
  /\ ((forall t, Handler.oldShares h = Handler.SharesEntry t ->
                 forall a, a ∈ anns -> Handler.landing a ≠ t) ->
      Handler.oldRenderState h1 = Handler.oldRenderState h)
  /\ (forall t,
        Handler.oldShares h = Handler.SharesEntry t ->
        (exists a, a ∈ anns /\ Handler.landing a = t) ->
        exists group,
          Handler.oldRenderState h1
          = Handler.with_batches
              (insert nt {| Handler.originalMessage := ev; Handler.annotations := group |})
            <$> Handler.oldRenderState h
          /\ (AVLTree.sorted (Handler.tree h) ->
              exists item1,
                AVLTree.get t (Handler.tree h1) = Some item1
                /\ Handler.item_annotationsByNamespacedTopic item1 !! nt
                   = Some {| Handler.originalMessage := ev; Handler.annotations := group |})
          /\ group ≠ []
          /\ (forall a, a ∈ group -> a ∈ anns /\ Handler.landing a = t)
          /\ ((forall a b, a ∈ anns -> b ∈ anns ->
                           Handler.landing a = t -> Handler.landing b = t ->
                           toNanoSec (Handler.stamp a) = toNanoSec (Handler.stamp b)) ->
              group = filter (fun a => Handler.landing a = t) anns)).
Proof.
  intros h1. subst h1. rewrite handleAnnotations_store_eq.
  cbn [Handler.oldShares Handler.oldRenderState Handler.tree].
  split_and!; [done | |].
  - intros Hnone. destruct (Handler.oldShares h) as [| |t]; [done | done |].
    pose proof (landing_group anns t) as Hland.
    destruct (last (filter _ (Handler.group_annotations anns))) as [[z g]|]; [| done].
    simpl in Hland. destruct Hland as (Hne & Hall & _). exfalso.
    destruct g as [|a g']; [done |].
    destruct (Hall a (list_elem_of_here _ _)) as [Ha1 Ha2]. by apply (Hnone t eq_refl a).
  - intros t Hsh (a & Ha & Hla). rewrite Hsh.
    pose proof (landing_group anns t) as Hland.
    destruct (last (filter _ (Handler.group_annotations anns))) as [[z g]|] eqn:Hlast;
      [| by destruct (Hland a Ha)].
    simpl in Hland. destruct Hland as (Hne & Hall & Hsame).
    exists g. split_and!; [done | | done | done | done].
    intros Hs.
    destruct (store_groups_spec nt ev (Handler.group_annotations anns) (Handler.tree h) Hs)
      as (_ & Hget).
    rewrite Hget, Hlast. eexists. split; [done |]. simpl. by rewrite lookup_insert_eq.
Qed.

(** C9. In synchronized mode: an image whose timestamp already has an index
    entry replaces the image of that entry and nothing else in the index;
    an annotation message leaves, in every existing entry, the image and the
    batches of all other namespaced topics as they were, replaces under its
    own namespaced topic the batch of the entries on whose stamp one of its
    annotations lands, by a group of those annotations, and leaves alone the
    entries on whose stamp none lands; it creates entries only where an
    annotation lands.  The stamp an annotation lands on is
    [fromNanoSec (toNanoSec stamp)].  The emission that ends both calls only
    evicts entries. *)
Theorem synchronized_updates_touch_only_their_slot h :
  Handler.synchronize (Handler.config h) = Some true ->
  AVLTree.sorted (Handler.tree h) ->
  (forall (imageEvent : @MessageEvent AnyImage) (image : AnyImage) item,
     let t := getTimestampFromImage image in
     let normalizedImageMessage :=
       {| topic := topic imageEvent; msg_schemaName := msg_schemaName imageEvent;
          receiveTime := receiveTime imageEvent; message := image;
          sizeInBytes := sizeInBytes imageEvent |} in
     let h' := Handler.handleImage getTimestampFromImage h imageEvent image in
     AVLTree.get t (Handler.tree h) = Some item ->
     exists tree1,
       h' = Handler.emitState (Handler.set_tree tree1 h)
       /\ AVLTree.get t tree1 =
          Some {| Handler.item_image := Some normalizedImageMessage;
                  Handler.item_annotationsByNamespacedTopic :=
                    Handler.item_annotationsByNamespacedTopic item |}
       /\ (forall k, k ≠ t -> AVLTree.get k tree1 = AVLTree.get k (Handler.tree h))
       /\ (forall k v, (k, v) ∈ Handler.tree h' -> AVLTree.get k tree1 = Some v)
       /\ Handler.lastReceivedMessages h' = Handler.lastReceivedMessages h)
  /\ (forall (messageEvent : @MessageEvent AnnotationMessage) nt,
        namespaceTopic (topic messageEvent) (msg_schemaName messageEvent) = Some nt ->
        let anns :=
          normalizeAnnotations (message messageEvent) (msg_schemaName messageEvent) in
        exists h1,
          Handler.handleAnnotations normalizeAnnotations h messageEvent
          = Some (Handler.emitState h1)
          /\ Handler.config h1 = Handler.config h
          /\ Handler.lastReceivedMessages h1 = Handler.lastReceivedMessages h
          /\ Handler.emitted h1 = Handler.emitted h
          /\ AVLTree.sorted (Handler.tree h1)
          /\ (forall t item,
                AVLTree.get t (Handler.tree h) = Some item ->
                exists item1,
                  AVLTree.get t (Handler.tree h1) = Some item1
                  /\ Handler.item_image item1 = Handler.item_image item
                  /\ (forall other, other ≠ nt ->
                        Handler.item_annotationsByNamespacedTopic item1 !! other
                        = Handler.item_annotationsByNamespacedTopic item !! other)
                  /\ ((forall a, a ∈ anns -> Handler.landing a ≠ t) -> item1 = item)
                  /\ ((exists a, a ∈ anns /\ Handler.landing a = t) ->
                      exists group,
                        Handler.item_annotationsByNamespacedTopic item1 !! nt
                        = Some {| Handler.originalMessage := messageEvent;
                                  Handler.annotations := group |}
                        /\ group ≠ []
                        /\ (forall a, a ∈ group -> a ∈ anns /\ Handler.landing a = t)
                        /\ ((forall a b, a ∈ anns -> b ∈ anns -> Handler.landing a = t -> Handler.landing b = t ->
                                         toNanoSec (Handler.stamp a)
                                         = toNanoSec (Handler.stamp b)) ->
                            group = filter (fun a => Handler.landing a = t) anns)))
          /\ (forall t,
                AVLTree.get t (Handler.tree h) = None ->
                (forall a, a ∈ anns -> Handler.landing a ≠ t) ->
                AVLTree.get t (Handler.tree h1) = None)
          /\ (forall k v,
                (k, v) ∈ Handler.tree (Handler.emitState h1) ->
                AVLTree.get k (Handler.tree h1) = Some v)
          /\ Handler.lastReceivedMessages (Handler.emitState h1)
             = Handler.lastReceivedMessages h
          /\ Handler.oldShares h1 = Handler.oldShares h
          /\ ((forall t, Handler.oldShares h = Handler.SharesEntry t ->
                         forall a, a ∈ anns -> Handler.landing a ≠ t) ->
              Handler.oldRenderState h1 = Handler.oldRenderState h)
          /\ (forall t item1 batch,
                Handler.oldShares h = Handler.SharesEntry t ->
                (exists a, a ∈ anns /\ Handler.landing a = t) ->
                AVLTree.get t (Handler.tree h1) = Some item1 ->
                Handler.item_annotationsByNamespacedTopic item1 !! nt = Some batch ->
                Handler.oldRenderState h1
                = Handler.with_batches (insert nt batch) <$> Handler.oldRenderState h)).
Proof.
  intros Hsync Hs. split.
  - intros imageEvent image item t normalizedImageMessage h' Hget. subst h'.
    unfold Handler.handleImage. rewrite decide_False by (by intros ?).
    unfold Handler.handleImage_store. cbn [message]. fold t. rewrite Hget.
    fold normalizedImageMessage.
    set (stored := {| Handler.item_image := Some normalizedImageMessage;
                      Handler.item_annotationsByNamespacedTopic :=
                        Handler.item_annotationsByNamespacedTopic item |}).
    exists (AVLTree.set t stored (Handler.tree h)).
    destruct (emitState_frame
                (Handler.set_tree (AVLTree.set t stored (Handler.tree h)) h))
      as (_ & Hl & _ & _ & Hsub).
    split_and!; [done | | | | done].
    + rewrite get_set by done. by rewrite decide_True.
    + intros k Hne. rewrite get_set by done. by rewrite decide_False.
    + intros k v Hin. apply elem_get; [by apply set_sorted | by apply Hsub].
  - intros messageEvent nt Hnt anns.
    destruct (previous_state_after_store h nt messageEvent anns) as (Hsh & Hsame & Hthrough).
    assert (Hprevious : forall t item1 batch,
              Handler.oldShares h = Handler.SharesEntry t ->
              (exists a, a ∈ anns /\ Handler.landing a = t) ->
              AVLTree.get t (Handler.tree (Handler.handleAnnotations_store h nt messageEvent anns))
              = Some item1 ->
              Handler.item_annotationsByNamespacedTopic item1 !! nt = Some batch ->
              Handler.oldRenderState (Handler.handleAnnotations_store h nt messageEvent anns)
              = Handler.with_batches (insert nt batch) <$> Handler.oldRenderState h).
    { intros t item1 batch Ht Hex Hget Hbatch.
      destruct (Hthrough t Ht Hex) as (group & Hold & Hentry & _).
      destruct (Hentry Hs) as (item1' & Hget' & Hbatch').
      rewrite Hget' in Hget. injection Hget as Hi. subst item1'.
      unfold NamespacedTopic in *. rewrite Hbatch' in Hbatch. injection Hbatch as Hb. subst batch. exact Hold. }
    exists (Handler.handleAnnotations_store h nt messageEvent anns).
    split_and!; [| | | | | | | | | exact Hsh | exact Hsame | exact Hprevious];
      clear Hsh Hsame Hthrough Hprevious; rewrite ?handleAnnotations_store_eq.
    all: set (G := Handler.group_annotations anns).
    all: destruct (store_groups_spec nt messageEvent G (Handler.tree h) Hs) as (Hs1 & Hget1).
    all: try match goal with |- context [Handler.emitState ?x] =>
      destruct (emitState_frame x) as (_ & Hl & _ & _ & Hsub)
    end.
    all: cbn [Handler.config Handler.lastReceivedMessages Handler.emitted Handler.tree] in *.
    all: [> | done | done | done | done | | | | exact Hl].
    + unfold Handler.handleAnnotations. rewrite Hnt. cbn [mbind option_bind].
      rewrite decide_False by (by intros ?). by rewrite handleAnnotations_store_eq.
    + intros t item Hget. rewrite Hget1, Hget.
      pose proof (groups_landing anns t) as Hland. fold G in Hland.
      destruct (last (filter _ G)) as [[z g]|]; simpl in *.
      * destruct Hland as (Hz & Hg & Hne). eexists. split; [done |]. simpl.
        split_and!; [done | | |].
        -- intros other Hother. by rewrite lookup_insert_ne.
        -- intros Hnone. exfalso. destruct g as [|a g']; [done |].
           assert (Ha : a ∈ filter (fun a => toNanoSec (Handler.stamp a) = z) anns)
             by (rewrite <- Hg; apply list_elem_of_here).
           apply list_elem_of_filter in Ha as [Ha1 Ha2].
           apply (Hnone a Ha2). unfold Handler.landing. by rewrite Ha1.
        -- intros _. exists g. rewrite lookup_insert_eq. split_and!; [done | done | |].
           ++ intros a Ha. rewrite Hg in Ha. apply list_elem_of_filter in Ha as [Ha1 Ha2].
              split; [done |]. unfold Handler.landing. by rewrite Ha1.
           ++ intros Hsame. rewrite Hg. apply filter_ext_in. intros a Hin. unfold Handler.landing.
              split; [intros ->; done |]. intros Ha.
              destruct g as [|b g']; [done |].
              assert (Hb : b ∈ filter (fun a => toNanoSec (Handler.stamp a) = z) anns)
                by (rewrite <- Hg; apply list_elem_of_here).
              apply list_elem_of_filter in Hb as [Hb1 Hb2].
              rewrite <- Hb1. apply Hsame; [done | done | done |].
              unfold Handler.landing. by rewrite Hb1.
      * exists item. split_and!; try done.
        intros (a & Ha & Hla). by destruct (Hland a Ha).
    + intros t Hget Hnone. rewrite Hget1, Hget.
      pose proof (groups_landing anns t) as Hland. fold G in Hland.
      destruct (last (filter _ G)) as [[z g]|]; [| done].
      simpl in Hland. destruct Hland as (Hz & Hg & Hne). exfalso.
      destruct g as [|a g']; [done |].
      assert (Ha : a ∈ filter (fun a => toNanoSec (Handler.stamp a) = z) anns)
        by (rewrite <- Hg; apply list_elem_of_here).
      apply list_elem_of_filter in Ha as [Ha1 Ha2].
      apply (Hnone a Ha2). unfold Handler.landing. by rewrite Ha1.
    + intros k v Hin. apply elem_get; [done | by apply Hsub].
Qed.

(** *** [setConfig] *)

Lemma delete_invisible_fold visible (ks : list string) :
  forall (m : gmap string (@Handler.NormalizedAnnotations AnnotationBody AnnotationMessage))
         (c : bool),
    fold_left
      (fun '(batches, changed) topic =>
         if decide (topic ∈ visible) then (batches, changed)
         else (delete topic batches, true))
      ks (m, c)
    = (filter (fun kv => kv.1 ∈ visible \/ kv.1 ∉ ks) m,
       c || bool_decide (Exists (fun k => k ∉ visible) ks)).
Proof.
  induction ks as [|k ks IH]; intros m c; cbn [fold_left].
  - f_equal.
    + symmetry. apply map_filter_id. intros i x _. right. simpl. apply not_elem_of_nil.
    + rewrite bool_decide_eq_false_2; [by rewrite orb_false_r |]. by intros ?%Exists_nil.
  - destruct (decide (k ∈ visible)) as [Hin|Hnin]; rewrite IH; f_equal.
    + apply map_eq. intros i. apply option_eq. intros x.
      rewrite !map_lookup_filter_Some. simpl. rewrite not_elem_of_cons.
      split; [| tauto]. intros [Hx [?|Hn]]; [tauto |].
      destruct (decide (i = k)) as [->|?]; tauto.
    + f_equal. apply bool_decide_ext. rewrite Exists_cons. tauto.
    + apply map_eq. intros i. apply option_eq. intros x.
      rewrite !map_lookup_filter_Some, lookup_delete_Some. simpl. rewrite not_elem_of_cons.
      split.
      * intros [[Hne Hx] [?|?]]; (split; [done |]);
          [by left | right; split; [congruence | done]].
      * intros [Hx [Hv|[Hne Hks]]]; (split; [split; [| done] |]);
          [by intros -> | by left | congruence | by right].
    + simpl. symmetry. rewrite bool_decide_eq_true_2; [apply orb_true_r |].
      apply Exists_cons. by left.
Qed.

Lemma delete_invisible_spec visible
    (m : gmap string (@Handler.NormalizedAnnotations AnnotationBody AnnotationMessage)) :
  (Handler.delete_invisible visible m).1 = filter (fun kv => kv.1 ∈ visible) m
  /\ ((Handler.delete_invisible visible m).2 = true
      <-> exists topic, is_Some (m !! topic) /\ topic ∉ visible).
Proof.
  unfold Handler.delete_invisible. rewrite delete_invisible_fold. simpl. split.
  - apply map_eq. intros i. apply option_eq. intros x.
    rewrite !map_lookup_filter_Some. simpl. split; [| tauto].
    intros [Hx [?|Hn]]; [tauto |]. exfalso. apply Hn.
    apply list_elem_of_fmap. exists (i, x). split; [done |]. by apply elem_of_map_to_list.
  - rewrite bool_decide_eq_true, Exists_exists. split.
    + intros (k & Hk & Hn). exists k. split; [| done].
      apply list_elem_of_fmap in Hk as ([k' x] & -> & Hk). apply elem_of_map_to_list in Hk.
      by eexists.
    + intros (k & [x Hx] & Hn). exists k. split; [| done].
      apply list_elem_of_fmap. exists (k, x). split; [done |]. by apply elem_of_map_to_list.
Qed.

Lemma delete_invisible_in_tree_fold visible tree :
  forall done c,
    fold_left
      (fun '(done, changed) '(k, syncEntry) =>
         let '(batches, c) :=
           Handler.delete_invisible visible
             (Handler.item_annotationsByNamespacedTopic syncEntry) in
         (done ++ [(k, {| Handler.item_image := Handler.item_image syncEntry;
                          Handler.item_annotationsByNamespacedTopic := batches |})],
          changed || c))
      tree (done, c)
    = (done ++ map (fun '(k, item) => (k, Handler.only_visible visible item)) tree,
       c || existsb
              (fun '(k, item) =>
                 (Handler.delete_invisible visible
                    (Handler.item_annotationsByNamespacedTopic item)).2)
              tree).
Proof.
  induction tree as [|[k item] tree IH]; intros done c; cbn [fold_left].
  - simpl. by rewrite app_nil_r, orb_false_r.
  - destruct (delete_invisible_spec visible (Handler.item_annotationsByNamespacedTopic item))
      as [H1 _].
    destruct (Handler.delete_invisible visible
                (Handler.item_annotationsByNamespacedTopic item)) as [batches c'] eqn:E.
    simpl in H1. subst batches. rewrite IH. simpl. rewrite E. simpl.
    by rewrite <- app_assoc, orb_assoc.
Qed.

Lemma delete_invisible_in_tree_spec visible tree :
  (Handler.delete_invisible_in_tree visible tree).1
  = map (fun '(k, item) => (k, Handler.only_visible visible item)) tree
  /\ ((Handler.delete_invisible_in_tree visible tree).2 = true
      <-> exists k item topic,
            (k, item) ∈ tree
            /\ is_Some (Handler.item_annotationsByNamespacedTopic item !! topic)
            /\ topic ∉ visible).
Proof.
  unfold Handler.delete_invisible_in_tree. rewrite delete_invisible_in_tree_fold. simpl.
  split; [done |]. rewrite existsb_exists. split.
  - intros ([k item] & Hin & Hc). apply list_elem_of_In in Hin.
    apply delete_invisible_spec in Hc as (topic & Hs' & Hn). by exists k, item, topic.
  - intros (k & item & topic & Hin & Hs' & Hn). exists (k, item).
    split; [by apply list_elem_of_In |]. apply delete_invisible_spec. by exists topic.
Qed.

(** The four blocks, written out. *)
Lemma setConfig_resets_eq h (nc : Handler.PartialConfig) :
  let c := Handler.config h in
  let tree1 := if Handler.synchronize_toggled c nc then [] else Handler.tree h in
  let tree2 :=
    if Handler.imageTopic_changed c nc
    then map (fun '(k, item) => (k, Handler.without_image item)) tree1 else tree1 in
  let img :=
    if Handler.imageTopic_changed c nc then None
    else Handler.image (Handler.lastReceivedMessages h) in
  let cam :=
    if Handler.calibrationTopic_changed c nc then None
    else Handler.cameraInfo (Handler.lastReceivedMessages h) in
  let flags :=
    Handler.synchronize_toggled c nc || Handler.imageTopic_changed c nc
    || Handler.calibrationTopic_changed c nc in
  let current := Handler.annotationsByNamespacedTopic (Handler.lastReceivedMessages h) in
  let shares :=
    if Handler.synchronize_toggled c nc
    then match Handler.oldShares h with
         | Handler.SharesEntry _ => Handler.SharesNothing
         | shares => shares
         end
    else Handler.oldShares h in
  Handler.setConfig_resets h nc =
  match Handler.annotations_replaced c nc with
  | Some newAnn =>
      let V := Handler.visible_topics (Handler.entries newAnn) in
      ({| Handler.config := Handler.merge_config c nc;
          Handler.oldRenderState :=
            if decide (shares = Handler.SharesNothing) then Handler.oldRenderState h
            else Handler.with_batches (fun batches => (Handler.delete_invisible V batches).1)
                   <$> Handler.oldRenderState h;
          Handler.oldShares := shares;
          Handler.lastReceivedMessages :=
            {| Handler.image := img; Handler.cameraInfo := cam;
               Handler.annotationsByNamespacedTopic :=
                 (Handler.delete_invisible V current).1 |};
          Handler.tree := (Handler.delete_invisible_in_tree V tree2).1;
          Handler.emitted := Handler.emitted h |},
       flags || ((Handler.delete_invisible V current).2
                 || (Handler.delete_invisible_in_tree V tree2).2))
  | None =>
      ({| Handler.config := Handler.merge_config c nc;
          Handler.oldRenderState := Handler.oldRenderState h;
          Handler.oldShares := shares;
          Handler.lastReceivedMessages :=
            {| Handler.image := img; Handler.cameraInfo := cam;
               Handler.annotationsByNamespacedTopic := current |};
          Handler.tree := tree2;
          Handler.emitted := Handler.emitted h |},
       flags)
  end.
Proof.
  unfold Handler.setConfig_resets, Handler.drop_invisible, Handler.detach.
  destruct h as [c old shares [img cam current] tree emitted]. simpl.
  destruct (Handler.synchronize_toggled c nc), (Handler.imageTopic_changed c nc),
    (Handler.calibrationTopic_changed c nc), (Handler.annotations_replaced c nc) as [newAnn|],
    shares as [| |stamp];
    simpl; try reflexivity;
    repeat match goal with
           | |- context [Handler.delete_invisible ?V ?m] =>
               destruct (Handler.delete_invisible V m)
           | |- context [Handler.delete_invisible_in_tree ?V ?t] =>
               destruct (Handler.delete_invisible_in_tree V t)
           end; reflexivity.
Qed.

Lemma only_visible_dom visible item :
  dom (Handler.item_annotationsByNamespacedTopic (Handler.only_visible visible item)) ⊆ visible.
Proof.
  intros topic Hin. apply elem_of_dom in Hin as [x Hx]. simpl in Hx.
  by apply map_lookup_filter_Some in Hx as [_ ?].
Qed.












(** *** The index stays sorted

    Every operation of the handler keeps the keys of the index strictly
    increasing, which is what the statements above assume of it. *)

Lemma sorted_map_values (f : @Handler.SynchronizationItem AnyImage AnnotationBody AnnotationMessage
                             -> @Handler.SynchronizationItem AnyImage AnnotationBody AnnotationMessage)
    tree :
  AVLTree.sorted tree -> AVLTree.sorted (map (fun '(k, item) => (k, f item)) tree).
Proof.
  induction tree as [|[k v] tree IH]; intros Hs; [done |].
  apply sorted_cons_inv in Hs as [Hs Hall]. simpl. apply sorted_cons; [by apply IH |].
  intros k' v' Hin. apply list_elem_of_fmap in Hin as ([k0 v0] & [= -> ->] & Hin).
  by eapply Hall.
Qed.

Lemma new_MessageHandler_sorted (c : Handler.MessageHandlerConfig) :
  AVLTree.sorted
    (Handler.tree
       (Handler.new_MessageHandler c
        : @Handler.MessageHandler AnyImage CameraInfo AnnotationBody AnnotationMessage)).
Proof. constructor. Qed.

Lemma emitState_sorted h :
  AVLTree.sorted (Handler.tree h) -> AVLTree.sorted (Handler.tree (Handler.emitState h)).
Proof.
  intros Hs. unfold Handler.emitState, Handler.getRenderState.
  destruct (decide (Handler.synchronize (Handler.config h) = Some true)); [| done].
  unfold Handler.findSynchronizedSetAndRemoveOlderItems.
  destruct (fold_left _ (Handler.tree h) None) as [entry|]; simpl; [| done].
  match goal with |- context [Handler.detach ?x] =>
    destruct (detach_frame x) as (_ & _ & _ & -> & _)
  end.
  by apply removeOlderItems_spec.
Qed.

Lemma handleImage_sorted h (imageEvent : @MessageEvent AnyImage) (image : AnyImage) :
  AVLTree.sorted (Handler.tree h) ->
  AVLTree.sorted (Handler.tree (Handler.handleImage getTimestampFromImage h imageEvent image)).
Proof.
  intros Hs. unfold Handler.handleImage.
  destruct (decide _); apply emitState_sorted; [done |].
  unfold Handler.handleImage_store.
  destruct (AVLTree.get _ _); simpl; by apply set_sorted.
Qed.

Lemma handleCameraInfo_sorted h (cameraInfo : CameraInfo) :
  AVLTree.sorted (Handler.tree h) ->
  AVLTree.sorted (Handler.tree (Handler.handleCameraInfo h cameraInfo)).
Proof. intros Hs. by apply emitState_sorted. Qed.

Lemma handleAnnotations_sorted h (messageEvent : @MessageEvent AnnotationMessage) h' :
  AVLTree.sorted (Handler.tree h) ->
  Handler.handleAnnotations normalizeAnnotations h messageEvent = Some h' ->
  AVLTree.sorted (Handler.tree h').
Proof.
  intros Hs. unfold Handler.handleAnnotations.
  destruct (namespaceTopic _ _) as [nt|]; [| done]. cbn [mbind option_bind].
  destruct (decide _); intros [= <-]; apply emitState_sorted.
  - unfold Handler.through_old. by destruct (decide _).
  - rewrite handleAnnotations_store_eq. simpl. by apply store_groups_spec.
Qed.

Lemma setConfig_resets_sorted h (nc : Handler.PartialConfig) :
  AVLTree.sorted (Handler.tree h) ->
  AVLTree.sorted (Handler.tree (Handler.setConfig_resets h nc).1).
Proof.
  intros Hs. rewrite setConfig_resets_eq.
  assert (H2 : AVLTree.sorted
    (if Handler.imageTopic_changed (Handler.config h) nc
     then map (fun '(k, item) => (k, Handler.without_image item))
            (if Handler.synchronize_toggled (Handler.config h) nc then []
             else Handler.tree h)
     else if Handler.synchronize_toggled (Handler.config h) nc then []
          else Handler.tree h)).
  { destruct (Handler.imageTopic_changed _ _), (Handler.synchronize_toggled _ _);
      try done; try constructor. by apply sorted_map_values. }
  destruct (Handler.annotations_replaced _ _) as [newAnn|]; simpl; [| done].
  rewrite (proj1 (delete_invisible_in_tree_spec _ _)). by apply sorted_map_values.
Qed.

Lemma setConfig_sorted h (nc : Handler.PartialConfig) :
  AVLTree.sorted (Handler.tree h) -> AVLTree.sorted (Handler.tree (Handler.setConfig h nc)).
Proof.
  intros Hs. pose proof (setConfig_resets_sorted h nc Hs) as Hr.
  unfold Handler.setConfig. destruct (Handler.setConfig_resets h nc) as [h1 changed].
  simpl in Hr. destruct changed; [by apply emitState_sorted | done].
Qed.

Lemma clear_sorted h : AVLTree.sorted (Handler.tree (Handler.clear h)).
Proof. unfold Handler.clear. apply emitState_sorted. constructor. Qed.
End HandlerFacts.

Lemma getRenderState_returns_newest_synchronized_set_witness :
  Handler.synchronize (Handler.config Samples.synchronized_handler) = Some true
  /\ AVLTree.sorted (Handler.tree Samples.synchronized_handler)
  /\ (Handler.getRenderState Samples.synchronized_handler).1 =
     {| Handler.rs_image := Some (Samples.image_at 2);
        Handler.rs_cameraInfo := Some "calibration";
        Handler.rs_annotationsByNamespacedTopic :=
          Some (Handler.item_annotationsByNamespacedTopic (Samples.item true 2 ["X"])) |}
  /\ ((mkTime 1 0, Samples.item true 1 ["X"])
        ∉ Handler.tree (Handler.getRenderState Samples.synchronized_handler).2)
  /\ ((mkTime 3 0, Samples.item false 3 ["X"])
        ∈ Handler.tree (Handler.getRenderState Samples.synchronized_handler).2).
Proof.
  assert (Hsync : Handler.synchronize (Handler.config Samples.synchronized_handler) = Some true)
    by reflexivity.
  assert (Hsorted : AVLTree.sorted (Handler.tree Samples.synchronized_handler)).
  { repeat constructor. }
  destruct (getRenderState_returns_newest_synchronized_set
              Samples.synchronized_handler Hsync Hsorted) as (Hwin & _).
  destruct (Hwin (mkTime 2 0) (Samples.item true 2 ["X"])) as [Hstate Htree].
  - apply list_elem_of_further, list_elem_of_here.
  - split; [by eexists | reflexivity].
  - intros t' item' Hin [[img Himg] _].
    repeat (apply elem_of_cons in Hin as [[= -> ->]|Hin]); [done | done | discriminate |].
    by apply elem_of_nil in Hin.
  - split_and!; [exact Hsync | exact Hsorted | exact Hstate | |].
    + intros Hin. apply Htree in Hin as [_ Hge]. apply Hge. reflexivity.
    + apply Htree. split; [repeat constructor | discriminate].
Defined.



(** An image stamped t = 3, where the index holds annotations only; and
    annotations of another topic stamped t = 3: the entry keeps its batch
    of [X] and gets the batch of the message under its namespaced topic. *)
Lemma synchronized_updates_touch_only_their_slot_witness :
  (exists tree1,
     Handler.handleImage Samples.timestamp_of Samples.synchronized_handler
       (Samples.image_at 3) (mkTime 3 0)
     = Handler.emitState (Handler.set_tree tree1 Samples.synchronized_handler)
     /\ AVLTree.get (mkTime 3 0) tree1 =
        Some {| Handler.item_image := Some (Samples.image_at 3);
                Handler.item_annotationsByNamespacedTopic :=
                  Handler.item_annotationsByNamespacedTopic (Samples.item false 3 ["X"]) |}
     /\ AVLTree.get (mkTime 2 0) tree1
        = AVLTree.get (mkTime 2 0) (Handler.tree Samples.synchronized_handler))
  /\ exists h1 item1,
       Handler.handleAnnotations Samples.annotations_of Samples.synchronized_handler
         (Samples.annotations_at 3)
       = Some (Handler.emitState h1)
       /\ AVLTree.get (mkTime 3 0) (Handler.tree h1) = Some item1
       /\ Handler.item_image item1 = None
       /\ Handler.item_annotationsByNamespacedTopic item1 !! "X" = Some (Samples.batch "X" 3)
       /\ Handler.item_annotationsByNamespacedTopic item1 !! Samples.nt_X
          = Some {| Handler.originalMessage := Samples.annotations_at 3;
                    Handler.annotations := [Handler.mkAnnotation (mkTime 3 0) tt] |}.
Proof.
  assert (Hsync : Handler.synchronize (Handler.config Samples.synchronized_handler) = Some true)
    by reflexivity.
  assert (Hsorted : AVLTree.sorted (Handler.tree Samples.synchronized_handler))
    by repeat constructor.
  destruct (synchronized_updates_touch_only_their_slot
              Samples.timestamp_of Samples.annotations_of
              Samples.synchronized_handler Hsync Hsorted) as [Himage Hannotations].
  split.
  - destruct (Himage (Samples.image_at 3) (mkTime 3 0) (Samples.item false 3 ["X"]) eq_refl)
      as (tree1 & Heq & Hget & Hother & _).
    exists tree1. split_and!; [exact Heq | exact Hget |].
    apply Hother. discriminate.
  - destruct (Hannotations (Samples.annotations_at 3) Samples.nt_X eq_refl)
      as (h1 & Hcall & _ & _ & _ & _ & Hentries & _).
    destruct (Hentries (mkTime 3 0) (Samples.item false 3 ["X"]) eq_refl)
      as (item1 & Hget & Himg & Hothers & _ & Hown).
    destruct Hown as (group & Hbatch & _ & _ & Hgroup).
    { exists (Handler.mkAnnotation (mkTime 3 0) tt). split; [apply list_elem_of_here | done]. }
    exists h1, item1. split_and!; [exact Hcall | exact Hget | exact Himg | |].
    + rewrite Hothers by discriminate. reflexivity.
    + unfold NamespacedTopic in *. rewrite Hbatch, Hgroup; [reflexivity |].
      intros a b Ha Hb _ _.
      apply list_elem_of_singleton in Ha as ->. by apply list_elem_of_singleton in Hb as ->.
Defined.

(** ** Worked examples *)

(** The cases of the tests of [mapPlayerState]. *)
Example maps_topics :
  mapTopics Samples.test_topics (buildMapping Samples.rename_inputs)
  = NewObj [mkTopic "/renamed_topic_1" (Some "whatever") None (Some "/topic_1");
            mkTopic "/topic_2" (Some "whatever") None None].
Proof. reflexivity. Qed.

Example maps_messages :
  mapMessages [Samples.msg "/topic_1"; Samples.msg "/topic_2"]
    (buildMapping Samples.rename_inputs)
  = NewObj [Samples.msg "/renamed_topic_1"; Samples.msg "/topic_2"].
Proof. reflexivity. Qed.

Example maps_published_topics :
  mapKeyedTopics [("1", ["/topic_1"; "/topic_2"]); ("2", ["/topic_2"])]
    (buildMapping Samples.rename_inputs)
  = NewObj [("1", ["/renamed_topic_1"; "/topic_2"]); ("2", ["/topic_2"])].
Proof. reflexivity. Qed.

Example maps_blocks :
  mapBlocks
    [Some {| messagesByTopic := [("/topic_1", [Samples.msg "/topic_1"]);
                                 ("/topic_2", [Samples.msg "/topic_2"])];
             block_sizeInBytes := 0 |}; None]
    (buildMapping Samples.rename_inputs)
  = NewObj
      [Some {| messagesByTopic := [("/renamed_topic_1", [Samples.msg "/renamed_topic_1"]);
                                   ("/topic_2", [Samples.msg "/topic_2"])];
               block_sizeInBytes := 0 |}; None].
Proof. reflexivity. Qed.

(** A mapped block is a plain object: it has no property named [__proto__],
    and a property named like an array index comes before the others. *)
Example maps_blocks_as_plain_objects :
  mapBlocks [Some Samples.proto_block; Some Samples.indexed_block]
    (MapObj [("a", ["7"])])
  = NewObj
      [Some {| messagesByTopic := [("/topic_2", [Samples.msg "/topic_2"])];
               block_sizeInBytes := 0 |};
       Some {| messagesByTopic := [("7", [Samples.msg "7"]); ("b", [Samples.msg "b"])];
               block_sizeInBytes := 0 |}].
Proof. reflexivity. Qed.

(** An empty map that is not the sentinel is mapped like any other map: the
    result is a new list, equal to the input. *)
Example fresh_empty_map_is_not_the_sentinel :
  mapTopics Samples.test_topics (MapObj []) = NewObj Samples.test_topics.
Proof. reflexivity. Qed.

(** Percent-encoding: a space, a two-byte character, a lone surrogate, and
    malformed escapes. *)
Example encode_space : encodeURIComponent "a b" = Some "a%20b".
Proof. reflexivity. Qed.

Example encode_two_bytes :
  encodeURIComponent (String (ascii_of_N 195) (String (ascii_of_N 169) ""))
  = Some "%C3%A9".
Proof. reflexivity. Qed.

Example encode_lone_surrogate :
  encodeURIComponent
    (String (ascii_of_N 237) (String (ascii_of_N 160) (String (ascii_of_N 128) "")))
  = None.
Proof. reflexivity. Qed.

Example decode_two_bytes :
  decodeURIComponent "%c3%A9" = Some (String (ascii_of_N 195) (String (ascii_of_N 169) "")).
Proof. reflexivity. Qed.

Example decode_malformed :
  decodeURIComponent "%FF" = None /\ decodeURIComponent "%C3" = None
  /\ decodeURIComponent "%4" = None /\ decodeURIComponent "%E0%80%80" = None
  /\ decodeURIComponent "%C3a" = None.
Proof. repeat split. Qed.

Example namespace_of_test_topic :
  namespaceTopic "topic_a" "foxglove.Grid" = Some "topic_a:foxglove.Grid"
  /\ unnamespacetopic "no_colon_here" = Some "no_colon_here".
Proof. split; reflexivity. Qed.

(** [fromNanoSec] goes through [Number]: past 2^53 seconds it rounds, so
    that stamps a second apart land on one stamp of the index. *)
Example fromNanoSec_rounds :
  fromNanoSec (toNanoSec (mkTime 9007199254740993 0)) = mkTime 9007199254740992 0
  /\ fromNanoSec (toNanoSec (mkTime 9007199254740992 1000000000))
     = mkTime 9007199254740992 0
  /\ fromNanoSec (toNanoSec (mkTime 1 500)) = mkTime 1 500.
Proof. repeat split. Qed.

(** The handler scenario of the specification: an image and annotations at
    t = 1 are shown; annotations at t = 2 without an image change nothing;
    the image at t = 2 makes t = 2 the shown pair and evicts t = 1. *)
Example synchronized_scenario :
  let step_annotations t h :=
    h ≫= fun h => Handler.handleAnnotations Samples.annotations_of h (Samples.annotations_at t) in
  let step_image t h :=
    (fun h => Handler.handleImage Samples.timestamp_of h (Samples.image_at t) (mkTime t 0))
    <$> h in
  let h1 := step_annotations 1%Z (step_image 1%Z (Some Samples.empty_handler)) in
  let h2 := step_annotations 2%Z h1 in
  let h3 := step_image 2%Z h2 in
  Samples.last_state h1 = Some (Some (Samples.image_at 1), Some [Samples.nt_X])
  /\ Samples.stamps h1 = Some [mkTime 1 0]
  /\ Samples.last_state h2 = Some (Some (Samples.image_at 1), Some [Samples.nt_X])
  /\ Samples.stamps h2 = Some [mkTime 1 0; mkTime 2 0]
  /\ Samples.last_state h3 = Some (Some (Samples.image_at 2), Some [Samples.nt_X])
  /\ Samples.stamps h3 = Some [mkTime 2 0].
Proof. vm_compute. repeat split. Qed.

(** * Further properties of the same modules *)

(** ** The mapping engine: what a built mapping looks like and what the
       transforms keep *)

Section MappingInvariants.
Context {Payload GlobalVariables : Type}.
Implicit Types (m : list (string * list string)) (maps : list (list (string * string))).
Implicit Types (inputs : @MappingInputs GlobalVariables).
Implicit Types (msg : @MessageEvent Payload) (sub : SubscribePayload).

Lemma mergeMappings_values_nonempty maps k vs : (k, vs) ∈ mergeMappings maps -> vs ≠ [].
Proof.
  unfold mergeMappings.
  assert (H : forall maps merged,
    (forall k vs, (k, vs) ∈ merged -> vs ≠ []) ->
    forall k vs, (k, vs) ∈ fold_left merge_map maps merged -> vs ≠ []).
  { clear. induction maps as [|mp maps IH]; intros merged Hm; [done |].
    simpl. apply IH. clear IH. revert merged Hm.
    induction mp as [|[key value] mp IH]; intros merged Hm; [done |].
    simpl. apply IH. intros k vs Hin.
    apply set_elem in Hin as [[-> ->]|Hin]; [| by eapply Hm].
    intros Hnil. apply uniq_nil_inv in Hnil. by destruct (default [] _). }
  apply H. intros ? ? Hin. by apply elem_of_nil in Hin.
Qed.

Lemma built_mapping inputs m :
  buildMapping inputs = MapObj m ->
  JsMap.wf m /\ forall k vs, (k, vs) ∈ m -> vs ≠ [] /\ NoDup vs.
Proof.
  intros Hm. destruct (buildMapping_cases inputs) as [[_ Hb]|Hb]; [congruence |].
  assert (m = mergeMappings (run_mappers inputs)) as -> by congruence.
  split; [apply mergeMappings_wf |]. intros k vs Hin.
  split; [by eapply mergeMappings_values_nonempty | by eapply mergeMappings_values_NoDup].
Qed.

Lemma built_mapping_get inputs k vs :
  mapping_get k (buildMapping inputs) = Some vs -> vs ≠ [] /\ NoDup vs.
Proof.
  destruct (buildMapping inputs) as [|m] eqn:Hm; [done |]. simpl. intros Hget.
  destruct (built_mapping inputs m Hm) as [_ Hall]. eapply Hall. by apply get_Some_elem.
Qed.

(** X1. [mergeMappings] returns a map whose keys are pairwise distinct and
    whose target lists are never empty and never list a name twice,
    whatever the maps it is given. *)
Theorem merged_entries_are_sets maps :
  JsMap.wf (mergeMappings maps)
  /\ forall k vs, (k, vs) ∈ mergeMappings maps -> vs ≠ [] /\ NoDup vs.
Proof.
  split; [apply mergeMappings_wf |]. intros k vs Hin.
  split; [by eapply mergeMappings_values_nonempty | by eapply mergeMappings_values_NoDup].
Qed.

(** Membership in a mapped batch, topic list and subscription list. *)
Lemma elem_of_mapMessages (messages : list (@MessageEvent Payload)) mapping msg' :
  msg' ∈ contents messages (mapMessages messages mapping)
  <-> exists msg, msg ∈ messages
        /\ match mapping_get (topic msg) mapping with
           | Some targets => exists t, t ∈ targets /\ msg' = with_topic msg t
           | None => msg' = msg
           end.
Proof.
  destruct mapping as [|m]; simpl.
  - split; [intros H; by exists msg' | by intros (msg & H & ->)].
  - rewrite list_elem_of_In, in_flat_map. split.
    + intros (msg & Hin & Hout). exists msg. split; [by apply list_elem_of_In |].
      destruct (JsMap.get (topic msg) m) as [targets|].
      * apply list_elem_of_In, list_elem_of_fmap in Hout as (t & -> & Ht). by exists t.
      * apply list_elem_of_In, list_elem_of_singleton in Hout. done.
    + intros (msg & Hin & Hout). exists msg. split; [by apply list_elem_of_In |].
      destruct (JsMap.get (topic msg) m) as [targets|].
      * destruct Hout as (t & Ht & ->). apply list_elem_of_In, list_elem_of_fmap. by exists t.
      * subst. apply list_elem_of_In, list_elem_of_here.
Qed.

Lemma elem_of_mapTopics (topics : list Topic) mapping tp' :
  tp' ∈ contents topics (mapTopics topics mapping)
  <-> exists tp, tp ∈ topics
        /\ match mapping_get (name tp) mapping with
           | Some targets => exists n, n ∈ targets /\ tp' = with_name tp n
           | None => tp' = tp
           end.
Proof.
  destruct mapping as [|m]; simpl.
  - split; [intros H; by exists tp' | by intros (tp & H & ->)].
  - rewrite list_elem_of_In, in_flat_map. split.
    + intros (tp & Hin & Hout). exists tp. split; [by apply list_elem_of_In |].
      destruct (JsMap.get (name tp) m) as [targets|].
      * apply list_elem_of_In, list_elem_of_fmap in Hout as (n & -> & Hn). by exists n.
      * apply list_elem_of_In, list_elem_of_singleton in Hout. done.
    + intros (tp & Hin & Hout). exists tp. split; [by apply list_elem_of_In |].
      destruct (JsMap.get (name tp) m) as [targets|].
      * destruct Hout as (n & Hn & ->). apply list_elem_of_In, list_elem_of_fmap. by exists n.
      * subst. apply list_elem_of_In, list_elem_of_here.
Qed.

Lemma elem_of_mapSubscriptions inputs (subs : list SubscribePayload) fwd :
  fwd ∈ contents subs (mapSubscriptions inputs subs)
  <-> exists sub, sub ∈ subs
        /\ match mapping_get (sub_topic sub) (invertMapping (buildMapping inputs)) with
           | Some sources => exists k, k ∈ sources /\ fwd = with_sub_topic sub k
           | None => fwd = sub
           end.
Proof.
  unfold mapSubscriptions. destruct (buildMapping inputs) as [|m]; simpl.
  - split; [intros H; by exists fwd | by intros (s & H & ->)].
  - rewrite list_elem_of_In, in_flat_map. split.
    + intros (s & Hin & Hout). exists s. split; [by apply list_elem_of_In |].
      destruct (JsMap.get (sub_topic s) (invert_entries m)) as [sources|].
      * apply list_elem_of_In, list_elem_of_fmap in Hout as (k & -> & Hk). by exists k.
      * apply list_elem_of_In, list_elem_of_singleton in Hout. done.
    + intros (s & Hin & Hout). exists s. split; [by apply list_elem_of_In |].
      destruct (JsMap.get (sub_topic s) (invert_entries m)) as [sources|].
      * destruct Hout as (k & Hk & ->). apply list_elem_of_In, list_elem_of_fmap. by exists k.
      * subst. apply list_elem_of_In, list_elem_of_here.
Qed.

Lemma with_topic_same msg : with_topic msg (topic msg) = msg.
Proof. by destruct msg. Qed.

Lemma with_sub_topic_same sub : with_sub_topic sub (sub_topic sub) = sub.
Proof. by destruct sub. Qed.

Lemma flat_map_length_ge {A B : Type} (f : A -> list B) (l : list A) :
  (forall x, x ∈ l -> f x ≠ []) -> (length l <= length (flat_map f l))%nat.
Proof.
  induction l as [|x l IH]; intros H; [done |]. simpl. rewrite length_app.
  assert (f x ≠ []) as Hx by apply H, list_elem_of_here.
  assert (length l <= length (flat_map f l))%nat.
  { apply IH. intros y Hy. by apply H, list_elem_of_further. }
  destruct (f x); [done | simpl; lia].
Qed.

Lemma inverted_sources_nonempty inputs t sources :
  mapping_get t (invertMapping (buildMapping inputs)) = Some sources -> sources ≠ [].
Proof.
  destruct (buildMapping inputs) as [|m]; [done |]. simpl.
  rewrite invert_entries_get. intros H. by apply entry_of_Some in H as [-> ?].
Qed.

(** X2. With the mapping built from the registered mappers, mapping a batch
    of messages or a list of subscriptions loses nothing and invents
    nothing: every input yields at least one output that differs from it at
    most in the topic, every output comes from an input in that way, and the
    copies of one message are on pairwise different topics. *)
Theorem mapping_loses_and_invents_nothing inputs :
  (forall messages : list (@MessageEvent Payload),
     let out := contents messages (mapMessages messages (buildMapping inputs)) in
     (length messages <= length out)%nat
     /\ (forall msg, msg ∈ messages -> exists t, with_topic msg t ∈ out)
     /\ (forall msg', msg' ∈ out ->
           exists msg, msg ∈ messages /\ msg' = with_topic msg (topic msg')))
  /\ (forall msg, NoDup (map topic (contents [msg] (mapMessages [msg] (buildMapping inputs)))))
  /\ (forall subs : list SubscribePayload,
        let out := contents subs (mapSubscriptions inputs subs) in
        (length subs <= length out)%nat
        /\ (forall sub, sub ∈ subs -> exists t, with_sub_topic sub t ∈ out)
        /\ (forall fwd, fwd ∈ out ->
              exists sub, sub ∈ subs /\ fwd = with_sub_topic sub (sub_topic fwd))).
Proof.
  split_and!.
  - intros messages out. split_and!.
    + subst out. destruct (buildMapping inputs) as [|m] eqn:Hm; simpl; [done |].
      apply flat_map_length_ge. intros msg _.
      destruct (JsMap.get (topic msg) m) as [targets|] eqn:Hget; [| done].
      destruct (built_mapping_get inputs (topic msg) targets) as [Hne _];
        [by rewrite Hm |].
      by destruct targets.
    + intros msg Hin.
      destruct (mapping_get (topic msg) (buildMapping inputs)) as [targets|] eqn:Hget.
      * destruct (built_mapping_get inputs _ _ Hget) as [Hne _].
        destruct targets as [|t targets]; [done |]. exists t.
        apply elem_of_mapMessages. exists msg. split; [done |]. rewrite Hget.
        exists t. split; [apply list_elem_of_here | done].
      * exists (topic msg). apply elem_of_mapMessages. exists msg. split; [done |].
        by rewrite Hget, with_topic_same.
    + intros msg' Hin. apply elem_of_mapMessages in Hin as (msg & Hin & Hout).
      exists msg. split; [done |].
      destruct (mapping_get (topic msg) (buildMapping inputs)).
      * by destruct Hout as (t & _ & ->).
      * subst. by rewrite with_topic_same.
  - intros msg. rewrite mapMessages_one.
    destruct (mapping_get (topic msg) (buildMapping inputs)) as [targets|] eqn:Hget.
    + destruct (built_mapping_get inputs _ _ Hget) as [_ Hnd].
      rewrite <- list_fmap_compose.
      replace (topic ∘ with_topic msg) with (@id string); [by rewrite list_fmap_id | done].
    + simpl. apply NoDup_singleton.
  - intros subs out. split_and!.
    + subst out. unfold mapSubscriptions.
      pose proof (inverted_sources_nonempty inputs) as Hne.
      destruct (buildMapping inputs) as [|m] eqn:Hm; simpl; [done |].
      apply flat_map_length_ge. intros sub _.
      destruct (JsMap.get (sub_topic sub) (invert_entries m)) as [sources|] eqn:Hget; [| done].
      specialize (Hne _ _ Hget). by destruct sources.
    + intros sub Hin.
      destruct (mapping_get (sub_topic sub) (invertMapping (buildMapping inputs)))
        as [sources|] eqn:Hget.
      * pose proof (inverted_sources_nonempty inputs _ _ Hget) as Hne.
        destruct sources as [|k sources]; [done |].
        exists k. apply elem_of_mapSubscriptions. exists sub. split; [done |]. rewrite Hget.
        exists k. split; [apply list_elem_of_here | done].
      * exists (sub_topic sub). apply elem_of_mapSubscriptions. exists sub. split; [done |].
        by rewrite Hget, with_sub_topic_same.
    + intros fwd Hin. apply elem_of_mapSubscriptions in Hin as (sub & Hin & Hout).
      exists sub. split; [done |].
      destruct (mapping_get (sub_topic sub) (invertMapping (buildMapping inputs))).
      * by destruct Hout as (k & _ & ->).
      * subst. by rewrite with_sub_topic_same.
Qed.

(** The sources of a target in a map with distinct keys and duplicate-free
    target lists: each key that lists the target, once. *)
Lemma sources_of_NoDup m t :
  JsMap.wf m -> (forall k vs, (k, vs) ∈ m -> NoDup vs) -> NoDup (sources_of t m).
Proof.
  unfold JsMap.wf. induction m as [|[key vs] m IH]; intros Hwf Hnd; [apply NoDup_nil_2 |].
  simpl in Hwf. apply NoDup_cons in Hwf as [Hkey Hwf].
  change (sources_of t ((key, vs) :: m))
    with (map (fun _ : string => key) (filter (fun value => value = t) vs) ++ sources_of t m).
  assert (Hrest : NoDup (sources_of t m)).
  { apply IH; [done |]. intros k vs' Hin. eapply Hnd. by apply list_elem_of_further. }
  destruct (decide (t ∈ vs)) as [Hin|Hnin].
  - rewrite filter_eq_NoDup; [| eapply Hnd; apply list_elem_of_here | done].
    simpl. apply NoDup_cons. split; [| done].
    intros Hk. apply elem_of_sources_of in Hk as (vs' & Hk & _).
    apply Hkey. apply list_elem_of_fmap. by exists (key, vs').
  - by rewrite filter_eq_not_in.
Qed.

Lemma entry_of_elem {A : Type} (l : list A) x : x ∈ l -> entry_of l = Some l.
Proof. destruct l; [intros H; by apply elem_of_nil in H | done]. Qed.

Lemma inverted_get inputs m t :
  buildMapping inputs = MapObj m ->
  mapping_get t (invertMapping (buildMapping inputs)) = entry_of (sources_of t m).
Proof. intros ->. simpl. apply invert_entries_get. Qed.

Lemma elem_of_sources_get m t k :
  JsMap.wf m -> k ∈ sources_of t m <-> exists vs, JsMap.get k m = Some vs /\ t ∈ vs.
Proof.
  intros Hwf. rewrite elem_of_sources_of. split.
  - intros (vs & Hin & Ht). exists vs. split; [by apply elem_get_wf | done].
  - intros (vs & Hget & Ht). exists vs. split; [by apply get_Some_elem | done].
Qed.

(** X3. A subscription to a name [B] that some topic is mapped to is
    forwarded as one subscription for each topic mapped to [B], and for
    nothing else: the forwarded topics are exactly the keys whose target
    list names [B], each once.  [B] itself is therefore not subscribed unless
    it is such a key, even when the wrapped player has a topic of that name.
    And every message delivered on a forwarded topic comes back with a copy
    on [B]. *)
Theorem forwarded_subscriptions_are_exactly_the_sources inputs m B sub :
  buildMapping inputs = MapObj m ->
  sub_topic sub = B ->
  (exists k vs, JsMap.get k m = Some vs /\ B ∈ vs) ->
  exists sources,
    contents [sub] (mapSubscriptions inputs [sub]) = map (with_sub_topic sub) sources
    /\ sources ≠ []
    /\ NoDup sources
    /\ (forall k, k ∈ sources <-> exists vs, JsMap.get k m = Some vs /\ B ∈ vs)
    /\ (JsMap.get B m = None ->
          forall fwd, fwd ∈ contents [sub] (mapSubscriptions inputs [sub]) -> sub_topic fwd ≠ B)
    /\ (forall k (msg : @MessageEvent Payload),
          k ∈ sources -> topic msg = k ->
          with_topic msg B ∈ contents [msg] (mapMessages [msg] (buildMapping inputs))).
Proof.
  intros Hm HB (k0 & vs0 & Hget0 & HB0).
  destruct (built_mapping inputs m Hm) as [Hwf Hall].
  assert (Hiff : forall k, k ∈ sources_of B m <-> exists vs, JsMap.get k m = Some vs /\ B ∈ vs)
    by (intros k; by apply elem_of_sources_get).
  assert (Hk0 : k0 ∈ sources_of B m) by (apply Hiff; eauto).
  assert (Hfwd : contents [sub] (mapSubscriptions inputs [sub])
                 = map (with_sub_topic sub) (sources_of B m)).
  { rewrite mapSubscriptions_one, HB, (inverted_get inputs m) by done.
    by rewrite (entry_of_elem _ _ Hk0). }
  exists (sources_of B m). split_and!; [done | | | done | |].
  - intros Hnil. rewrite Hnil in Hk0. by apply elem_of_nil in Hk0.
  - apply sources_of_NoDup; [done |]. intros k vs Hin. by eapply Hall.
  - intros Hnone fwd. rewrite Hfwd. intros Hin.
    apply list_elem_of_fmap in Hin as (k & -> & Hk). simpl. intros ->.
    apply Hiff in Hk as (vs & Hget & _). congruence.
  - intros k msg Hk Htopic. apply Hiff in Hk as (vs & Hget & Ht).
    rewrite mapMessages_one, Hm. simpl. rewrite Htopic, Hget.
    apply list_elem_of_fmap. by exists B.
Qed.

(** X4. A topic that is renamed, and is not itself the new name of some
    topic, disappears under its own name: no mapped message and no mapped
    topic carries it, while a subscription to it is still forwarded
    unchanged. *)
Theorem renamed_away_topic_is_hidden inputs m A :
  buildMapping inputs = MapObj m ->
  is_Some (JsMap.get A m) ->
  (forall k vs, JsMap.get k m = Some vs -> A ∉ vs) ->
  (forall (messages : list (@MessageEvent Payload)) msg',
     msg' ∈ contents messages (mapMessages messages (buildMapping inputs)) -> topic msg' ≠ A)
  /\ (forall (topics : list Topic) tp',
        tp' ∈ contents topics (mapTopics topics (buildMapping inputs)) -> name tp' ≠ A)
  /\ (forall sub, sub_topic sub = A ->
        contents [sub] (mapSubscriptions inputs [sub]) = [sub]).
Proof.
  intros Hm [targets HA] Hnot. rewrite Hm.
  destruct (built_mapping inputs m Hm) as [Hwf Hall].
  split_and!.
  - intros messages msg' Hin. apply elem_of_mapMessages in Hin as (msg & _ & Hout).
    simpl in Hout. destruct (JsMap.get (topic msg) m) as [vs|] eqn:Hget.
    + destruct Hout as (t & Ht & ->). simpl. intros ->. by apply (Hnot _ _ Hget).
    + subst. intros E. congruence.
  - intros topics tp' Hin. apply elem_of_mapTopics in Hin as (tp & _ & Hout).
    simpl in Hout. destruct (JsMap.get (name tp) m) as [vs|] eqn:Hget.
    + destruct Hout as (n & Hn & ->). simpl. intros ->. by apply (Hnot _ _ Hget).
    + subst. intros E. congruence.
  - intros sub HsA. rewrite mapSubscriptions_one, (inverted_get inputs m), HsA by done.
    replace (sources_of A m) with (@nil string); [done |].
    symmetry. destruct (sources_of A m) as [|k l] eqn:E; [done |].
    assert (k ∈ sources_of A m) as Hk by (rewrite E; apply list_elem_of_here).
    apply elem_of_sources_get in Hk as (vs & Hget & Ht); [| done]. by destruct (Hnot k vs).
Qed.

(** X5. The mapped topic list keeps every topic that no mapper renames and
    holds, for a renamed topic, one copy for each new name; a copy carries
    the new name, records the name it comes from in [mappedFromName] and
    keeps the schema; nothing else is listed; and subscribing to the name
    of a copy forwards a subscription to the topic it comes from. *)
Theorem mapped_topics_record_their_origin inputs m (topics : list Topic) :
  buildMapping inputs = MapObj m ->
  let out := contents topics (mapTopics topics (buildMapping inputs)) in
  (length topics <= length out)%nat
  /\ (forall tp, tp ∈ topics -> JsMap.get (name tp) m = None -> tp ∈ out)
  /\ (forall tp targets n,
        tp ∈ topics -> JsMap.get (name tp) m = Some targets -> n ∈ targets ->
        with_name tp n ∈ out
        /\ name (with_name tp n) = n
        /\ mappedFromName (with_name tp n) = Some (name tp)
        /\ schemaName (with_name tp n) = schemaName tp
        /\ convertibleTo (with_name tp n) = convertibleTo tp
        /\ forall sub, sub_topic sub = n ->
             with_sub_topic sub (name tp) ∈ contents [sub] (mapSubscriptions inputs [sub]))
  /\ (forall tp', tp' ∈ out ->
        (tp' ∈ topics /\ JsMap.get (name tp') m = None)
        \/ exists tp targets,
             tp ∈ topics /\ JsMap.get (name tp) m = Some targets
             /\ name tp' ∈ targets /\ tp' = with_name tp (name tp')).
Proof.
  intros Hm out. subst out. rewrite Hm.
  destruct (built_mapping inputs m Hm) as [Hwf Hall].
  split_and!.
  - simpl. apply flat_map_length_ge. intros tp _.
    destruct (JsMap.get (name tp) m) as [targets|] eqn:Hget; [| done].
    apply get_Some_elem, Hall in Hget as [Hne _]. by destruct targets.
  - intros tp Hin Hnone. apply elem_of_mapTopics. exists tp. split; [done |].
    simpl. by rewrite Hnone.
  - intros tp targets n Hin Hget Hn. split_and!; try done.
    + apply elem_of_mapTopics. exists tp. split; [done |]. simpl. rewrite Hget. by exists n.
    + intros sub Hsub.
      rewrite mapSubscriptions_one, (inverted_get inputs m), Hsub by done.
      assert (Hk : name tp ∈ sources_of n m) by (apply elem_of_sources_get; eauto).
      rewrite (entry_of_elem _ _ Hk). apply list_elem_of_fmap. by exists (name tp).
  - intros tp' Hin. apply elem_of_mapTopics in Hin as (tp & Hin & Hout). simpl in Hout.
    destruct (JsMap.get (name tp) m) as [targets|] eqn:Hget.
    + destruct Hout as (n & Hn & ->). right. exists tp, targets. by split_and!.
    + subst. by left.
Qed.

(** *** Blocks and keyed topic sets *)

Lemma insert_index_get {V : Type} (i : N) (key : string) (v : V) (o : list (string * V)) t :
  JsMap.get key o = None ->
  JsMap.get t (PlainObject.insert_index i key v o)
  = if decide (t = key) then Some v else JsMap.get t o.
Proof.
  induction o as [|[k' v'] o IH]; intros Hnone; simpl.
  - by destruct (decide (t = key)).
  - simpl in Hnone. destruct (decide (key = k')) as [->|Hk]; [done |].
    destruct (PlainObject.array_index k') as [j|]; [destruct (i <? j)%N |]; simpl.
    + by destruct (decide (t = key)).
    + rewrite IH by done.
      destruct (decide (t = k')) as [->|Hne]; [by rewrite decide_False |]. done.
    + by destruct (decide (t = key)).
Qed.

(** Reading a property after an assignment to a plain object. *)
Lemma assign_get {V : Type} (key : string) (v : V) (o : list (string * V)) t :
  JsMap.get t (PlainObject.assign key v o)
  = if decide (t = key /\ key ≠ "__proto__") then Some v else JsMap.get t o.
Proof.
  unfold PlainObject.assign. destruct (decide (key = "__proto__")) as [Hp|Hp].
  { rewrite decide_False; [done | by intros [_ ?]]. }
  assert (Hset : JsMap.get t (JsMap.set key v o)
                 = if decide (t = key /\ key ≠ "__proto__") then Some v else JsMap.get t o).
  { destruct (decide (t = key)) as [->|Hne].
    - by rewrite get_set_eq, decide_True.
    - rewrite get_set_ne by done. rewrite decide_False; [done | by intros [? _]]. }
  destruct (JsMap.get key o) as [x|] eqn:Hget; [done |].
  destruct (PlainObject.array_index key) as [i|]; [| done].
  rewrite insert_index_get by done.
  destruct (decide (t = key)) as [->|Hne].
  - by rewrite decide_True.
  - rewrite decide_False; [done | by intros [? _]].
Qed.

Lemma fold_assign_get {V : Type} (f : string -> V) (l : list string) :
  forall (acc : list (string * V)) t,
    JsMap.get t (fold_left (fun acc k => PlainObject.assign k (f k) acc) l acc)
    = if decide (t ∈ l /\ t ≠ "__proto__") then Some (f t) else JsMap.get t acc.
Proof.
  induction l as [|x l IH]; intros acc t; cbn [fold_left].
  - rewrite decide_False; [done |]. intros [Hin _]. by apply elem_of_nil in Hin.
  - rewrite IH, assign_get. destruct (decide (t ∈ l /\ t ≠ "__proto__")) as [[Hin Hp]|Hnin].
    + rewrite decide_True; [done |]. split; [by apply list_elem_of_further | done].
    + destruct (decide (t = x /\ x ≠ "__proto__")) as [[-> Hp]|Hne].
      * rewrite decide_True; [done |]. split; [apply list_elem_of_here | done].
      * rewrite decide_False; [done |]. intros [Hin Hp]. apply elem_of_cons in Hin as [->|Hin].
        -- by apply Hne.
        -- by apply Hnin.
Qed.

Lemma mapBlocks_step_get m (acc : list (string * list (@MessageEvent Payload))) tp messages t :
  JsMap.get t (mapBlocks_step m acc (tp, messages))
  = if decide (t ∈ default [tp] (JsMap.get tp m) /\ t ≠ "__proto__")
    then Some match JsMap.get tp m with
              | Some _ => map (fun msg => with_topic msg t) messages
              | None => messages
              end
    else JsMap.get t acc.
Proof.
  unfold mapBlocks_step. destruct (JsMap.get tp m) as [mappings|]; simpl.
  - apply (fold_assign_get
             (fun mappedTopic => map (fun msg => with_topic msg mappedTopic) messages)).
  - rewrite assign_get. destruct (decide (t = tp /\ tp ≠ "__proto__")) as [[-> Hp]|Hne].
    + rewrite decide_True; [done |]. split; [apply list_elem_of_here | done].
    + rewrite decide_False; [done |]. rewrite list_elem_of_singleton.
      intros [-> Hp]. by apply Hne.
Qed.

Lemma mapBlocks_fold_get m (entries : list (string * list (@MessageEvent Payload))) t :
  JsMap.get t (fold_left (mapBlocks_step m) entries [])
  = if decide (t = "__proto__") then None
    else
      match last (filter (fun entry => t ∈ default [entry.1] (JsMap.get entry.1 m)) entries) with
      | Some (tp, messages) =>
          Some match JsMap.get tp m with
               | Some _ => map (fun msg => with_topic msg t) messages
               | None => messages
               end
      | None => None
      end.
Proof.
  induction entries as [|[tp messages] entries IH] using rev_ind.
  { by destruct (decide (t = "__proto__")). }
  rewrite fold_left_app, filter_app, last_app. cbn [fold_left].
  rewrite mapBlocks_step_get, IH, filter_cons. cbn [fst].
  destruct (decide (t = "__proto__")) as [Hp|Hp].
  - rewrite decide_False; [done | by intros [_ ?]].
  - destruct (decide (t ∈ default [tp] (JsMap.get tp m))) as [Hin|Hnin].
    + by rewrite decide_True.
    + rewrite decide_False; [done | by intros [? _]].
Qed.

(** X6. [mapBlocks] keeps the number of blocks, the undefined blocks and
    the size recorded for each block.  A mapped block has no property named
    [__proto__]: an assignment under that name creates none.  Under any
    other name the messages are those of the last topic of the block, in
    the order its topics are visited, that is mapped to that name or is,
    unmapped, that name; they are renamed when the topic is mapped.  What
    an earlier topic placed under the same name is overwritten. *)
Theorem mapped_blocks_keep_the_last_writer (blocks : list (option (@MessageBlock Payload))) m :
  let out := contents blocks (mapBlocks blocks (MapObj m)) in
  length out = length blocks
  /\ (forall i, out !! i = Some None <-> blocks !! i = Some None)
  /\ (forall i b,
        blocks !! i = Some (Some b) ->
        exists b',
          out !! i = Some (Some b')
          /\ block_sizeInBytes b' = block_sizeInBytes b
          /\ forall t,
               JsMap.get t (messagesByTopic b')
               = if decide (t = "__proto__") then None
                 else
                   match last (filter (fun entry => t ∈ default [entry.1] (JsMap.get entry.1 m))
                                 (messagesByTopic b)) with
                   | Some (tp, messages) =>
                       Some match JsMap.get tp m with
                            | Some _ => map (fun msg => with_topic msg t) messages
                            | None => messages
                            end
                   | None => None
                   end).
Proof.
  intros out. subst out. simpl.
  match goal with |- context [map ?f blocks] => change (map f blocks) with (f <$> blocks) end.
  split_and!.
  - by rewrite length_fmap.
  - intros i. rewrite list_lookup_fmap. destruct (blocks !! i) as [[b|]|]; simpl; split; done.
  - intros i b Hi. eexists. rewrite list_lookup_fmap, Hi. simpl. split; [done |].
    split; [done |]. intros t. simpl. apply mapBlocks_fold_get.
Qed.

Lemma set_fresh {V : Type} (acc : list (string * V)) k v :
  k ∉ acc.*1 -> JsMap.set k v acc = acc ++ [(k, v)].
Proof.
  induction acc as [|[k' v'] acc IH]; intros Hk; [done |]. simpl in *.
  apply not_elem_of_cons in Hk as [Hne Hk].
  rewrite decide_False by done. by rewrite IH.
Qed.

Lemma mapKeyedTopics_fold m (topics : list (string * list string)) :
  forall acc : list (string * list string),
    NoDup ((acc ++ topics).*1) ->
    fold_left
      (fun mappedTopics '(key, values) =>
         let mappedValues :=
           flat_map (fun value => default [value] (JsMap.get value m)) values in
         JsMap.set key (uniq mappedValues) mappedTopics)
      topics acc
    = acc ++ map (fun '(key, values) =>
                    (key, uniq (flat_map (fun value => default [value] (JsMap.get value m)) values)))
               topics.
Proof.
  induction topics as [|[key values] topics IH]; intros acc Hnd; simpl.
  - by rewrite app_nil_r.
  - replace (acc ++ (key, values) :: topics) with ((acc ++ [(key, values)]) ++ topics) in Hnd
      by (by rewrite <- app_assoc).
    rewrite set_fresh.
    + rewrite IH; [by rewrite <- app_assoc |].
      by rewrite !fmap_app in *.
    + rewrite !fmap_app in Hnd. apply NoDup_app in Hnd as (Hnd & _ & _).
      apply NoDup_app in Hnd as (_ & Hdisj & _). intros Hin.
      apply (Hdisj key Hin). apply list_elem_of_here.
Qed.

(** X7. [mapKeyedTopics] keeps the keys of the map, in their order, and
    replaces the set of each key by the set of the names its members are
    mapped to, a member that is not mapped standing for itself; the new
    sets have no duplicates. *)
Theorem mapped_keyed_topics_keep_their_keys (topics : list (string * list string)) m :
  JsMap.wf topics ->
  let renamed values := flat_map (fun value => default [value] (JsMap.get value m)) values in
  let out := contents topics (mapKeyedTopics topics (MapObj m)) in
  out = map (fun '(key, values) => (key, uniq (renamed values))) topics
  /\ out.*1 = topics.*1
  /\ (forall key values,
        JsMap.get key topics = Some values ->
        exists values',
          JsMap.get key out = Some values'
          /\ NoDup values'
          /\ forall v', v' ∈ values'
               <-> exists v, v ∈ values /\ v' ∈ default [v] (JsMap.get v m)).
Proof.
  intros Hwf renamed out.
  assert (Hout : out = map (fun '(key, values) => (key, uniq (renamed values))) topics).
  { exact (mapKeyedTopics_fold m topics [] Hwf). }
  assert (Hkeys : out.*1 = topics.*1).
  { rewrite Hout. rewrite <- list_fmap_compose. apply list_fmap_ext. by intros i [k vs]. }
  split_and!; [done | done |].
  intros key values Hget. exists (uniq (renamed values)). split_and!.
  - apply elem_get_wf; [unfold JsMap.wf; by rewrite Hkeys |].
    rewrite Hout. apply list_elem_of_fmap. exists (key, values).
    split; [done | by apply get_Some_elem].
  - apply NoDup_uniq.
  - intros v'. rewrite elem_of_uniq. subst renamed. simpl.
    rewrite list_elem_of_In, in_flat_map. split.
    + intros (v & Hv & Hv'). exists v. by rewrite !list_elem_of_In.
    + intros (v & Hv & Hv'). exists v. by rewrite <- !list_elem_of_In.
Qed.

(** *** The whole player state *)

(** X8. When no mapper renames anything, [mapPlayerState] returns a state
    equal to the one it is given, field by field. *)
Theorem mapPlayerState_is_the_identity_without_renames inputs (st : @PlayerState Payload) :
  Forall (fun proposed => proposed = []) (run_mappers inputs) ->
  mapPlayerState inputs st = st.
Proof.
  intros Hall.
  assert (Hb : buildMapping inputs = EmptyMapping).
  { unfold buildMapping.
    replace (existsb _ (run_mappers inputs)) with false; [done |].
    symmetry. induction Hall as [|mp maps -> _ IH]; [done | exact IH]. }
  unfold mapPlayerState. rewrite Hb. simpl.
  destruct st as [pid [ad|] [ranges [cache|]]]; simpl; try done.
  - destruct ad as [msgs tps time [pt|] [stp|]]; simpl; done.
  - destruct ad as [msgs tps time [pt|] [stp|]]; simpl; done.
Qed.

(** X9. If every message of a state is on a topic of its topic list, the
    same holds of the mapped state: a mapped message is on a topic of the
    mapped topic list. *)
Theorem mapped_messages_stay_on_listed_topics inputs (st : @PlayerState Payload) ad :
  activeData st = Some ad ->
  (forall msg, msg ∈ ad_messages ad -> exists tp, tp ∈ ad_topics ad /\ name tp = topic msg) ->
  exists ad',
    activeData (mapPlayerState inputs st) = Some ad'
    /\ forall msg', msg' ∈ ad_messages ad' ->
         exists tp', tp' ∈ ad_topics ad' /\ name tp' = topic msg'.
Proof.
  intros Had Hlisted. unfold mapPlayerState. rewrite Had. simpl.
  eexists. split; [done |]. simpl. intros msg' Hin.
  destruct (buildMapping inputs) as [|m]; simpl in *; [by apply Hlisted |].
  apply list_elem_of_In, in_flat_map in Hin as (msg & Hmsg & Hout).
  apply list_elem_of_In in Hmsg. destruct (Hlisted msg Hmsg) as (tp & Htp & Hname).
  destruct (JsMap.get (topic msg) m) as [targets|] eqn:Hget.
  - apply list_elem_of_In, list_elem_of_fmap in Hout as (t & -> & Ht).
    exists (with_name tp t). split; [| done].
    apply list_elem_of_In, in_flat_map. exists tp. split; [by apply list_elem_of_In |].
    rewrite Hname, Hget. apply list_elem_of_In, list_elem_of_fmap. by exists t.
  - apply list_elem_of_In, list_elem_of_singleton in Hout as ->.
    exists tp. split; [| done].
    apply list_elem_of_In, in_flat_map. exists tp. split; [by apply list_elem_of_In |].
    rewrite Hname, Hget. apply list_elem_of_In, list_elem_of_here.
Qed.
End MappingInvariants.

(** The fan-in mappers [A → B], [D → B]: a subscription to [B] reaches [A]
    and [D], and a message on [D] comes back on [B]. *)
Lemma forwarded_subscriptions_are_exactly_the_sources_witness :
  exists sources,
    contents [Samples.sub "B"] (mapSubscriptions Samples.fan_in_inputs [Samples.sub "B"])
    = map (with_sub_topic (Samples.sub "B")) sources
    /\ ("D" ∈ sources)
    /\ NoDup sources
    /\ with_topic (Samples.msg "D") "B"
       ∈ contents [Samples.msg "D"]
           (mapMessages [Samples.msg "D"] (buildMapping Samples.fan_in_inputs)).
Proof.
  destruct (forwarded_subscriptions_are_exactly_the_sources (Payload := string)
              Samples.fan_in_inputs [("A", ["B"]); ("D", ["B"])] "B" (Samples.sub "B"))
    as (sources & Hfwd & _ & Hnd & Hiff & _ & Hback).
  - reflexivity.
  - reflexivity.
  - exists "A", ["B"]. split; [reflexivity | apply list_elem_of_here].
  - assert (HD : "D" ∈ sources).
    { apply Hiff. exists ["B"]. split; [reflexivity | apply list_elem_of_here]. }
    exists sources. split_and!; [exact Hfwd | exact HD | exact Hnd |].
    exact (Hback "D" (Samples.msg "D") HD eq_refl).
Defined.

(** The fan-out mappers [A → B], [A → C]: nothing is delivered on [A]. *)
Lemma renamed_away_topic_is_hidden_witness :
  (forall msg' : @MessageEvent string,
     msg' ∈ contents [Samples.msg "A"]
              (mapMessages [Samples.msg "A"] (buildMapping Samples.fan_out_inputs)) ->
     topic msg' ≠ "A")
  /\ contents [Samples.sub "A"] (mapSubscriptions Samples.fan_out_inputs [Samples.sub "A"])
     = [Samples.sub "A"].
Proof.
  destruct (renamed_away_topic_is_hidden (Payload := string)
              Samples.fan_out_inputs [("A", ["B"; "C"])] "A")
    as (Hmsgs & _ & Hsub).
  - reflexivity.
  - by eexists.
  - intros k vs Hget. simpl in Hget.
    destruct (decide (k = "A")); [| done]. injection Hget as <-.
    rewrite !not_elem_of_cons. split_and!; [done | done | apply not_elem_of_nil].
  - split; [apply Hmsgs | by apply Hsub].
Defined.

(** The topics of the tests of [mapPlayerState]. *)
Lemma mapped_topics_record_their_origin_witness :
  with_name (mkTopic "/topic_1" (Some "whatever") None None) "/renamed_topic_1"
    ∈ contents Samples.test_topics
        (mapTopics Samples.test_topics (buildMapping Samples.rename_inputs))
  /\ with_sub_topic (Samples.sub "/renamed_topic_1") "/topic_1"
       ∈ contents [Samples.sub "/renamed_topic_1"]
           (mapSubscriptions Samples.rename_inputs [Samples.sub "/renamed_topic_1"]).
Proof.
  destruct (mapped_topics_record_their_origin Samples.rename_inputs
              [("/topic_1", ["/renamed_topic_1"])] Samples.test_topics eq_refl)
    as (_ & _ & Hcopy & _).
  destruct (Hcopy (mkTopic "/topic_1" (Some "whatever") None None)
              ["/renamed_topic_1"] "/renamed_topic_1")
    as (Hin & _ & _ & _ & _ & Hsub).
  - apply list_elem_of_here.
  - reflexivity.
  - apply list_elem_of_here.
  - split; [exact Hin | exact (Hsub (Samples.sub "/renamed_topic_1") eq_refl)].
Defined.

(** The published topics of the tests of [mapPlayerState]. *)
Lemma mapped_keyed_topics_keep_their_keys_witness :
  contents [("1", ["/topic_1"; "/topic_2"]); ("2", ["/topic_2"])]
    (mapKeyedTopics [("1", ["/topic_1"; "/topic_2"]); ("2", ["/topic_2"])]
       (MapObj [("/topic_1", ["/renamed_topic_1"])]))
  = [("1", ["/renamed_topic_1"; "/topic_2"]); ("2", ["/topic_2"])].
Proof.
  destruct (mapped_keyed_topics_keep_their_keys
              [("1", ["/topic_1"; "/topic_2"]); ("2", ["/topic_2"])]
              [("/topic_1", ["/renamed_topic_1"])])
    as (Hout & _).
  - unfold JsMap.wf. simpl. apply NoDup_cons. split; [| apply NoDup_singleton].
    rewrite list_elem_of_singleton. done.
  - exact Hout.
Defined.

Lemma mapPlayerState_is_the_identity_without_renames_witness :
  mapPlayerState Samples.idle_inputs Samples.state_with_messages = Samples.state_with_messages.
Proof.
  apply (mapPlayerState_is_the_identity_without_renames Samples.idle_inputs).
  repeat constructor.
Defined.

Lemma mapped_messages_stay_on_listed_topics_witness :
  exists ad',
    activeData (mapPlayerState Samples.rename_inputs Samples.state_with_messages) = Some ad'
    /\ forall msg', msg' ∈ ad_messages ad' ->
         exists tp', tp' ∈ ad_topics ad' /\ name tp' = topic msg'.
Proof.
  eapply (mapped_messages_stay_on_listed_topics Samples.rename_inputs
            Samples.state_with_messages).
  - reflexivity.
  - intros msg Hin. simpl in Hin.
    apply elem_of_cons in Hin as [->|Hin].
    + eexists. split; [apply list_elem_of_here | reflexivity].
    + apply list_elem_of_singleton in Hin as ->.
      eexists. split; [apply list_elem_of_further, list_elem_of_here | reflexivity].
Defined.

(** ** The player over a whole run of calls *)

Section PlayerRunFacts.
Context {Payload GlobalVariables : Type}.
Implicit Types (p : @TopicMappingPlayer Payload GlobalVariables).
Implicit Types (op : @PlayerOp Payload GlobalVariables).
Implicit Types (ops : list (@PlayerOp Payload GlobalVariables)).

Lemma onPlayerState_inputs p state :
  mappers (tmp_inputs (onPlayerState p state)) = mappers (tmp_inputs p)
  /\ variables (tmp_inputs (onPlayerState p state)) = variables (tmp_inputs p)
  /\ has_listener (onPlayerState p state) = has_listener p.
Proof.
  unfold onPlayerState. destruct (skipMapping p) eqn:Hskip.
  - by destruct (notify_listener_fields p state) as (-> & _ & _ & -> & _).
  - match goal with |- context [notify_listener ?s ?q] =>
      destruct (notify_listener_fields q s) as (Hi & Hp & Hs & Hl & _);
      set (p1 := notify_listener s q) in *
    end.
    simpl in Hi, Hl, Hs.
    destruct (pendingSubscriptions p1); [| by rewrite Hi, Hl].
    destruct (topics (tmp_inputs p1)) eqn:Ht; [| by rewrite Hi, Hl].
    unfold setSubscriptions. rewrite Hs, Ht. simpl. by rewrite Hi, Hl.
Qed.

Lemma setSubscriptions_inputs p subs :
  tmp_inputs (setSubscriptions p subs) = tmp_inputs p
  /\ has_listener (setSubscriptions p subs) = has_listener p.
Proof.
  unfold setSubscriptions. destruct (skipMapping p); [done |].
  by destruct (topics (tmp_inputs p)).
Qed.

Lemma apply_op_consistent p op : consistent p -> consistent (apply_op p op).
Proof.
  destruct op; simpl; intros Hc.
  - done.
  - apply setMappers_consistent.
  - by apply setSubscriptions_consistent.
  - by apply setGlobalVariables_consistent.
  - by apply onPlayerState_consistent.
Qed.

(** X10. Whatever is called on a player, in whatever order, it maps with
    the mappers of the last [setMappers] call and the variables of the last
    [setGlobalVariables] call (those of the constructor when there was no
    such call), and it skips mapping exactly when that list of mappers is
    empty. *)
Theorem player_tracks_latest_mappers_and_variables
    (mappers0 : list (@TopicMapper GlobalVariables)) (variables0 : GlobalVariables) ops :
  let p := run_ops (new_TopicMappingPlayer (Payload := Payload) mappers0 variables0) ops in
  skipMapping p = bool_decide (length (mappers (tmp_inputs p)) = 0%nat)
  /\ mappers (tmp_inputs p) = default mappers0 (last (omap mappers_of ops))
  /\ variables (tmp_inputs p) = default variables0 (last (omap variables_of ops)).
Proof.
  intros p. subst p.
  induction ops as [|op ops IH] using rev_ind; [done |].
  unfold run_ops in *. rewrite fold_left_app. simpl.
  set (p := fold_left apply_op ops _) in *.
  destruct IH as (Hc & Hm & Hv).
  split; [by apply apply_op_consistent |].
  rewrite !omap_app, !last_app. simpl.
  destruct op as [|ms|subs|v|st]; simpl.
  - done.
  - done.
  - by destruct (setSubscriptions_inputs p subs) as [-> _].
  - done.
  - by destruct (onPlayerState_inputs p st) as (-> & -> & _).
Qed.

Lemma run_transparent p ops :
  skipMapping p = true -> mappers (tmp_inputs p) = [] ->
  Forall keeps_no_mapper ops ->
  calls (run_ops p ops) = calls p ++ direct_calls (has_listener p) ops
  /\ pendingSubscriptions (run_ops p ops) = pendingSubscriptions p
  /\ topics (tmp_inputs (run_ops p ops)) = topics (tmp_inputs p).
Proof.
  revert p. induction ops as [|op ops IH]; intros p Hskip Hm Hall.
  { simpl. by rewrite app_nil_r. }
  apply Forall_cons in Hall as [Hop Hall]. unfold run_ops in *. cbn [fold_left].
  destruct op as [|ms|subs|v|st]; cbn [apply_op direct_calls].
  - destruct (IH (setListener p)) as (-> & -> & ->); [done | done | done |].
    simpl. by rewrite <- app_assoc.
  - simpl in Hop. subst ms.
    destruct (IH (setMappers p [])) as (-> & -> & ->); done.
  - unfold setSubscriptions. rewrite Hskip.
    destruct (IH (call (InnerSetSubscriptions subs) p)) as (-> & -> & ->); [done | done | done |].
    simpl. by rewrite <- app_assoc.
  - destruct (IH (setGlobalVariables p v)) as (-> & -> & ->); [done | done | done |].
    simpl. by rewrite <- app_assoc.
  - unfold onPlayerState. rewrite Hskip.
    destruct (notify_listener_fields p st) as (Hi & Hp & Hs & Hl & Hc).
    destruct (IH (notify_listener st p)) as (-> & -> & ->);
      [by rewrite Hs | by rewrite Hi | done |].
    rewrite Hc, Hl, Hp, Hi. by rewrite <- app_assoc.
Qed.

(** X11. A player that is built without mappers and is never given any is
    transparent: the wrapped player receives every request unchanged and in
    order, the listener receives every state unchanged once it is set,
    no subscription is ever held back and no topic list is recorded. *)
Theorem player_without_mappers_is_transparent (variables0 : GlobalVariables) ops :
  Forall keeps_no_mapper ops ->
  let p := run_ops (new_TopicMappingPlayer (Payload := Payload) [] variables0) ops in
  calls p = direct_calls false ops
  /\ pendingSubscriptions p = None
  /\ topics (tmp_inputs p) = None.
Proof.
  intros Hall p. subst p.
  by destruct (run_transparent (new_TopicMappingPlayer [] variables0) ops eq_refl eq_refl Hall)
    as (-> & -> & ->).
Qed.

(** X12. Subscriptions that are held back when the mappers are removed
    stay held back: after [setMappers([])], however many states the wrapped
    player reports, the pending request is still pending and no
    subscription request has reached the wrapped player; the states are
    passed to the listener unchanged. *)
Theorem pending_request_is_stranded_without_mappers p pending
    (states : list (@PlayerState Payload)) :
  pendingSubscriptions p = Some pending ->
  let p' := run_ops (setMappers p []) (map OpPlayerState states) in
  pendingSubscriptions p' = Some pending
  /\ calls p' = calls p ++ (if has_listener p then map ListenerCalled states else [])
  /\ forall subs, InnerSetSubscriptions subs ∈ calls p' -> InnerSetSubscriptions subs ∈ calls p.
Proof.
  intros Hp p'.
  assert (Hall : Forall keeps_no_mapper (map (@OpPlayerState Payload GlobalVariables) states)).
  { apply Forall_forall. intros op Hin. apply list_elem_of_fmap in Hin as (st & -> & _). done. }
  destruct (run_transparent (setMappers p []) _ eq_refl eq_refl Hall) as (Hc & Hpd & _).
  fold p' in Hc, Hpd. simpl in Hc, Hpd.
  assert (Hd : direct_calls (has_listener p) (map (@OpPlayerState Payload GlobalVariables) states)
               = if has_listener p then map ListenerCalled states else []).
  { clear. induction states as [|st states IH]; simpl; [by destruct (has_listener p) |].
    rewrite IH. by destruct (has_listener p). }
  rewrite Hd in Hc. split_and!; [by rewrite Hpd | done |].
  intros subs. rewrite Hc, elem_of_app. intros [?|Hin]; [done |].
  destruct (has_listener p); [| by apply elem_of_nil in Hin].
  apply list_elem_of_fmap in Hin as (st & [=] & _).
Qed.

(** X13. With at least one mapper, a state from the wrapped player
    replaces the topic list the player maps with by the topics of that state,
    or by none when the state has no active data.  So after a state
    without active data a new subscription request is held back again, even
    if topics were known before; after a state with active data nothing is
    pending and a request is mapped with the topics of that state and
    forwarded at once. *)
Theorem mapping_follows_the_latest_player_state p (state : @PlayerState Payload) :
  consistent p ->
  mappers (tmp_inputs p) ≠ [] ->
  let p' := onPlayerState p state in
  tmp_inputs p' =
    {| mappers := mappers (tmp_inputs p);
       topics := option_map ad_topics (activeData state);
       variables := variables (tmp_inputs p) |}
  /\ (activeData state = None ->
        forall subs, setSubscriptions p' subs = set_pending (Some subs) p')
  /\ (is_Some (activeData state) ->
        pendingSubscriptions p' = None
        /\ forall subs,
             setSubscriptions p' subs
             = set_pending None
                 (call (InnerSetSubscriptions
                          (contents subs (mapSubscriptions (tmp_inputs p') subs))) p')).
Proof.
  intros Hc Hne p'. unfold consistent in Hc.
  assert (Hskip : skipMapping p = false).
  { rewrite Hc. apply bool_decide_eq_false. by destruct (mappers (tmp_inputs p)). }
  assert (Hfields : tmp_inputs p' =
    {| mappers := mappers (tmp_inputs p);
       topics := option_map ad_topics (activeData state);
       variables := variables (tmp_inputs p) |}
    /\ skipMapping p' = false
    /\ (is_Some (activeData state) -> pendingSubscriptions p' = None)).
  { subst p'. unfold onPlayerState. rewrite Hskip.
    match goal with |- context [notify_listener ?s ?q] =>
      destruct (notify_listener_fields q s) as (Hi & Hp & Hs & Hl & _);
      set (p1 := notify_listener s q) in *
    end.
    simpl in Hi, Hp, Hs.
    destruct (pendingSubscriptions p1) as [pending|] eqn:Hpend.
    - destruct (topics (tmp_inputs p1)) as [tps|] eqn:Ht.
      + unfold setSubscriptions. rewrite Hs, Ht. simpl. rewrite Hi, Hs. done.
      + split; [by rewrite Hi |]. split; [by rewrite Hs |]. intros [ad Had].
        rewrite Hi in Ht. simpl in Ht. by rewrite Had in Ht.
    - split; [by rewrite Hi |]. split; [by rewrite Hs | done]. }
  destruct Hfields as (Hi & Hs & Hpn).
  split_and!; [done | |].
  - intros Hnone subs. unfold setSubscriptions. rewrite Hs, Hi. simpl. by rewrite Hnone.
  - intros [ad Had]. split; [apply Hpn; by eexists |].
    intros subs. unfold setSubscriptions at 1. rewrite Hs. rewrite Hi at 1. simpl.
    by rewrite Had.
Qed.
End PlayerRunFacts.

Lemma player_without_mappers_is_transparent_witness :
  calls (run_ops (new_TopicMappingPlayer (Payload := string) [] tt) Samples.plain_session)
  = [InnerSetListener; InnerSetSubscriptions [Samples.sub "/topic_1"];
     ListenerCalled Samples.state_with_topics].
Proof.
  destruct (player_without_mappers_is_transparent (Payload := string) tt Samples.plain_session)
    as (Hcalls & _).
  - repeat constructor.
  - exact Hcalls.
Defined.

(** A request made before any topic is known, then the mappers are removed. *)
Lemma pending_request_is_stranded_without_mappers_witness :
  pendingSubscriptions
    (run_ops (setMappers (setSubscriptions Samples.renaming_player [Samples.sub "/renamed_topic_1"]) [])
       (map OpPlayerState [Samples.state_with_topics]))
  = Some [Samples.sub "/renamed_topic_1"].
Proof.
  destruct (pending_request_is_stranded_without_mappers
              (setSubscriptions Samples.renaming_player [Samples.sub "/renamed_topic_1"])
              [Samples.sub "/renamed_topic_1"] [Samples.state_with_topics])
    as (Hpending & _).
  - reflexivity.
  - exact Hpending.
Defined.

Lemma mapping_follows_the_latest_player_state_witness :
  topics (tmp_inputs (onPlayerState Samples.renaming_player Samples.state_with_topics))
  = Some [mkTopic "/original_topic_1" (Some "any.schema") None None]
  /\ pendingSubscriptions (onPlayerState Samples.renaming_player Samples.state_with_topics) = None.
Proof.
  destruct (mapping_follows_the_latest_player_state Samples.renaming_player
              Samples.state_with_topics)
    as (Hinputs & _ & Hactive).
  - reflexivity.
  - discriminate.
  - split; [by rewrite Hinputs |]. apply Hactive. by eexists.
Defined.

(** ** Choosing a schema, and migrating once more *)

Section SchemaFacts.
Implicit Types (topic : Topic) (schemas : gset string).

Lemma find_app_fresh {A : Type} (f : A -> bool) (pre post : list A) x :
  (forall y, y ∈ pre -> f y = false) -> f x = true -> find f (pre ++ x :: post) = Some x.
Proof.
  induction pre as [|y pre IH]; intros Hpre Hx; simpl.
  - by rewrite Hx.
  - rewrite (Hpre y) by apply list_elem_of_here. apply IH; [| done].
    intros z Hz. by apply Hpre, list_elem_of_further.
Qed.

(** X14. [convertibleSchemaForTopic] finds a schema exactly when
    [topicIsConvertibleToSchema] holds.  The schema it finds is supported
    and is the topic's own schema or one it converts to; the own schema is
    chosen whenever it is supported, and otherwise the first supported
    schema of [convertibleTo], in the order of that list. *)
Theorem convertible_schema_prefers_the_own_schema topic schemas :
  (topicIsConvertibleToSchema topic schemas = true
   <-> is_Some (convertibleSchemaForTopic topic schemas))
  /\ (forall s, convertibleSchemaForTopic topic schemas = Some s ->
        s ∈ schemas
        /\ (schemaName topic = Some s
            \/ exists names, convertibleTo topic = Some names /\ s ∈ names))
  /\ (forall s, schemaName topic = Some s -> s ∈ schemas ->
        convertibleSchemaForTopic topic schemas = Some s)
  /\ (forall pre s post,
        (forall own, schemaName topic = Some own -> own ∉ schemas) ->
        convertibleTo topic = Some (pre ++ s :: post) ->
        (forall other, other ∈ pre -> other ∉ schemas) ->
        s ∈ schemas ->
        convertibleSchemaForTopic topic schemas = Some s).
Proof.
  unfold topicIsConvertibleToSchema, convertibleSchemaForTopic, has_schema.
  destruct topic as [nm [own|] conv from]; simpl.
  - destruct (decide (own ∈ schemas)) as [Hin|Hnin].
    + rewrite bool_decide_eq_true_2 by done. simpl. split_and!.
      * split; [by eexists | done].
      * intros s [= <-]. split; [done | by left].
      * by intros s [= <-] _.
      * intros pre s post Hown. by destruct (Hown own).
    + rewrite bool_decide_eq_false_2 by done. simpl. split_and!.
      * destruct conv as [names|]; simpl; [| split; [done | by intros [? ?]]].
        rewrite existsb_exists. split.
        -- intros (x & Hx & Hs). destruct (find _ names) eqn:E; [by eexists |].
           exfalso. eapply find_none in E; [| done]. simpl in E. congruence.
        -- intros [x Hx]. apply find_some in Hx as [? ?]. by exists x.
      * intros s Hs. destruct conv as [names|]; [| done]. simpl in Hs.
        apply find_some in Hs as [Hin Hs]. apply bool_decide_eq_true in Hs.
        split; [done |]. right. exists names. split; [done | by apply list_elem_of_In].
      * intros s [= <-] Hin. done.
      * intros pre s post _ -> Hpre Hs. simpl. apply find_app_fresh.
        -- intros y Hy. apply bool_decide_eq_false. by apply Hpre.
        -- by apply bool_decide_eq_true.
  - split_and!.
    + destruct conv as [names|]; simpl; [| split; [done | by intros [? ?]]].
      rewrite existsb_exists. split.
      * intros (x & Hx & Hs). destruct (find _ names) eqn:E; [by eexists |].
        exfalso. eapply find_none in E; [| done]. simpl in E. congruence.
      * intros [x Hx]. apply find_some in Hx as [? ?]. by exists x.
    + intros s Hs. destruct conv as [names|]; [| done]. simpl in Hs.
      apply find_some in Hs as [Hin Hs]. apply bool_decide_eq_true in Hs.
      split; [done |]. right. exists names. split; [done | by apply list_elem_of_In].
    + done.
    + intros pre s post _ -> Hpre Hs. simpl. apply find_app_fresh.
      * intros y Hy. apply bool_decide_eq_false. by apply Hpre.
      * by apply bool_decide_eq_true.
Qed.
End SchemaFacts.

Section MigrationFacts.
Context {BaseSettings OtherFields : Type}.
Context (ROS FOX : gset string).
Implicit Types (knownTopics : list Topic) (key schema : string).
Implicit Types (u n : gmap string (option BaseSettings)).
Implicit Types (config : option BaseSettings).

(** The schema that [convertibleSchemaForTopic] picks for the first known
    topic of a name is the destination of the specification's cases. *)
Lemma convertible_schema_is_the_destination knownTopics key :
  find (fun top => bool_decide (name top = key)) knownTopics
    ≫= (fun topic => convertibleSchemaForTopic topic (Config.ALL_SUPPORTED_SCHEMAS ROS FOX))
  = Config.spec_destination ROS FOX knownTopics key.
Proof.
  unfold Config.spec_destination, convertibleSchemaForTopic, has_schema.
  destruct (find _ knownTopics) as [tp|]; [| done]. simpl.
  destruct (schemaName tp) as [sn|]; [| done].
  destruct (decide (sn ∈ Config.ALL_SUPPORTED_SCHEMAS ROS FOX)).
  - by rewrite bool_decide_eq_true_2.
  - by rewrite bool_decide_eq_false_2.
Qed.

(** X15. The migration as a whole, for every config and every list of
    known topics, provided the empty string is not a supported schema (the
    migration tests a schema name for truth, [convertibleSchemaForTopic]
    does not).  The destination of a legacy entry is the schema that
    [convertibleSchemaForTopic] picks, among the supported schemas, for the
    first known topic of its name.  The call throws exactly when an entry
    has a destination with which [namespaceTopic] throws.  It returns the
    config it was given exactly when it does not throw and no entry has a
    destination.  Otherwise the new config files every entry that has a
    destination under its namespaced topic, over what the old namespaced
    map held there, keeps the rest of the old namespaced map and the other
    fields, and keeps in the legacy map the entries without a destination,
    all but one named [__proto__]. *)
Theorem migration_picks_the_convertible_schema
    (oldConfig : @Config.RendererConfig BaseSettings OtherFields) knownTopics :
  "" ∉ Config.ALL_SUPPORTED_SCHEMAS ROS FOX ->
  let destination key :=
    find (fun top => bool_decide (name top = key)) knownTopics
      ≫= (fun topic => convertibleSchemaForTopic topic (Config.ALL_SUPPORTED_SCHEMAS ROS FOX)) in
  let moves c nk :=
    exists key schema,
      Config.topics oldConfig !! key = Some c
      /\ destination key = Some schema /\ namespaceTopic key schema = Some nk in
  (Config.migrateConfigTopicsNodes ROS FOX oldConfig knownTopics = None
   <-> exists key c schema,
         Config.topics oldConfig !! key = Some c
         /\ destination key = Some schema /\ namespaceTopic key schema = None)
  /\ (Config.migrateConfigTopicsNodes ROS FOX oldConfig knownTopics = Some SameRef
      <-> forall key c schema,
            Config.topics oldConfig !! key = Some c -> destination key ≠ Some schema)
  /\ forall newConfig,
       Config.migrateConfigTopicsNodes ROS FOX oldConfig knownTopics = Some (NewObj newConfig) ->
       Config.others newConfig = Config.others oldConfig
       /\ (forall key c,
             Config.topics newConfig !! key = Some c
             <-> Config.topics oldConfig !! key = Some c
                 /\ destination key = None /\ key ≠ "__proto__")
       /\ (forall nk c,
             Config.namespacedTopics newConfig !! nk = Some c
             <-> moves c nk
                 \/ (Config.namespacedTopics oldConfig !! nk = Some c
                     /\ forall c', ~ moves c' nk)).
Proof.
  intros Hempty destination moves.
  assert (Hdest : forall key,
            destination key = Config.spec_destination ROS FOX knownTopics key).
  { intros key. apply convertible_schema_is_the_destination. }
  assert (Hnone : knownTopics = [] -> forall key, destination key = None).
  { intros -> key. reflexivity. }
  pose proof (migrate_loop ROS FOX Hempty knownTopics oldConfig) as Hloop.
  unfold Config.migrateConfigTopicsNodes.
  destruct (fold_left _ (map_to_list (Config.topics oldConfig)) (Some (∅, ∅)))
    as [[u' n']|] eqn:Hfold.
  - destruct Hloop as (Hu & Hn & Hok).
    assert (Hmoves : forall nk c, n' !! nk = Some c <-> moves c nk).
    { intros nk c. rewrite Hn. unfold moves. by setoid_rewrite Hdest. }
    assert (Hthrows : ~ exists key c schema,
                          Config.topics oldConfig !! key = Some c
                          /\ destination key = Some schema
                          /\ namespaceTopic key schema = None).
    { intros (key & c & schema & Hc & Hd & Hns). rewrite Hdest in Hd.
      destruct (Hok key c schema Hc Hd) as [nk Hnk]. congruence. }
    assert (Hsame : n' = ∅ <-> forall key c schema,
                       Config.topics oldConfig !! key = Some c ->
                       destination key ≠ Some schema).
    { split.
      - intros -> key c schema Hc Hd. rewrite Hdest in Hd.
        destruct (Hok key c schema Hc Hd) as [nk Hnk].
        assert (Hin : (∅ : gmap string (option BaseSettings)) !! nk = Some c).
        { apply Hn. by exists key, schema. }
        by rewrite lookup_empty in Hin.
      - intros Hall. apply map_eq. intros nk. rewrite lookup_empty.
        destruct (n' !! nk) as [c|] eqn:E; [| done].
        apply Hn in E as (key & schema & Hc & Hd & _). rewrite <- Hdest in Hd.
        by destruct (Hall key c schema Hc). }
    destruct knownTopics as [|tp rest] eqn:HT.
    + split_and!.
      * split; [done |]. intros H. by destruct Hthrows.
      * split; [| done]. intros _ key c schema _. by rewrite (Hnone eq_refl key).
      * done.
    + rewrite <- HT in *. simpl. destruct (decide (n' = ∅)) as [He|Hne].
      * split_and!.
        -- split; [done |]. intros H. by destruct Hthrows.
        -- split; [| done]. intros _. by apply Hsame.
        -- done.
      * split_and!.
        -- split; [done |]. intros H. by destruct Hthrows.
        -- split; [done |]. intros Hall. by apply Hsame in Hall.
        -- intros newConfig [= <-]. simpl. split_and!; [done | |].
           ++ intros key c. rewrite Hu. by rewrite Hdest.
           ++ intros nk c. rewrite lookup_union_Some_raw, Hmoves. split.
              ** intros [?|[Hnew Hold]]; [by left |]. right. split; [done |].
                 intros c' Hm. apply Hmoves in Hm. congruence.
              ** intros [?|[Hold Hno]]; [by left |]. right. split; [| done].
                 destruct (n' !! nk) as [c'|] eqn:E; [| done].
                 apply Hmoves in E. by destruct (Hno c').
  - destruct Hloop as (key & c & schema & Hc & Hd & Hns).
    destruct knownTopics as [|tp rest] eqn:HT.
    { exfalso. simpl in Hd. unfold Config.spec_destination in Hd. simpl in Hd. done. }
    rewrite <- HT in *. simpl. split_and!.
    + split; [| done]. intros _. exists key, c, schema. by rewrite Hdest.
    + split; [done |]. intros Hall. exfalso. apply (Hall key c schema Hc). by rewrite Hdest.
    + done.
Qed.

(** A turn of the loop either keeps the entry or tries to move it; which of
    the two depends on the key only. *)
Lemma migrate_entry_cases knownTopics key :
  (forall u n config,
     Config.migrate_entry ROS FOX knownTopics (Some (u, n)) (key, config)
     = Some (PlainObject.assign_property key config u, n))
  \/ exists tp schema,
       forall u n config,
         Config.migrate_entry ROS FOX knownTopics (Some (u, n)) (key, config)
         = mappedKey ← namespaceTopic tp schema;
           Some (u, PlainObject.assign_property mappedKey config n).
Proof.
  unfold Config.migrate_entry. simpl.
  destruct (find _ knownTopics) as [tp|]; [| by left].
  assert (Hconv :
    (forall u n config,
       match convertibleTo tp ≫= find (Config.supported ROS FOX) with
       | Some convertibleSchema =>
           if truthy convertibleSchema then
             mappedKey ← namespaceTopic (name tp) convertibleSchema;
             Some (u, PlainObject.assign_property mappedKey config n)
           else Some (PlainObject.assign_property key config u, n)
       | None => Some (PlainObject.assign_property key config u, n)
       end = Some (PlainObject.assign_property key config u, n))
    \/ exists tp' schema,
         forall u n config,
           match convertibleTo tp ≫= find (Config.supported ROS FOX) with
           | Some convertibleSchema =>
               if truthy convertibleSchema then
                 mappedKey ← namespaceTopic (name tp) convertibleSchema;
                 Some (u, PlainObject.assign_property mappedKey config n)
               else Some (PlainObject.assign_property key config u, n)
           | None => Some (PlainObject.assign_property key config u, n)
           end = mappedKey ← namespaceTopic tp' schema;
                 Some (u, PlainObject.assign_property mappedKey config n)).
  { destruct (convertibleTo tp ≫= find (Config.supported ROS FOX)) as [cs|]; [| by left].
    destruct (truthy cs); [| by left]. right. by exists (name tp), cs. }
  destruct (schemaName tp) as [sn|]; [| exact Hconv].
  destruct (truthy sn && Config.supported ROS FOX sn); [| exact Hconv].
  right. by exists (name tp), sn.
Qed.

Lemma migrate_fold_kept knownTopics (L : list (string * option BaseSettings)) :
  forall u n u' n',
    fold_left (Config.migrate_entry ROS FOX knownTopics) L (Some (u, n)) = Some (u', n') ->
    forall k v, u' !! k = Some v ->
      u !! k = Some v
      \/ forall u0 n0 c0,
           Config.migrate_entry ROS FOX knownTopics (Some (u0, n0)) (k, c0)
           = Some (PlainObject.assign_property k c0 u0, n0).
Proof.
  induction L as [|[key config] L IH]; intros u n u' n' Hfold k v Hk.
  { injection Hfold as <- <-. by left. }
  cbn [fold_left] in Hfold.
  destruct (migrate_entry_cases knownTopics key) as [Hstay|(tp & schema & Hmove)].
  - rewrite Hstay in Hfold.
    destruct (IH _ _ _ _ Hfold k v Hk) as [Hin|?]; [| by right].
    apply assign_property_Some in Hin as [(-> & _ & _)|[? _]]; [by right | by left].
  - rewrite Hmove in Hfold. destruct (namespaceTopic tp schema) as [nk|]; simpl in Hfold.
    + by apply (IH _ _ _ _ Hfold k v Hk).
    + by rewrite migrate_fold_None in Hfold.
Qed.

Lemma migrate_fold_all_kept knownTopics (L : list (string * option BaseSettings)) :
  (forall k v, (k, v) ∈ L ->
     forall u0 n0 c0,
       Config.migrate_entry ROS FOX knownTopics (Some (u0, n0)) (k, c0)
       = Some (PlainObject.assign_property k c0 u0, n0)) ->
  forall u n,
    exists u', fold_left (Config.migrate_entry ROS FOX knownTopics) L (Some (u, n)) = Some (u', n).
Proof.
  induction L as [|[key config] L IH]; intros Hall u n; [by exists u |].
  cbn [fold_left]. rewrite (Hall key config) by apply list_elem_of_here.
  apply IH. intros k v Hin. apply (Hall k v). by apply list_elem_of_further.
Qed.

(** X16. Migrating a migrated config with the same topics changes
    nothing: when [migrateConfigTopicsNodes] returns, without throwing, a
    second call on its result returns that result itself. *)
Theorem migration_is_idempotent
    (oldConfig : @Config.RendererConfig BaseSettings OtherFields) knownTopics r :
  Config.migrateConfigTopicsNodes ROS FOX oldConfig knownTopics = Some r ->
  Config.migrateConfigTopicsNodes ROS FOX (contents oldConfig r) knownTopics = Some SameRef.
Proof.
  intros Hfirst. pose proof Hfirst as Hcall.
  unfold Config.migrateConfigTopicsNodes in Hfirst.
  destruct knownTopics as [|tp rest] eqn:HT; [done |]. rewrite <- HT in *.
  destruct (fold_left _ (map_to_list (Config.topics oldConfig)) (Some (∅, ∅)))
    as [[u' n']|] eqn:Hfold; [| done].
  simpl in Hfirst.
  destruct (decide (n' = ∅)) as [->|Hne]; injection Hfirst as <-; [exact Hcall |].
  simpl. unfold Config.migrateConfigTopicsNodes. rewrite HT. rewrite <- HT. simpl.
  destruct (migrate_fold_all_kept knownTopics (map_to_list u'))
    with (u := ∅ : gmap string (option BaseSettings))
         (n := ∅ : gmap string (option BaseSettings)) as [u'' Hsecond].
  - intros k v Hin. apply elem_of_map_to_list in Hin.
    destruct (migrate_fold_kept _ _ _ _ _ _ Hfold k v Hin) as [Habs|?]; [| done].
    by rewrite lookup_empty in Habs.
  - rewrite Hsecond. simpl. by rewrite decide_True.
Qed.
End MigrationFacts.

(** The migration test of the repository: [topic_c] is known with an
    unsupported schema that converts to [foxglove.RawImage], and [topic_b]
    is not known. *)
Lemma migration_picks_the_convertible_schema_witness :
  Config.migrateConfigTopicsNodes ∅ Samples.foxglove_datatypes
       Samples.legacy_config Samples.known_topics = Some (NewObj Samples.migrated_config)
  /\ Config.namespacedTopics Samples.migrated_config !! "topic_c:foxglove.RawImage"
     = Some (Some tt)
  /\ Config.topics Samples.migrated_config !! "topic_b" = Some (Some tt).
Proof.
  assert (Hempty : "" ∉ Config.ALL_SUPPORTED_SCHEMAS ∅ Samples.foxglove_datatypes).
  { unfold Config.ALL_SUPPORTED_SCHEMAS, Samples.foxglove_datatypes.
    rewrite !not_elem_of_union, !not_elem_of_singleton.
    split_and!; [apply not_elem_of_empty | done ..]. }
  assert (Hcall : Config.migrateConfigTopicsNodes ∅ Samples.foxglove_datatypes
                    Samples.legacy_config Samples.known_topics
                  = Some (NewObj Samples.migrated_config)).
  { vm_compute. reflexivity. }
  destruct (migration_picks_the_convertible_schema ∅ Samples.foxglove_datatypes
              Samples.legacy_config Samples.known_topics Hempty) as (_ & _ & Hnew).
  destruct (Hnew Samples.migrated_config Hcall) as (_ & Hstay & Hmoved).
  split_and!; [exact Hcall | |].
  - apply Hmoved. left. exists "topic_c", "foxglove.RawImage".
    split_and!; reflexivity.
  - apply Hstay. split_and!; [reflexivity | reflexivity | discriminate].
Defined.

(** The migration test of the repository, run twice. *)
Lemma migration_is_idempotent_witness :
  Config.migrateConfigTopicsNodes ∅ Samples.foxglove_datatypes
    Samples.migrated_config Samples.known_topics = Some SameRef.
Proof.
  apply (migration_is_idempotent ∅ Samples.foxglove_datatypes Samples.legacy_config
           Samples.known_topics (NewObj Samples.migrated_config)).
  vm_compute. reflexivity.
Defined.

(** ** The shape of a namespaced topic *)

Section NamespaceFormat.
Implicit Types (c : ascii) (s : list ascii).

Lemma encode_byte_safe c : forallb uri_safe (encode_byte c) = true.
Proof. destruct c as [[] [] [] [] [] [] [] []]; vm_compute; reflexivity. Qed.

Lemma unreserved_ascii c : uri_safe c = true -> (byte_of c <? 128)%N = true.
Proof.
  destruct c as [[] [] [] [] [] [] [] []]; vm_compute; intros H; reflexivity || discriminate.
Qed.

Lemma uri_safe_not_colon c : uri_safe c = true -> c ≠ colon.
Proof.
  destruct c as [[] [] [] [] [] [] [] []]; vm_compute; intros H;
    discriminate || (intros E; discriminate).
Qed.

Lemma encode_bytes_safe s : Forall (fun c => uri_safe c = true) (encode_bytes s).
Proof.
  unfold encode_bytes. induction s as [|c s IH]; simpl; [constructor |].
  apply Forall_app. split; [| done].
  pose proof (encode_byte_safe c) as H. rewrite forallb_forall in H.
  apply Forall_forall. intros x Hx. by apply H, list_elem_of_In.
Qed.

Lemma filter_colon_safe s :
  Forall (fun c => uri_safe c = true) s -> filter (fun c => c = colon) s = [].
Proof.
  induction 1 as [|c s Hc _ IH]; [done |].
  rewrite filter_cons_False; [done |]. by apply uri_safe_not_colon.
Qed.

Lemma safe_well_formed s :
  Forall (fun c => (byte_of c <? 128)%N = true) s -> well_formed_bytes s = true.
Proof.
  induction 1 as [|c s Hc _ IH]; [done |].
  cbn [well_formed_bytes]. unfold seq_len. by rewrite Hc.
Qed.

(** X17. A namespaced topic is plain ASCII: apart from the one colon that
    separates its two parts it consists of unreserved characters and percent
    signs only, so it holds exactly one colon, every unit of it is below
    128, and it is itself a string [encodeURIComponent] accepts. *)
Theorem namespaced_topic_is_plain_ascii_with_one_colon (topic schema : string) nt :
  namespaceTopic topic schema = Some nt ->
  Forall (fun c => uri_safe c = true \/ c = colon) (list_ascii_of_string nt)
  /\ Forall (fun c => (byte_of c < 128)%N) (list_ascii_of_string nt)
  /\ length (filter (fun c => c = colon) (list_ascii_of_string nt)) = 1%nat
  /\ well_formed nt.
Proof.
  intros Hnt. unfold well_formed.
  apply namespaceTopic_Some in Hnt as (et & es & _ & _ & ->).
  pose proof (encode_bytes_safe (list_ascii_of_string topic)) as Ht.
  pose proof (encode_bytes_safe (list_ascii_of_string schema)) as Hs.
  assert (Hascii : Forall (fun c => (byte_of c <? 128)%N = true)
            (encode_bytes (list_ascii_of_string topic)
             ++ colon :: encode_bytes (list_ascii_of_string schema))).
  { apply Forall_app. split; [| constructor; [done |]].
    - eapply Forall_impl; [exact Ht |]. apply unreserved_ascii.
    - eapply Forall_impl; [exact Hs |]. apply unreserved_ascii. }
  split_and!.
  - apply Forall_app. split; [| constructor; [by right |]].
    + eapply Forall_impl; [exact Ht |]. by left.
    + eapply Forall_impl; [exact Hs |]. by left.
  - eapply Forall_impl; [exact Hascii |]. intros c Hc. by apply N.ltb_lt.
  - rewrite filter_app, filter_cons_True by done.
    by rewrite !filter_colon_safe.
  - by apply safe_well_formed.
Qed.

Lemma tokenize_plain s : percent ∉ s -> tokenize s = Some (map Raw s).
Proof.
  induction s as [|c s IH]; intros Hs; [done |].
  apply not_elem_of_cons in Hs as [Hc Hs]. simpl.
  rewrite decide_False by congruence. by rewrite IH.
Qed.

Lemma decode_tokens_raw s : decode_tokens (map Raw s) = Some s.
Proof. induction s as [|c s IH]; [done |]. simpl. by rewrite IH. Qed.

Lemma first_segment_plain s : colon ∉ s -> first_segment s = s.
Proof.
  induction s as [|c s IH]; intros Hs; [done |].
  apply not_elem_of_cons in Hs as [Hc Hs]. simpl.
  rewrite decide_False by congruence. by rewrite IH.
Qed.

Lemma tokenize_dangling_percent s : tokenize (s ++ [percent]) = None.
Proof.
  remember (length s) as n eqn:Hn. revert s Hn.
  induction n as [n IH] using lt_wf_ind. intros s ->.
  destruct s as [|c s]; [done |]. cbn [app tokenize].
  destruct (decide (c = percent)) as [->|Hne].
  - destruct s as [|h1 [|h2 s]]; cbn [app].
    + done.
    + destruct (hex_value h1); [| done]. by destruct (hex_value percent) eqn:E.
    + destruct (hex_value h1), (hex_value h2); try done.
      rewrite (IH (length s)); [done | simpl; lia | done].
  - rewrite (IH (length s)); [done | simpl; lia | done].
Qed.

(** X18. [unnamespacetopic] looks at nothing after the first colon.  A
    name without colon and percent sign is returned as it is; in general
    the result is the decoding of the text before the first colon, whatever
    follows; and the call throws when that text ends in a percent sign,
    whatever follows. *)
Theorem unnamespacetopic_reads_the_text_before_the_first_colon :
  (forall name : string,
     percent ∉ list_ascii_of_string name -> colon ∉ list_ascii_of_string name ->
     unnamespacetopic name = Some name)
  /\ (forall first rest : string,
        colon ∉ list_ascii_of_string first ->
        unnamespacetopic (first +:+ ":" +:+ rest) = decodeURIComponent first)
  /\ (forall first : string,
        colon ∉ list_ascii_of_string first ->
        unnamespacetopic (first +:+ "%") = None)
  /\ (forall first rest : string,
        colon ∉ list_ascii_of_string first ->
        unnamespacetopic (first +:+ "%:" +:+ rest) = None).
Proof.
  assert (Hpc : forall first : string,
    colon ∉ list_ascii_of_string first -> colon ∉ list_ascii_of_string first ++ [percent]).
  { intros first Hc. rewrite not_elem_of_app, list_elem_of_singleton. done. }
  split_and!.
  - intros name Hp Hc. unfold unnamespacetopic, decodeURIComponent.
    rewrite first_segment_plain by done.
    rewrite list_ascii_of_string_of_list_ascii, tokenize_plain by done.
    cbn [mbind option_bind]. rewrite decode_tokens_raw. simpl.
    by rewrite string_of_list_ascii_of_string.
  - intros first rest Hc. unfold unnamespacetopic.
    rewrite !list_ascii_of_string_app. simpl.
    rewrite first_segment_app by done. by rewrite string_of_list_ascii_of_string.
  - intros first Hc. unfold unnamespacetopic, decodeURIComponent.
    rewrite list_ascii_of_string_app. simpl.
    rewrite first_segment_plain by (by apply Hpc).
    by rewrite list_ascii_of_string_of_list_ascii, tokenize_dangling_percent.
  - intros first rest Hc. unfold unnamespacetopic, decodeURIComponent.
    replace (list_ascii_of_string (first +:+ "%:" +:+ rest))
      with ((list_ascii_of_string first ++ [percent]) ++ colon :: list_ascii_of_string rest)
      by (by rewrite !list_ascii_of_string_app, <- app_assoc).
    rewrite first_segment_app by (by apply Hpc).
    by rewrite list_ascii_of_string_of_list_ascii, tokenize_dangling_percent.
Qed.
End NamespaceFormat.

Lemma namespaced_topic_is_plain_ascii_with_one_colon_witness :
  length (filter (fun c => c = colon)
            (list_ascii_of_string "%2Frobot_description:std_msgs%2FString")) = 1%nat
  /\ well_formed "%2Frobot_description:std_msgs%2FString".
Proof.
  destruct (namespaced_topic_is_plain_ascii_with_one_colon
              "/robot_description" "std_msgs/String"
              "%2Frobot_description:std_msgs%2FString")
    as (_ & _ & Hone & Hwf).
  - reflexivity.
  - split; [exact Hone | exact Hwf].
Defined.

(** ** The image handler: settling, late and completing messages *)

Section HandlerMoreFacts.
Context {AnyImage CameraInfo AnnotationBody AnnotationMessage : Type}.
Context (getTimestampFromImage : AnyImage -> Time).
Context (normalizeAnnotations :
           AnnotationMessage -> string -> list (@Handler.Annotation AnnotationBody)).

Implicit Types
  (tree : list (Time * @Handler.SynchronizationItem AnyImage AnnotationBody AnnotationMessage))
  (item : @Handler.SynchronizationItem AnyImage AnnotationBody AnnotationMessage)
  (entry : Time * @Handler.SynchronizationItem AnyImage AnnotationBody AnnotationMessage)
  (visible : gset string)
  (h : @Handler.MessageHandler AnyImage CameraInfo AnnotationBody AnnotationMessage).

(** *** The scan and the pruning, without an assumption on the index *)

Lemma scan_from visible tree
    (acc : option (Time * @Handler.SynchronizationItem AnyImage AnnotationBody AnnotationMessage)) :
  fold_left
    (fun validEntry entry =>
       if bool_decide (is_Some (Handler.item_image entry.2))
          && Handler.hasOnlyVisibleAnnotations visible entry.2
       then Some entry else validEntry)
    tree acc
  = match (Handler.findSynchronizedSetAndRemoveOlderItems tree visible).1 with
    | Some entry => Some entry
    | None => acc
    end.
Proof.
  unfold Handler.findSynchronizedSetAndRemoveOlderItems.
  match goal with |- context [fold_left ?f tree None] => set (step := f) end.
  assert (H : forall acc, fold_left step tree acc
              = match fold_left step tree None with Some e => Some e | None => acc end).
  { clear acc. induction tree as [|e tree IH]; intros acc; [done |].
    cbn [fold_left]. rewrite (IH (step acc e)), (IH (step None e)).
    destruct (fold_left step tree None); [done |].
    unfold step. by destruct (_ && _). }
  rewrite H. by destruct (fold_left step tree None).
Qed.

Lemma scan_app visible tree1 tree2 :
  (Handler.findSynchronizedSetAndRemoveOlderItems (tree1 ++ tree2) visible).1
  = match (Handler.findSynchronizedSetAndRemoveOlderItems tree2 visible).1 with
    | Some entry => Some entry
    | None => (Handler.findSynchronizedSetAndRemoveOlderItems tree1 visible).1
    end.
Proof.
  assert (Hfst : forall tree,
    (Handler.findSynchronizedSetAndRemoveOlderItems tree visible).1
    = fold_left
        (fun validEntry entry =>
           if bool_decide (is_Some (Handler.item_image entry.2))
              && Handler.hasOnlyVisibleAnnotations visible entry.2
           then Some entry else validEntry)
        tree None).
  { intros tree. unfold Handler.findSynchronizedSetAndRemoveOlderItems.
    by destruct (fold_left _ tree None). }
  rewrite (Hfst (tree1 ++ tree2)), fold_left_app, scan_from, <- (Hfst tree1). done.
Qed.

Lemma scan_elem visible tree entry :
  (Handler.findSynchronizedSetAndRemoveOlderItems tree visible).1 = Some entry ->
  entry ∈ tree /\ Handler.is_synchronized visible entry.2.
Proof.
  induction tree as [|e tree IH] using rev_ind; [done |].
  rewrite scan_app.
  destruct (Handler.findSynchronizedSetAndRemoveOlderItems [e] visible).1 as [e'|] eqn:He.
  - intros [= ->]. unfold Handler.findSynchronizedSetAndRemoveOlderItems in He. simpl in He.
    destruct (bool_decide _ && _) eqn:Hq; simpl in He; [| done].
    injection He as <-. split; [apply elem_of_app; right; apply list_elem_of_here |].
    by apply qualifies_spec.
  - intros H. destruct (IH H) as [Hin Hq]. split; [| done]. apply elem_of_app. by left.
Qed.

Lemma find_snd visible tree :
  (Handler.findSynchronizedSetAndRemoveOlderItems tree visible).2
  = match (Handler.findSynchronizedSetAndRemoveOlderItems tree visible).1 with
    | Some entry => Handler.removeOlderItems tree entry.1
    | None => tree
    end.
Proof.
  unfold Handler.findSynchronizedSetAndRemoveOlderItems.
  by destruct (fold_left _ tree None).
Qed.

Lemma removeOlderItems_split tree key :
  exists older,
    tree = older ++ Handler.removeOlderItems tree key
    /\ Forall (fun entry => isLessThan entry.1 key = true) older
    /\ Handler.removeOlderItems (Handler.removeOlderItems tree key) key
       = Handler.removeOlderItems tree key.
Proof.
  induction tree as [|[k v] tree IH].
  - by exists [].
  - simpl. destruct (isLessThan k key) eqn:Hlt.
    + destruct IH as (older & Heq & Hall & Hfix). exists ((k, v) :: older).
      split_and!; [by rewrite Heq at 1 | by constructor | done].
    + exists []. split_and!; [done | constructor |]. simpl. by rewrite Hlt.
Qed.

Lemma isLessThan_irrefl (t : Time) : isLessThan t t = false.
Proof. apply bool_decide_eq_false. rewrite compareTime_refl. lia. Qed.

(** Pruning does not lose the entry it is done for, and finding it again
    prunes nothing more. *)
Lemma find_again visible tree :
  Handler.findSynchronizedSetAndRemoveOlderItems
    (Handler.findSynchronizedSetAndRemoveOlderItems tree visible).2 visible
  = Handler.findSynchronizedSetAndRemoveOlderItems tree visible.
Proof.
  destruct (Handler.findSynchronizedSetAndRemoveOlderItems tree visible)
    as [validEntry tree'] eqn:Hfind.
  assert (H1 : (Handler.findSynchronizedSetAndRemoveOlderItems tree visible).1 = validEntry)
    by (by rewrite Hfind).
  assert (H2 : (Handler.findSynchronizedSetAndRemoveOlderItems tree visible).2 = tree')
    by (by rewrite Hfind).
  rewrite find_snd, H1 in H2. simpl.
  destruct validEntry as [entry|]; [| by subst].
  destruct (removeOlderItems_split tree entry.1) as (older & Heq & Hall & Hfix).
  rewrite H2 in Heq, Hfix.
  assert (Hscan : (Handler.findSynchronizedSetAndRemoveOlderItems tree' visible).1 = Some entry).
  { rewrite Heq, scan_app in H1.
    destruct (Handler.findSynchronizedSetAndRemoveOlderItems tree' visible).1; [done |].
    apply scan_elem in H1 as [Hin _]. rewrite Forall_forall in Hall.
    specialize (Hall _ Hin). by rewrite isLessThan_irrefl in Hall. }
  apply injective_projections; simpl; [done |].
  by rewrite find_snd, Hscan.
Qed.

Lemma getRenderState_synchronized h :
  Handler.synchronize (Handler.config h) = Some true ->
  (Handler.getRenderState h).1 =
  match (Handler.findSynchronizedSetAndRemoveOlderItems (Handler.tree h)
           (Handler.visibleAnnotations h)).1 with
  | Some entry =>
      {| Handler.rs_cameraInfo := Handler.cameraInfo (Handler.lastReceivedMessages h);
         Handler.rs_image := Handler.item_image entry.2;
         Handler.rs_annotationsByNamespacedTopic :=
           Some (Handler.item_annotationsByNamespacedTopic entry.2) |}
  | None =>
      {| Handler.rs_cameraInfo := Handler.cameraInfo (Handler.lastReceivedMessages h);
         Handler.rs_image := None;
         Handler.rs_annotationsByNamespacedTopic := None |}
  end
  /\ Handler.tree (Handler.getRenderState h).2
     = (Handler.findSynchronizedSetAndRemoveOlderItems (Handler.tree h)
          (Handler.visibleAnnotations h)).2.
Proof.
  intros Hs. unfold Handler.getRenderState. rewrite decide_True by done.
  destruct (Handler.findSynchronizedSetAndRemoveOlderItems _ _) as [[entry|] tree'];
    cbn [fst snd]; [| done].
  match goal with |- context [Handler.detach ?x] =>
    destruct (detach_frame x) as (_ & _ & _ & -> & _)
  end.
  done.
Qed.

Lemma getRenderState_unsynchronized h :
  Handler.synchronize (Handler.config h) ≠ Some true ->
  Handler.getRenderState h =
  ({| Handler.rs_cameraInfo := Handler.cameraInfo (Handler.lastReceivedMessages h);
      Handler.rs_image := Handler.image (Handler.lastReceivedMessages h);
      Handler.rs_annotationsByNamespacedTopic :=
        Some (Handler.annotationsByNamespacedTopic (Handler.lastReceivedMessages h)) |},
   h).
Proof. intros Hs. unfold Handler.getRenderState. by rewrite decide_False. Qed.

Lemma detach_again h : Handler.detach (Handler.detach h) = Handler.detach h.
Proof.
  unfold Handler.detach. destruct (Handler.oldShares h) as [| |stamp] eqn:Hsh; rewrite ?Hsh; try done.
  destruct (AVLTree.get stamp (Handler.tree h)) eqn:Hget; simpl; by rewrite ?Hsh, ?Hget.
Qed.

Lemma getRenderState_again h :
  Handler.getRenderState (Handler.getRenderState h).2 = Handler.getRenderState h.
Proof.
  destruct (decide (Handler.synchronize (Handler.config h) = Some true)) as [Hs|Hs].
  - unfold Handler.getRenderState at 2 3. rewrite decide_True by done.
    pose proof (find_again (Handler.visibleAnnotations h) (Handler.tree h)) as Hagain.
    destruct (Handler.findSynchronizedSetAndRemoveOlderItems (Handler.tree h)
                (Handler.visibleAnnotations h)) as [[entry|] tree'] eqn:Hfind; cbn [fst snd] in *.
    + destruct (detach_frame (Handler.set_tree tree' h)) as (Hc & Hl & Ho & Ht & He).
      remember (Handler.detach (Handler.set_tree tree' h)) as h1 eqn:Hh1.
      simpl in Hc, Hl, Ht.
      unfold Handler.getRenderState. rewrite decide_True by (by rewrite Hc).
      replace (Handler.visibleAnnotations h1) with (Handler.visibleAnnotations h)
        by (unfold Handler.visibleAnnotations; by rewrite Hc).
      rewrite Ht, Hagain. cbv beta iota zeta.
      change (Handler.lastReceivedMessages (Handler.set_tree tree' h1))
        with (Handler.lastReceivedMessages h1).
      change (Handler.lastReceivedMessages (Handler.set_tree tree' h))
        with (Handler.lastReceivedMessages h).
      rewrite Hl. f_equal.
      replace (Handler.set_tree tree' h1) with h1
        by (by rewrite <- Ht, set_tree_same).
      subst h1. apply detach_again.
    + unfold Handler.getRenderState. cbn [Handler.config Handler.set_tree Handler.tree].
      rewrite decide_True by done.
      change (Handler.visibleAnnotations (Handler.set_tree tree' h))
        with (Handler.visibleAnnotations h).
      rewrite Hagain. cbn [Handler.lastReceivedMessages Handler.set_tree]. done.
  - rewrite (getRenderState_unsynchronized h Hs). cbn [snd].
    by rewrite (getRenderState_unsynchronized h Hs).
Qed.

Lemma emitState_eq h :
  Handler.emitState h =
  {| Handler.config := Handler.config h;
     Handler.oldRenderState := Some (Handler.getRenderState h).1;
     Handler.oldShares := Handler.shares_of_state h;
     Handler.lastReceivedMessages := Handler.lastReceivedMessages h;
     Handler.tree := Handler.tree (Handler.getRenderState h).2;
     Handler.emitted :=
       Handler.emitted h ++ [((Handler.getRenderState h).1, Handler.oldRenderState h)] |}.
Proof.
  unfold Handler.emitState.
  destruct (getRenderState_frame h) as (Hc & Hl & Ho & He & _).
  destruct (Handler.getRenderState h) as [state h1]. simpl in *.
  by rewrite Hc, Hl, Ho, He.
Qed.

Lemma emitState_synchronized h :
  Handler.synchronize (Handler.config h) = Some true ->
  let found :=
    Handler.findSynchronizedSetAndRemoveOlderItems (Handler.tree h)
      (Handler.visibleAnnotations h) in
  let state :=
    match found.1 with
    | Some entry =>
        {| Handler.rs_cameraInfo := Handler.cameraInfo (Handler.lastReceivedMessages h);
           Handler.rs_image := Handler.item_image entry.2;
           Handler.rs_annotationsByNamespacedTopic :=
             Some (Handler.item_annotationsByNamespacedTopic entry.2) |}
    | None =>
        {| Handler.rs_cameraInfo := Handler.cameraInfo (Handler.lastReceivedMessages h);
           Handler.rs_image := None;
           Handler.rs_annotationsByNamespacedTopic := None |}
    end in
  Handler.emitState h =
  {| Handler.config := Handler.config h;
     Handler.oldRenderState := Some state;
     Handler.oldShares :=
       match found.1 with
       | Some entry => Handler.SharesEntry entry.1
       | None => Handler.SharesNothing
       end;
     Handler.lastReceivedMessages := Handler.lastReceivedMessages h;
     Handler.tree := found.2;
     Handler.emitted := Handler.emitted h ++ [(state, Handler.oldRenderState h)] |}.
Proof.
  intros Hs found state. rewrite emitState_eq.
  destruct (getRenderState_synchronized h Hs) as [-> ->].
  unfold Handler.shares_of_state. by rewrite decide_True.
Qed.

Lemma emitState_unsynchronized h :
  Handler.synchronize (Handler.config h) ≠ Some true ->
  let state :=
    {| Handler.rs_cameraInfo := Handler.cameraInfo (Handler.lastReceivedMessages h);
       Handler.rs_image := Handler.image (Handler.lastReceivedMessages h);
       Handler.rs_annotationsByNamespacedTopic :=
         Some (Handler.annotationsByNamespacedTopic (Handler.lastReceivedMessages h)) |} in
  Handler.emitState h =
  {| Handler.config := Handler.config h;
     Handler.oldRenderState := Some state;
     Handler.oldShares := Handler.SharesStore;
     Handler.lastReceivedMessages := Handler.lastReceivedMessages h;
     Handler.tree := Handler.tree h;
     Handler.emitted := Handler.emitted h ++ [(state, Handler.oldRenderState h)] |}.
Proof.
  intros Hs state. rewrite emitState_eq, getRenderState_unsynchronized by done.
  unfold Handler.shares_of_state. by rewrite decide_False.
Qed.

Lemma getRenderState_ext h1 h2 :
  Handler.config h1 = Handler.config h2 ->
  Handler.lastReceivedMessages h1 = Handler.lastReceivedMessages h2 ->
  Handler.tree h1 = Handler.tree h2 ->
  (Handler.getRenderState h1).1 = (Handler.getRenderState h2).1
  /\ Handler.tree (Handler.getRenderState h1).2 = Handler.tree (Handler.getRenderState h2).2
  /\ Handler.shares_of_state h1 = Handler.shares_of_state h2.
Proof.
  intros Hc Hl Ht.
  unfold Handler.shares_of_state, Handler.getRenderState, Handler.visibleAnnotations.
  rewrite Hc, Ht, Hl.
  destruct (decide (Handler.synchronize (Handler.config h2) = Some true)); [| done].
  destruct (Handler.findSynchronizedSetAndRemoveOlderItems _ _) as [[entry|] tree'];
    cbn [fst snd].
  - repeat match goal with |- context [Handler.detach ?x] =>
      destruct (detach_frame x) as (_ & _ & _ & -> & _)
    end.
    simpl. by rewrite ?Hl.
  - simpl. by rewrite ?Hl.
Qed.

(** X19. [getRenderState] settles: asking for the render state again
    returns the same state and prunes nothing more.  So a second emit in a
    row leaves the index as the first left it and reports the same state
    once more, now with that state as the previous one. *)
Theorem getRenderState_is_idempotent h :
  Handler.getRenderState (Handler.getRenderState h).2 = Handler.getRenderState h
  /\ Handler.tree (Handler.emitState (Handler.emitState h)) = Handler.tree (Handler.emitState h)
  /\ Handler.emitted (Handler.emitState (Handler.emitState h))
     = Handler.emitted h
       ++ [((Handler.getRenderState h).1, Handler.oldRenderState h);
           ((Handler.getRenderState h).1, Some (Handler.getRenderState h).1)].
Proof.
  pose proof (getRenderState_again h) as Hagain.
  destruct (getRenderState_frame h) as (Hc & Hl & _ & _ & _).
  destruct (getRenderState_ext (Handler.emitState h) (Handler.getRenderState h).2)
    as (Hstate & Htree & _).
  { by rewrite emitState_eq. }
  { by rewrite emitState_eq. }
  { by rewrite emitState_eq. }
  rewrite Hagain in Hstate, Htree.
  split_and!; [done | |].
  - rewrite (emitState_eq (Handler.emitState h)). cbn [Handler.tree]. rewrite Htree.
    by rewrite emitState_eq.
  - rewrite (emitState_eq (Handler.emitState h)). cbn [Handler.emitted]. rewrite Hstate.
    rewrite (emitState_eq h). cbn [Handler.emitted Handler.oldRenderState].
    by rewrite <- app_assoc.
Qed.

(** *** Messages that arrive late *)

Lemma sorted_NoDup {V : Type} (tree : list (Time * V)) : AVLTree.sorted tree -> NoDup tree.
Proof.
  induction tree as [|[k v] tree IH]; intros Hs; [apply NoDup_nil_2 |].
  apply sorted_cons_inv in Hs as [Hs Hall]. apply NoDup_cons. split; [| by apply IH].
  intros Hin. specialize (Hall _ _ Hin). rewrite compareTime_refl in Hall. lia.
Qed.

Lemma sorted_ext {V : Type} (tree1 tree2 : list (Time * V)) :
  AVLTree.sorted tree1 -> AVLTree.sorted tree2 ->
  (forall k v, (k, v) ∈ tree1 <-> (k, v) ∈ tree2) ->
  tree1 = tree2.
Proof.
  intros Hs1 Hs2 Hiff.
  apply (StronglySorted_unique_strong (fun a b : Time * V => (compareTime a.1 b.1 < 0)%Z));
    [| done | done |].
  - intros x1 x2 _ _ H1 H2. exfalso. apply (compareTime_asym _ _ H1). lia.
  - apply NoDup_Permutation; [by apply sorted_NoDup | by apply sorted_NoDup |].
    intros [k v]. apply Hiff.
Qed.

Lemma find_agree visible tree tree1 (k : Time) :
  AVLTree.sorted tree -> AVLTree.sorted tree1 ->
  (forall key v, ~ (compareTime key k < 0)%Z -> (key, v) ∈ tree1 <-> (key, v) ∈ tree) ->
  (exists k0 v0, (k0, v0) ∈ tree /\ Handler.is_synchronized visible v0
                 /\ ~ (compareTime k0 k < 0)%Z) ->
  Handler.findSynchronizedSetAndRemoveOlderItems tree1 visible
  = Handler.findSynchronizedSetAndRemoveOlderItems tree visible.
Proof.
  intros Hs Hs1 Hagree (k0 & v0 & Hin0 & Hq0 & Hk0).
  pose proof (find_spec visible tree Hs) as Hfind.
  pose proof (find_spec visible tree1 Hs1) as Hfind1.
  destruct (Handler.findSynchronizedSetAndRemoveOlderItems tree visible)
    as [[[t e]|] tree'] ; [| destruct Hfind as [_ Hnone]; by destruct (Hnone k0 v0)].
  destruct Hfind as (Hin & Hq & Hmax & Hs' & Hiff). simpl in *.
  assert (Ht : ~ (compareTime t k < 0)%Z).
  { intros Hlt. apply Hk0. eapply compareTime_le_lt_trans; [| done]. by eapply Hmax. }
  assert (Hin1 : (t, e) ∈ tree1) by (by apply Hagree).
  destruct (Handler.findSynchronizedSetAndRemoveOlderItems tree1 visible)
    as [[[t1 e1]|] tree1'] ; [| destruct Hfind1 as [_ Hnone]; by destruct (Hnone t e)].
  destruct Hfind1 as (Hin1' & Hq1 & Hmax1 & Hs1' & Hiff1). simpl in *.
  assert (Ht1 : ~ (compareTime t1 k < 0)%Z).
  { intros Hlt. apply Ht. eapply compareTime_le_lt_trans; [| done]. by eapply Hmax1. }
  assert (Hin1t : (t1, e1) ∈ tree) by (by apply Hagree).
  assert (t1 = t) as ->.
  { apply compareTime_antisym; [by eapply Hmax | by eapply Hmax1]. }
  assert (e1 = e) as -> by exact (sorted_key_unique tree t e1 e Hs Hin1t Hin).
  f_equal. apply sorted_ext; [done | done |].
  intros key v. rewrite Hiff, Hiff1. split.
  - intros [Hk Hge]. split; [| done]. apply Hagree; [| done].
    intros Hlt. apply Hge. destruct (compareTime_total key t) as [?|[->|Hgt]]; [done | done |].
    exfalso. apply Ht. eapply compareTime_trans; done.
  - intros [Hk Hge]. split; [| done]. apply Hagree; [| done].
    intros Hlt. apply Hge. destruct (compareTime_total key t) as [?|[->|Hgt]]; [done | done |].
    exfalso. apply Ht. eapply compareTime_trans; done.
Qed.

Lemma set_other_keys {V : Type} (tree : list (Time * V)) t v key v' :
  AVLTree.sorted tree -> key ≠ t ->
  (key, v') ∈ AVLTree.set t v tree <-> (key, v') ∈ tree.
Proof.
  intros Hs Hne. split.
  - intros Hin. apply set_elem_of in Hin as [[-> _]|Hin]; done.
  - intros Hin. apply get_elem. rewrite get_set by done. rewrite decide_False by done.
    by apply elem_get.
Qed.

Lemma getRenderState_agree h tree1 (k : Time) :
  Handler.synchronize (Handler.config h) = Some true ->
  AVLTree.sorted (Handler.tree h) -> AVLTree.sorted tree1 ->
  (forall key v, ~ (compareTime key k < 0)%Z -> (key, v) ∈ tree1 <-> (key, v) ∈ Handler.tree h) ->
  (exists k0 v0, (k0, v0) ∈ Handler.tree h
                 /\ Handler.is_synchronized (Handler.visibleAnnotations h) v0
                 /\ ~ (compareTime k0 k < 0)%Z) ->
  Handler.emitState (Handler.set_tree tree1 h) = Handler.emitState h.
Proof.
  intros Hsync Hs Hs1 Hagree Hex.
  rewrite (emitState_synchronized (Handler.set_tree tree1 h)) by done.
  rewrite (emitState_synchronized h) by done.
  cbn [Handler.tree Handler.set_tree Handler.lastReceivedMessages fst snd
       Handler.config Handler.emitted Handler.oldRenderState].
  change (Handler.visibleAnnotations (Handler.set_tree tree1 h))
    with (Handler.visibleAnnotations h).
  by rewrite (find_agree _ (Handler.tree h) tree1 k).
Qed.

(** X20. In synchronized mode, once the index holds a synchronized set at
    a time [k0], a message that lands before [k0] is pruned at once and the
    same set is shown.  An image stamped before [k0] leaves the handler
    exactly as an emit alone would.  So does an annotation message all of
    whose annotations land before [k0], but for the previous render state
    that the listeners are given: when that state shares the [Map] of an
    entry on whose stamp an annotation lands, it reads the new batch of the
    message's namespaced topic. *)
Theorem late_messages_change_nothing h (k0 : Time) item0 :
  Handler.synchronize (Handler.config h) = Some true ->
  AVLTree.sorted (Handler.tree h) ->
  (k0, item0) ∈ Handler.tree h ->
  Handler.is_synchronized (Handler.visibleAnnotations h) item0 ->
  (forall (imageEvent : @MessageEvent AnyImage) (image : AnyImage),
     (compareTime (getTimestampFromImage image) k0 < 0)%Z ->
     Handler.handleImage getTimestampFromImage h imageEvent image = Handler.emitState h)
  /\ (forall (messageEvent : @MessageEvent AnnotationMessage) nt,
        namespaceTopic (topic messageEvent) (msg_schemaName messageEvent) = Some nt ->
        let anns :=
          normalizeAnnotations (message messageEvent) (msg_schemaName messageEvent) in
        (forall a, a ∈ anns -> (compareTime (Handler.landing a) k0 < 0)%Z) ->
        exists previous,
          Handler.handleAnnotations normalizeAnnotations h messageEvent
          = Some (Handler.emitState (Handler.set_old previous (Handler.oldShares h) h))
          /\ ((forall t, Handler.oldShares h = Handler.SharesEntry t ->
                         forall a, a ∈ anns -> Handler.landing a ≠ t) ->
              previous = Handler.oldRenderState h
              /\ Handler.handleAnnotations normalizeAnnotations h messageEvent
                 = Some (Handler.emitState h))
          /\ (forall t,
                Handler.oldShares h = Handler.SharesEntry t ->
                (exists a, a ∈ anns /\ Handler.landing a = t) ->
                exists group,
                  previous
                  = Handler.with_batches
                      (insert nt {| Handler.originalMessage := messageEvent;
                                    Handler.annotations := group |})
                    <$> Handler.oldRenderState h
                  /\ group ≠ []
                  /\ (forall a, a ∈ group -> a ∈ anns /\ Handler.landing a = t)
                  /\ ((forall a b, a ∈ anns -> b ∈ anns ->
                                   Handler.landing a = t -> Handler.landing b = t ->
                                   toNanoSec (Handler.stamp a) = toNanoSec (Handler.stamp b)) ->
                      group = filter (fun a => Handler.landing a = t) anns))).
Proof.
  intros Hsync Hs Hin0 Hq0. split.
  - intros imageEvent image Hlate. unfold Handler.handleImage.
    rewrite decide_False by (by intros ?).
    unfold Handler.handleImage_store. cbn [message].
    set (t := getTimestampFromImage image) in *.
    assert (Hgoal : forall v,
      Handler.emitState (Handler.set_tree (AVLTree.set t v (Handler.tree h)) h)
      = Handler.emitState h).
    { intros v. apply (getRenderState_agree h _ k0); [done | done | by apply set_sorted | |].
      - intros key v' Hge. apply set_other_keys; [done |]. by intros ->.
      - exists k0, item0. split_and!; [done | done |]. rewrite compareTime_refl. lia. }
    destruct (AVLTree.get t (Handler.tree h)); apply Hgoal.
  - intros messageEvent nt Hnt anns Hlate.
    destruct (previous_state_after_store h nt messageEvent anns) as (Hsh & Hsame & Hthrough).
    remember (Handler.oldRenderState (Handler.handleAnnotations_store h nt messageEvent anns))
      as previous eqn:Hprevious.
    assert (Hcall : Handler.handleAnnotations normalizeAnnotations h messageEvent
                    = Some (Handler.emitState
                              (Handler.set_old previous (Handler.oldShares h) h))).
    { unfold Handler.handleAnnotations. rewrite Hnt. cbn [mbind option_bind].
      rewrite decide_False by (by intros ?). f_equal. fold anns.
      rewrite handleAnnotations_store_eq in Hprevious |- *.
      cbn [Handler.oldRenderState] in Hprevious. rewrite <- Hprevious.
      set (tree1 := fold_left (Handler.store_group nt messageEvent)
                      (Handler.group_annotations anns) (Handler.tree h)).
      destruct (store_groups_spec nt messageEvent (Handler.group_annotations anns)
                  (Handler.tree h) Hs) as (Hs1 & Hget). fold tree1 in Hs1, Hget.
      change (Handler.emitState
                (Handler.set_tree tree1 (Handler.set_old previous (Handler.oldShares h) h))
              = Handler.emitState (Handler.set_old previous (Handler.oldShares h) h)).
      apply (getRenderState_agree _ _ k0); [done | done | done | |].
      - intros key v Hge. cbn [Handler.tree Handler.set_old].
        assert (Hsame_entry : AVLTree.get key tree1 = AVLTree.get key (Handler.tree h)).
        { rewrite Hget. pose proof (landing_group anns key) as Hland.
          destruct (last (filter _ (Handler.group_annotations anns))) as [[z g]|]; [| done].
          simpl in Hland. destruct Hland as (Hne & Hall & _). exfalso.
          destruct g as [|a g']; [done |].
          destruct (Hall a (list_elem_of_here _ _)) as [Ha1 Ha2].
          apply Hge. rewrite <- Ha2. by apply Hlate. }
        split; intros Hin.
        + apply get_elem. rewrite <- Hsame_entry. by apply elem_get.
        + apply get_elem. rewrite Hsame_entry. by apply elem_get.
      - exists k0, item0. split_and!; [done | done |]. rewrite compareTime_refl. lia. }
    exists previous. split_and!; [exact Hcall | |].
    + intros Hnone. rewrite Hcall, (Hsame Hnone). split; [done |].
      do 2 f_equal. by destruct h.
    + intros t Ht Hex. destruct (Hthrough t Ht Hex) as (group & Hold & _ & Hne & Hall & Hfil).
      exists group. by split_and!.
Qed.

(** *** An image newer than everything in the index *)

Lemma get_newest {V : Type} (tree : list (Time * V)) (t : Time) :
  (forall k v, (k, v) ∈ tree -> (compareTime k t < 0)%Z) -> AVLTree.get t tree = None.
Proof.
  induction tree as [|[k v] tree IH]; intros Hall; [done |]. simpl.
  rewrite decide_False.
  - apply IH. intros k' v' Hin. eapply Hall. by apply list_elem_of_further.
  - intros He. apply compareTime_eq in He as ->.
    specialize (Hall k v (list_elem_of_here _ _)). rewrite compareTime_refl in Hall. lia.
Qed.

Lemma set_newest {V : Type} (tree : list (Time * V)) (t : Time) (v : V) :
  (forall k v', (k, v') ∈ tree -> (compareTime k t < 0)%Z) ->
  AVLTree.set t v tree = tree ++ [(t, v)].
Proof.
  induction tree as [|[k v0] tree IH]; intros Hall; [done |]. simpl.
  pose proof (Hall k v0 (list_elem_of_here _ _)) as Hk.
  rewrite decide_False.
  - rewrite decide_False by (by apply compareTime_asym in Hk; lia).
    rewrite IH; [done |]. intros k' v' Hin. eapply Hall. by apply list_elem_of_further.
  - intros He. apply compareTime_eq in He as ->. rewrite compareTime_refl in Hk. lia.
Qed.

Lemma removeOlderItems_app tree1 tree2 (key : Time) :
  Forall (fun entry => isLessThan entry.1 key = true) tree1 ->
  Handler.removeOlderItems (tree1 ++ tree2) key = Handler.removeOlderItems tree2 key.
Proof.
  induction 1 as [|[k v] tree1 Hk _ IH]; [done |]. simpl in *. by rewrite Hk.
Qed.

(** X21. In synchronized mode with no visible annotation topic, an image
    that is newer than everything in the index is shown at once, with an
    empty set of annotations, and it is then the only entry of the index. *)
Theorem newest_image_is_shown_at_once_without_annotations h
    (imageEvent : @MessageEvent AnyImage) (image : AnyImage) :
  Handler.synchronize (Handler.config h) = Some true ->
  Handler.visibleAnnotations h = ∅ ->
  (forall k v, (k, v) ∈ Handler.tree h -> (compareTime k (getTimestampFromImage image) < 0)%Z) ->
  let normalizedImageMessage :=
    {| topic := topic imageEvent; msg_schemaName := msg_schemaName imageEvent;
       receiveTime := receiveTime imageEvent; message := image;
       sizeInBytes := sizeInBytes imageEvent |} in
  let shown :=
    {| Handler.rs_cameraInfo := Handler.cameraInfo (Handler.lastReceivedMessages h);
       Handler.rs_image := Some normalizedImageMessage;
       Handler.rs_annotationsByNamespacedTopic := Some ∅ |} in
  let h' := Handler.handleImage getTimestampFromImage h imageEvent image in
  Handler.tree h' =
    [(getTimestampFromImage image,
      {| Handler.item_image := Some normalizedImageMessage;
         Handler.item_annotationsByNamespacedTopic := ∅ |})]
  /\ Handler.emitted h' = Handler.emitted h ++ [(shown, Handler.oldRenderState h)]
  /\ Handler.oldRenderState h' = Some shown.
Proof.
  intros Hsync Hvis Hnew normalizedImageMessage shown h'. subst h'.
  set (t := getTimestampFromImage image) in *.
  set (stored := {| Handler.item_image := Some normalizedImageMessage;
                    Handler.item_annotationsByNamespacedTopic :=
                      (∅ : gmap string Handler.NormalizedAnnotations) |}).
  assert (Hh : Handler.handleImage getTimestampFromImage h imageEvent image
               = Handler.emitState (Handler.set_tree (Handler.tree h ++ [(t, stored)]) h)).
  { unfold Handler.handleImage. rewrite decide_False by (by intros ?).
    unfold Handler.handleImage_store. cbn [message]. fold t.
    rewrite get_newest by done. fold normalizedImageMessage. fold stored.
    by rewrite set_newest. }
  assert (Hfind : Handler.findSynchronizedSetAndRemoveOlderItems
                    (Handler.tree h ++ [(t, stored)]) ∅
                  = (Some (t, stored), [(t, stored)])).
  { assert (H1 : (Handler.findSynchronizedSetAndRemoveOlderItems
                    (Handler.tree h ++ [(t, stored)]) ∅).1 = Some (t, stored)).
    { rewrite scan_app.
      replace (Handler.findSynchronizedSetAndRemoveOlderItems [(t, stored)] ∅).1
        with (Some (t, stored)); [done |].
      unfold Handler.findSynchronizedSetAndRemoveOlderItems. simpl.
      replace (Handler.hasOnlyVisibleAnnotations ∅ stored) with true; [done |].
      symmetry. apply hasOnlyVisibleAnnotations_spec. simpl. apply dom_empty_L. }
    apply injective_projections; [done |]. rewrite find_snd, H1. simpl.
    rewrite removeOlderItems_app.
    - simpl. by rewrite isLessThan_irrefl.
    - apply Forall_forall. intros [k v] Hin. apply isLessThan_spec. by eapply Hnew. }
  rewrite Hh, emitState_synchronized by done.
  cbn [Handler.tree Handler.set_tree Handler.lastReceivedMessages fst snd
       Handler.config Handler.emitted Handler.oldRenderState].
  change (Handler.visibleAnnotations (Handler.set_tree _ h))
    with (Handler.visibleAnnotations h).
  rewrite Hvis, Hfind. done.
Qed.

(** *** Calibration, [clear], and the unsynchronized mode *)

Lemma getRenderState_cameraInfo h (cameraInfo : option CameraInfo) :
  let h1 :=
    Handler.set_lastReceivedMessages
      (Handler.with_cameraInfo cameraInfo (Handler.lastReceivedMessages h)) h in
  (Handler.getRenderState h1).1
  = {| Handler.rs_cameraInfo := cameraInfo;
       Handler.rs_image := Handler.rs_image (Handler.getRenderState h).1;
       Handler.rs_annotationsByNamespacedTopic :=
         Handler.rs_annotationsByNamespacedTopic (Handler.getRenderState h).1 |}
  /\ Handler.tree (Handler.getRenderState h1).2 = Handler.tree (Handler.getRenderState h).2.
Proof.
  intros h1. subst h1. unfold Handler.getRenderState.
  cbn [Handler.config Handler.tree Handler.set_lastReceivedMessages].
  change (Handler.visibleAnnotations (Handler.set_lastReceivedMessages _ h))
    with (Handler.visibleAnnotations h).
  destruct (decide (Handler.synchronize (Handler.config h) = Some true)); [| done].
  destruct (Handler.findSynchronizedSetAndRemoveOlderItems _ _) as [[entry|] tree'];
    cbn [fst snd]; [| done].
  repeat match goal with |- context [Handler.detach ?x] =>
    destruct (detach_frame x) as (_ & _ & _ & -> & _)
  end.
  done.
Qed.

(** X22. A calibration message is never synchronized: in either mode
    [handleCameraInfo] emits the state that [getRenderState] gave before
    the call with the new calibration in it, image and annotations
    unchanged, and it prunes the index as an emit alone would. *)
Theorem calibration_is_shown_in_both_modes h (cameraInfo : CameraInfo) :
  let h' := Handler.handleCameraInfo h cameraInfo in
  let before := (Handler.getRenderState h).1 in
  Handler.emitted h'
  = Handler.emitted h
    ++ [({| Handler.rs_cameraInfo := Some cameraInfo;
            Handler.rs_image := Handler.rs_image before;
            Handler.rs_annotationsByNamespacedTopic :=
              Handler.rs_annotationsByNamespacedTopic before |},
         Handler.oldRenderState h)]
  /\ Handler.tree h' = Handler.tree (Handler.emitState h)
  /\ Handler.lastReceivedMessages h'
     = Handler.with_cameraInfo (Some cameraInfo) (Handler.lastReceivedMessages h)
  /\ Handler.config h' = Handler.config h.
Proof.
  intros h' before. subst h' before. unfold Handler.handleCameraInfo.
  destruct (getRenderState_cameraInfo h (Some cameraInfo)) as [Hstate Htree].
  rewrite !emitState_eq. cbn [Handler.emitted Handler.tree Handler.lastReceivedMessages
                             Handler.config].
  rewrite Hstate, Htree. done.
Qed.

(** X23. [clear] empties the index and the last received messages and
    keeps the config.  It reports to the listeners a blank state, without
    calibration, image or (in synchronized mode) annotations, and with no
    previous state; and it reports the same again when it is called
    twice. *)
Theorem clear_forgets_everything h :
  let h' := Handler.clear h in
  let blank :=
    if decide (Handler.synchronize (Handler.config h) = Some true)
    then {| Handler.rs_cameraInfo := None; Handler.rs_image := None;
            Handler.rs_annotationsByNamespacedTopic := None |}
    else {| Handler.rs_cameraInfo := None; Handler.rs_image := None;
            Handler.rs_annotationsByNamespacedTopic := Some ∅ |} in
  Handler.tree h' = []
  /\ Handler.lastReceivedMessages h'
     = {| Handler.image := None; Handler.cameraInfo := None;
          Handler.annotationsByNamespacedTopic := ∅ |}
  /\ Handler.config h' = Handler.config h
  /\ Handler.emitted h' = Handler.emitted h ++ [(blank, None)]
  /\ (Handler.getRenderState h').1 = blank
  /\ Handler.emitted (Handler.clear h') = Handler.emitted h ++ [(blank, None); (blank, None)].
Proof.
  intros h' blank. subst h' blank.
  assert (Hclear : forall h0 : @Handler.MessageHandler AnyImage CameraInfo AnnotationBody
                                 AnnotationMessage,
    Handler.clear h0 =
    {| Handler.config := Handler.config h0;
       Handler.oldRenderState :=
         Some (if decide (Handler.synchronize (Handler.config h0) = Some true)
               then {| Handler.rs_cameraInfo := None; Handler.rs_image := None;
                       Handler.rs_annotationsByNamespacedTopic := None |}
               else {| Handler.rs_cameraInfo := None; Handler.rs_image := None;
                       Handler.rs_annotationsByNamespacedTopic := Some ∅ |});
       Handler.oldShares :=
         (if decide (Handler.synchronize (Handler.config h0) = Some true)
          then Handler.SharesNothing else Handler.SharesStore);
       Handler.lastReceivedMessages :=
         {| Handler.image := None; Handler.cameraInfo := None;
            Handler.annotationsByNamespacedTopic := ∅ |};
       Handler.tree := [];
       Handler.emitted :=
         Handler.emitted h0
         ++ [(if decide (Handler.synchronize (Handler.config h0) = Some true)
              then {| Handler.rs_cameraInfo := None; Handler.rs_image := None;
                      Handler.rs_annotationsByNamespacedTopic := None |}
              else {| Handler.rs_cameraInfo := None; Handler.rs_image := None;
                      Handler.rs_annotationsByNamespacedTopic := Some ∅ |}, None)] |}).
  { intros h0.
    unfold Handler.clear, Handler.emitState, Handler.getRenderState, Handler.shares_of_state.
    simpl.
    by destruct (decide (Handler.synchronize (Handler.config h0) = Some true)). }
  rewrite (Hclear (Handler.clear h)), (Hclear h). simpl.
  split_and!; try done.
  - unfold Handler.getRenderState. simpl.
    by destruct (decide (Handler.synchronize (Handler.config h) = Some true)).
  - by rewrite <- app_assoc.
Qed.

(** X24. When [synchronize] is not [true] the index is never touched: the
    render state is the last received calibration, image and annotations, an
    image replaces the last image and is shown at once whatever its stamp,
    and an annotation message replaces the batch of its namespaced topic
    and is shown at once, the batches of the other topics staying.  The
    previous state that the listeners are given with the annotations is the
    one kept by the handler, which reads the new batch as well when it
    shares the [Map] of the current store. *)
Theorem unsynchronized_mode_shows_the_latest_messages h :
  Handler.synchronize (Handler.config h) ≠ Some true ->
  let received := Handler.lastReceivedMessages h in
  (Handler.getRenderState h
   = ({| Handler.rs_cameraInfo := Handler.cameraInfo received;
         Handler.rs_image := Handler.image received;
         Handler.rs_annotationsByNamespacedTopic :=
           Some (Handler.annotationsByNamespacedTopic received) |}, h))
  /\ (forall (imageEvent : @MessageEvent AnyImage) (image : AnyImage),
        let normalizedImageMessage :=
          {| topic := topic imageEvent; msg_schemaName := msg_schemaName imageEvent;
             receiveTime := receiveTime imageEvent; message := image;
             sizeInBytes := sizeInBytes imageEvent |} in
        let h' := Handler.handleImage getTimestampFromImage h imageEvent image in
        Handler.tree h' = Handler.tree h
        /\ Handler.lastReceivedMessages h'
           = Handler.with_image (Some normalizedImageMessage) received
        /\ Handler.emitted h'
           = Handler.emitted h
             ++ [({| Handler.rs_cameraInfo := Handler.cameraInfo received;
                     Handler.rs_image := Some normalizedImageMessage;
                     Handler.rs_annotationsByNamespacedTopic :=
                       Some (Handler.annotationsByNamespacedTopic received) |},
                  Handler.oldRenderState h)])
  /\ (forall (messageEvent : @MessageEvent AnnotationMessage) nt,
        namespaceTopic (topic messageEvent) (msg_schemaName messageEvent) = Some nt ->
        let batch :=
          {| Handler.originalMessage := messageEvent;
             Handler.annotations :=
               normalizeAnnotations (message messageEvent) (msg_schemaName messageEvent) |} in
        let batches := <[nt := batch]> (Handler.annotationsByNamespacedTopic received) in
        let shown :=
          {| Handler.rs_cameraInfo := Handler.cameraInfo received;
             Handler.rs_image := Handler.image received;
             Handler.rs_annotationsByNamespacedTopic := Some batches |} in
        let previous :=
          if decide (Handler.oldShares h = Handler.SharesStore)
          then Handler.with_batches (insert nt batch) <$> Handler.oldRenderState h
          else Handler.oldRenderState h in
        exists h',
          Handler.handleAnnotations normalizeAnnotations h messageEvent = Some h'
          /\ Handler.tree h' = Handler.tree h
          /\ Handler.lastReceivedMessages h' = Handler.with_annotations batches received
          /\ Handler.emitted h' = Handler.emitted h ++ [(shown, previous)]
          /\ Handler.oldRenderState h' = Some shown
          /\ Handler.oldShares h' = Handler.SharesStore).
Proof.
  intros Hs received. split_and!.
  - by apply getRenderState_unsynchronized.
  - intros imageEvent image normalizedImageMessage h'. subst h'.
    unfold Handler.handleImage. rewrite decide_True by done.
    rewrite emitState_eq, getRenderState_unsynchronized by done. done.
  - intros messageEvent nt Hnt batch batches shown previous. eexists. split.
    + unfold Handler.handleAnnotations. rewrite Hnt. cbn [mbind option_bind].
      by rewrite decide_True by done.
    + subst previous. unfold Handler.through_old.
      cbn [Handler.oldShares Handler.set_lastReceivedMessages].
      destruct (decide (Handler.oldShares h = Handler.SharesStore));
        rewrite emitState_unsynchronized by done; done.
Qed.

(** *** The message that completes a synchronized set *)

Lemma emitState_newest h tree1 (t : Time) item1 :
  Handler.synchronize (Handler.config h) = Some true ->
  AVLTree.sorted tree1 ->
  (t, item1) ∈ tree1 ->
  Handler.is_synchronized (Handler.visibleAnnotations h) item1 ->
  (forall k v, (k, v) ∈ tree1 -> Handler.is_synchronized (Handler.visibleAnnotations h) v ->
               (compareTime k t <= 0)%Z) ->
  let h' := Handler.emitState (Handler.set_tree tree1 h) in
  let shown :=
    {| Handler.rs_cameraInfo := Handler.cameraInfo (Handler.lastReceivedMessages h);
       Handler.rs_image := Handler.item_image item1;
       Handler.rs_annotationsByNamespacedTopic :=
         Some (Handler.item_annotationsByNamespacedTopic item1) |} in
  Handler.emitted h' = Handler.emitted h ++ [(shown, Handler.oldRenderState h)]
  /\ Handler.oldRenderState h' = Some shown
  /\ forall k v, (k, v) ∈ Handler.tree h' <-> (k, v) ∈ tree1 /\ ~ (compareTime k t < 0)%Z.
Proof.
  intros Hsync Hs1 Hin Hq Hmax h' shown. subst h' shown.
  rewrite emitState_synchronized by done.
  cbn [Handler.tree Handler.set_tree Handler.lastReceivedMessages fst snd
       Handler.config Handler.emitted Handler.oldRenderState].
  change (Handler.visibleAnnotations (Handler.set_tree tree1 h))
    with (Handler.visibleAnnotations h).
  pose proof (find_spec (Handler.visibleAnnotations h) tree1 Hs1) as Hfind.
  destruct (Handler.findSynchronizedSetAndRemoveOlderItems tree1 (Handler.visibleAnnotations h))
    as [[[t0 item0]|] tree'].
  - destruct Hfind as (Hin0 & Hq0 & Hmax0 & _ & Hiff). simpl in *.
    assert (t0 = t) as ->.
    { apply compareTime_antisym; [by eapply Hmax | by eapply Hmax0]. }
    assert (item0 = item1) as -> by exact (sorted_key_unique tree1 t item0 item1 Hs1 Hin0 Hin).
    done.
  - destruct Hfind as [_ Hnone]. by destruct (Hnone t item1).
Qed.

(** X25. In synchronized mode the message that completes an entry is
    shown at once.  When the entry at time [t] holds annotations of exactly
    the visible topics and no synchronized set is newer than [t], an
    image stamped [t] is emitted together with those annotations; when the
    entry has an image and lacks one visible topic, the annotation message
    of that topic stamped [t] is emitted with the image.  The previous
    state that the listeners are given with the annotations is the one kept
    by the handler, which reads the new batch as well when it shares the
    [Map] of the entry at [t].  Afterwards the index holds nothing older
    than [t]. *)
Theorem last_piece_completes_the_synchronized_set h (t : Time) item :
  Handler.synchronize (Handler.config h) = Some true ->
  AVLTree.sorted (Handler.tree h) ->
  AVLTree.get t (Handler.tree h) = Some item ->
  (forall k v, (k, v) ∈ Handler.tree h ->
               Handler.is_synchronized (Handler.visibleAnnotations h) v ->
               (compareTime k t <= 0)%Z) ->
  (forall (imageEvent : @MessageEvent AnyImage) (image : AnyImage),
     getTimestampFromImage image = t ->
     dom (Handler.item_annotationsByNamespacedTopic item) = Handler.visibleAnnotations h ->
     let normalizedImageMessage :=
       {| topic := topic imageEvent; msg_schemaName := msg_schemaName imageEvent;
          receiveTime := receiveTime imageEvent; message := image;
          sizeInBytes := sizeInBytes imageEvent |} in
     let h' := Handler.handleImage getTimestampFromImage h imageEvent image in
     let shown :=
       {| Handler.rs_cameraInfo := Handler.cameraInfo (Handler.lastReceivedMessages h);
          Handler.rs_image := Some normalizedImageMessage;
          Handler.rs_annotationsByNamespacedTopic :=
            Some (Handler.item_annotationsByNamespacedTopic item) |} in
     Handler.emitted h' = Handler.emitted h ++ [(shown, Handler.oldRenderState h)]
     /\ forall k v, (k, v) ∈ Handler.tree h' -> ~ (compareTime k t < 0)%Z)
  /\ (forall (messageEvent : @MessageEvent AnnotationMessage) nt z,
        namespaceTopic (topic messageEvent) (msg_schemaName messageEvent) = Some nt ->
        let anns :=
          normalizeAnnotations (message messageEvent) (msg_schemaName messageEvent) in
        anns ≠ [] ->
        (forall a, a ∈ anns -> toNanoSec (Handler.stamp a) = z) ->
        fromNanoSec z = t ->
        is_Some (Handler.item_image item) ->
        {[nt]} ∪ dom (Handler.item_annotationsByNamespacedTopic item)
          = Handler.visibleAnnotations h ->
        let batch :=
          {| Handler.originalMessage := messageEvent; Handler.annotations := anns |} in
        let batches := <[nt := batch]> (Handler.item_annotationsByNamespacedTopic item) in
        let shown :=
          {| Handler.rs_cameraInfo := Handler.cameraInfo (Handler.lastReceivedMessages h);
             Handler.rs_image := Handler.item_image item;
             Handler.rs_annotationsByNamespacedTopic := Some batches |} in
        let previous :=
          if decide (Handler.oldShares h = Handler.SharesEntry t)
          then Handler.with_batches (insert nt batch) <$> Handler.oldRenderState h
          else Handler.oldRenderState h in
        exists h',
          Handler.handleAnnotations normalizeAnnotations h messageEvent = Some h'
          /\ Handler.emitted h' = Handler.emitted h ++ [(shown, previous)]
          /\ Handler.oldRenderState h' = Some shown
          /\ forall k v, (k, v) ∈ Handler.tree h' -> ~ (compareTime k t < 0)%Z).
Proof.
  intros Hsync Hs Hget Hmax. split.
  - intros imageEvent image Ht Hdom normalizedImageMessage h' shown. subst h' shown.
    unfold Handler.handleImage. rewrite decide_False by (by intros ?).
    unfold Handler.handleImage_store. cbn [message]. rewrite Ht, Hget.
    fold normalizedImageMessage.
    set (stored := {| Handler.item_image := Some normalizedImageMessage;
                      Handler.item_annotationsByNamespacedTopic :=
                        Handler.item_annotationsByNamespacedTopic item |}).
    destruct (emitState_newest h (AVLTree.set t stored (Handler.tree h)) t stored)
      as (Hemit & _ & Htree); [done | by apply set_sorted | | | |].
    + apply get_elem. rewrite get_set by done. by rewrite decide_True.
    + split; [by eexists | done].
    + intros k v Hin Hq. apply set_elem_of in Hin as [[-> _]|Hin];
        [rewrite compareTime_refl; lia | by eapply Hmax].
    + split; [exact Hemit |]. intros k v Hin. by apply Htree in Hin as [_ ?].
  - intros messageEvent nt z Hnt anns.
    assert (Hanns : normalizeAnnotations (message messageEvent) (msg_schemaName messageEvent)
                    = anns) by done.
    clearbody anns. intros Hne Hz Hzt Himg Hdom batch batches shown previous.
    destruct (store_groups_spec nt messageEvent (Handler.group_annotations anns)
                (Handler.tree h) Hs) as (Hs1 & Hget1).
    set (tree1 := fold_left (Handler.store_group nt messageEvent)
                    (Handler.group_annotations anns) (Handler.tree h)) in *.
    assert (Hfilter : filter (fun a => toNanoSec (Handler.stamp a) = z) anns = anns).
    { clear -Hz. induction anns as [|a l IH]; [done |].
      rewrite filter_cons_True by apply Hz, list_elem_of_here.
      f_equal. apply IH. intros b Hb. by apply Hz, list_elem_of_further. }
    assert (HG : forall z' g, (z', g) ∈ Handler.group_annotations anns -> z' = z /\ g = anns).
    { intros z' g Hin. apply (elem_get_wf _ _ _ (group_annotations_wf anns)) in Hin.
      rewrite group_annotations_get in Hin. apply entry_of_Some in Hin as [-> Hg].
      destruct (filter (fun a => toNanoSec (Handler.stamp a) = z') anns) as [|a l] eqn:Hf;
        [done |].
      assert (Ha : a ∈ filter (fun a => toNanoSec (Handler.stamp a) = z') anns)
        by (rewrite Hf; apply list_elem_of_here).
      apply list_elem_of_filter in Ha as [Ha1 Ha2]. rewrite (Hz a Ha2) in Ha1. subst z'.
      split; [done |]. by rewrite <- Hf, Hfilter. }
    assert (Hin : (z, anns) ∈ Handler.group_annotations anns).
    { apply get_Some_elem. rewrite group_annotations_get. rewrite Hfilter. by destruct anns. }
    assert (Hlast : forall t',
              last (filter (fun zg => fromNanoSec zg.1 = t') (Handler.group_annotations anns))
              = if decide (t = t') then Some (z, anns) else None).
    { intros t'.
      destruct (last (filter _ (Handler.group_annotations anns))) as [[z' g]|] eqn:E.
      - apply last_filter_Some in E as [Hin' Hz']. simpl in Hz'.
        apply HG in Hin' as [-> ->]. rewrite decide_True by congruence. done.
      - rewrite decide_False; [done |]. intros <-.
        by apply (proj1 (last_filter_None _ _) E (z, anns) Hin). }
    set (stored := {| Handler.item_image := Handler.item_image item;
                      Handler.item_annotationsByNamespacedTopic := batches |}).
    assert (Hstored : AVLTree.get t tree1 = Some stored).
    { rewrite Hget1, Hlast, decide_True, Hget by done. done. }
    assert (Hstore : Handler.handleAnnotations_store h nt messageEvent anns
                     = Handler.set_tree tree1
                         (Handler.set_old previous (Handler.oldShares h) h)).
    { rewrite handleAnnotations_store_eq. unfold Handler.set_tree, Handler.set_old. simpl.
      fold tree1. f_equal. subst previous.
      destruct (Handler.oldShares h) as [| |t0]; [done | done |].
      rewrite Hlast. destruct (decide (t = t0)) as [->|Hne0].
      - by rewrite decide_True.
      - rewrite decide_False; [done | congruence]. }
    destruct (emitState_newest (Handler.set_old previous (Handler.oldShares h) h)
                tree1 t stored) as (Hemit & Hold & Htree);
      [done | done | by apply get_elem | | |].
    + split; [done |]. simpl. subst batches. by rewrite dom_insert_L.
    + intros k v Hk Hq. destruct (decide (k = t)) as [->|Hkt]; [rewrite compareTime_refl; lia |].
      eapply Hmax; [| done]. apply get_elem.
      rewrite <- (elem_get _ _ _ Hs1 Hk), Hget1, Hlast. by rewrite decide_False.
    + exists (Handler.emitState
                (Handler.set_tree tree1 (Handler.set_old previous (Handler.oldShares h) h))).
      split_and!.
      * unfold Handler.handleAnnotations. rewrite Hnt, Hanns. cbn [mbind option_bind].
        rewrite decide_False by (by intros ?). by rewrite Hstore.
      * exact Hemit.
      * exact Hold.
      * intros k v Hk. by apply Htree in Hk as [_ ?].
Qed.

End HandlerMoreFacts.

(** ** The image handler over a whole session *)

Section SessionFacts.
Context {AnyImage CameraInfo AnnotationBody AnnotationMessage : Type}.
Context (getTimestampFromImage : AnyImage -> Time).
Context (normalizeAnnotations :
           AnnotationMessage -> string -> list (@Handler.Annotation AnnotationBody)).

Implicit Types
  (tree : list (Time * @Handler.SynchronizationItem AnyImage AnnotationBody AnnotationMessage))
  (h : @Handler.MessageHandler AnyImage CameraInfo AnnotationBody AnnotationMessage)
  (nc : Handler.PartialConfig).

Lemma emitState_empty h : Handler.tree h = [] -> Handler.tree (Handler.emitState h) = [].
Proof.
  intros Ht. destruct (emitState_frame h) as (_ & _ & _ & _ & Hsub).
  destruct (Handler.tree (Handler.emitState h)) as [|[k v] l]; [done |].
  specialize (Hsub k v (list_elem_of_here _ _)). rewrite Ht in Hsub. by apply elem_of_nil in Hsub.
Qed.

Lemma emitState_config h : Handler.config (Handler.emitState h) = Handler.config h.
Proof. by destruct (emitState_frame h) as (-> & _). Qed.

(** The second application of a partial config finds nothing to do. *)
Lemma guards_after_merge (c : Handler.MessageHandlerConfig) nc :
  let c' := Handler.merge_config c nc in
  Handler.synchronize_toggled c' nc = false
  /\ Handler.imageTopic_changed c' nc = false
  /\ Handler.calibrationTopic_changed c' nc = false
  /\ Handler.annotations_replaced c' nc = None
  /\ Handler.merge_config c' nc = c'.
Proof.
  destruct c as [s a cal img], nc as [[ns|] [na|] [ncal|] [nimg|]];
    unfold Handler.synchronize_toggled, Handler.imageTopic_changed,
      Handler.calibrationTopic_changed, Handler.annotations_replaced, Handler.merge_config;
    simpl; repeat split;
    repeat match goal with
           | |- context [match ?x with _ => _ end] => destruct x; simpl
           | |- bool_decide _ = false => apply bool_decide_eq_false; intros ?; congruence
           end; try done.
Qed.

(** X27. Applying the same partial config twice is the same as applying
    it once: the second [setConfig] resets nothing, changes no field of the
    handler and emits nothing. *)
Theorem setConfig_twice_is_setConfig_once h nc :
  Handler.setConfig (Handler.setConfig h nc) nc = Handler.setConfig h nc.
Proof.
  set (h2 := Handler.setConfig h nc).
  assert (Hc2 : Handler.config h2 = Handler.merge_config (Handler.config h) nc).
  { subst h2. unfold Handler.setConfig.
    pose proof (setConfig_resets_eq h nc) as Heq. cbv zeta in Heq.
    destruct (Handler.setConfig_resets h nc) as [h1 changed].
    assert (Handler.config h1 = Handler.merge_config (Handler.config h) nc) as Hc1.
    { destruct (Handler.annotations_replaced _ _); by injection Heq as -> _. }
    destruct changed; [by rewrite emitState_config | done]. }
  destruct (guards_after_merge (Handler.config h) nc) as (Hs & Hi & Hc & Ha & Hm).
  unfold Handler.setConfig at 1.
  rewrite (setConfig_resets_eq h2 nc), Hc2, Hs, Hi, Hc, Ha, Hm. simpl.
  rewrite <- Hc2. by destruct h2 as [? ? ? [? ? ?] ? ?].
Qed.

(** X28. An annotation message that normalizes to no annotation stores
    nothing in synchronized mode, where the call is just an emit; outside
    synchronized mode it replaces the batch of its topic by an empty one. *)
Theorem annotation_message_without_annotations h
    (messageEvent : @MessageEvent AnnotationMessage) nt :
  namespaceTopic (topic messageEvent) (msg_schemaName messageEvent) = Some nt ->
  normalizeAnnotations (message messageEvent) (msg_schemaName messageEvent) = [] ->
  (Handler.synchronize (Handler.config h) = Some true ->
     Handler.handleAnnotations normalizeAnnotations h messageEvent = Some (Handler.emitState h))
  /\ (Handler.synchronize (Handler.config h) ≠ Some true ->
        exists h',
          Handler.handleAnnotations normalizeAnnotations h messageEvent = Some h'
          /\ Handler.annotationsByNamespacedTopic (Handler.lastReceivedMessages h') !! nt
             = Some {| Handler.originalMessage := messageEvent; Handler.annotations := [] |}).
Proof.
  intros Hnt Hnone. unfold Handler.handleAnnotations. rewrite Hnt, Hnone.
  cbn [mbind option_bind]. split; intros Hs.
  - rewrite decide_False by (by intros ?).
    unfold Handler.handleAnnotations_store. done.
  - rewrite decide_True by done. eexists. split; [done |].
    match goal with |- context [Handler.emitState ?x] =>
      destruct (emitState_frame x) as (_ & -> & _)
    end.
    unfold Handler.through_old. destruct (decide _); simpl; by rewrite lookup_insert_eq.
Qed.

(** The invariants of a session, call by call. *)
Lemma perform_sorted h (c : Session.Call) h' :
  AVLTree.sorted (Handler.tree h) ->
  Session.perform getTimestampFromImage normalizeAnnotations h c = Some h' ->
  AVLTree.sorted (Handler.tree h').
Proof.
  intros Hs. destruct c; simpl.
  - intros [= <-]. by apply handleImage_sorted.
  - intros [= <-]. by apply handleCameraInfo_sorted.
  - by apply handleAnnotations_sorted.
  - intros [= <-]. by apply setConfig_sorted.
  - intros [= <-]. apply clear_sorted.
Qed.

Lemma setConfig_unsynchronized_empty h nc :
  Handler.new_synchronize nc ≠ Some None ->
  (Handler.synchronize (Handler.config h) ≠ Some true -> Handler.tree h = []) ->
  Handler.synchronize (Handler.config (Handler.setConfig h nc)) ≠ Some true ->
  Handler.tree (Handler.setConfig h nc) = [].
Proof.
  intros Hdef Hinv. unfold Handler.setConfig.
  pose proof (setConfig_resets_eq h nc) as Heq. cbv zeta in Heq.
  destruct (Handler.setConfig_resets h nc) as [h1 changed].
  assert (Hh1 : Handler.config h1 = Handler.merge_config (Handler.config h) nc
                /\ (Handler.synchronize (Handler.merge_config (Handler.config h) nc) ≠ Some true ->
                    Handler.tree h1 = [])).
  { assert (Htree1 :
      Handler.synchronize (Handler.merge_config (Handler.config h) nc) ≠ Some true ->
      (if Handler.synchronize_toggled (Handler.config h) nc then [] else Handler.tree h) = []).
    { intros Hunsync. unfold Handler.synchronize_toggled.
      unfold Handler.merge_config in Hunsync. simpl in Hunsync.
      destruct (Handler.new_synchronize nc) as [[b|]|]; simpl in Hunsync.
      - destruct (decide (Some b = Handler.synchronize (Handler.config h))) as [He|Hne].
        + rewrite bool_decide_eq_false_2 by (by intros ?). apply Hinv. by rewrite <- He.
        + by rewrite bool_decide_eq_true_2.
      - done.
      - by apply Hinv. }
    destruct (Handler.annotations_replaced _ _) as [newAnn|]; injection Heq as -> _;
      (split; [done |]); intros Hunsync; simpl.
    - rewrite (proj1 (delete_invisible_in_tree_spec _ _)).
      rewrite (Htree1 Hunsync). by destruct (Handler.imageTopic_changed _ _).
    - rewrite (Htree1 Hunsync). by destruct (Handler.imageTopic_changed _ _). }
  destruct Hh1 as [Hc1 Ht1].
  destruct changed.
  - rewrite emitState_config, Hc1. intros Hunsync. apply emitState_empty. by apply Ht1.
  - by rewrite Hc1.
Qed.

Lemma perform_unsynchronized_empty h (c : Session.Call) h' :
  Session.defines_synchronize c ->
  (Handler.synchronize (Handler.config h) ≠ Some true -> Handler.tree h = []) ->
  Session.perform getTimestampFromImage normalizeAnnotations h c = Some h' ->
  Handler.synchronize (Handler.config h') ≠ Some true -> Handler.tree h' = [].
Proof.
  intros Hdef Hinv. destruct c as [ev img|cam|ev|nc|]; simpl.
  - intros [= <-]. unfold Handler.handleImage.
    destruct (decide _) as [Hs|Hs]; rewrite emitState_config; simpl; intros Hu.
    + apply emitState_empty. simpl. by apply Hinv.
    + exfalso. apply Hs. unfold Handler.handleImage_store in Hu.
      by destruct (AVLTree.get _ _).
  - intros [= <-]. unfold Handler.handleCameraInfo. rewrite emitState_config. simpl.
    intros Hu. apply emitState_empty. simpl. by apply Hinv.
  - unfold Handler.handleAnnotations. destruct (namespaceTopic _ _) as [nt|]; [| done].
    cbn [mbind option_bind].
    destruct (decide _) as [Hs|Hs]; intros [= <-]; rewrite emitState_config; intros Hu.
    + apply emitState_empty.
      match goal with |- context [Handler.through_old ?a ?b ?c] =>
        destruct (through_old_frame a b c) as (_ & _ & -> & _)
      end.
      simpl. by apply Hinv.
    + rewrite handleAnnotations_store_eq in Hu. by destruct Hs.
  - intros [= <-]. by apply setConfig_unsynchronized_empty.
  - intros [= <-] _. unfold Handler.clear. by apply emitState_empty.
Qed.

(** X29. After any sequence of calls on a new handler that returns, the
    index is ordered by time without a repeated stamp, which is what the
    theorems on the synchronized mode assume.  When, moreover, no
    [setConfig] of the sequence passes [synchronize: undefined] explicitly,
    the index is empty whenever the handler is not in synchronized mode. *)
Theorem index_is_ordered_and_used_only_when_synchronized
    (config : Handler.MessageHandlerConfig) (calls : list Session.Call) h :
  Session.run getTimestampFromImage normalizeAnnotations
    (Handler.new_MessageHandler config) calls = Some h ->
  AVLTree.sorted (Handler.tree h)
  /\ (Forall Session.defines_synchronize calls ->
      Handler.synchronize (Handler.config h) ≠ Some true -> Handler.tree h = []).
Proof.
  revert h. induction calls as [|c calls IH] using rev_ind; intros h Hrun.
  - injection Hrun as <-. split; [constructor | done].
  - unfold Session.run in *. rewrite fold_left_app in Hrun. simpl in Hrun.
    destruct (fold_left _ calls _) as [h0|] eqn:Hrun0; [| done]. simpl in Hrun.
    destruct (IH h0 eq_refl) as [Hs Hinv]. split.
    + exact (perform_sorted h0 c h Hs Hrun).
    + intros Hall. apply Forall_app in Hall as [Hall Hc]. apply Forall_cons in Hc as [Hc _].
      exact (perform_unsynchronized_empty h0 c h Hc (Hinv Hall) Hrun).
Qed.

(** *** The previous state and the [Map] it shares

    The handler keeps the last render state it has emitted, and that state
    holds a [Map] of the handler itself.  Along every session the state
    kept reads the batches of that [Map]. *)

Lemma emitState_shares h :
  AVLTree.sorted (Handler.tree h) -> Handler.shares_the_map (Handler.emitState h).
Proof.
  intros Hs. unfold Handler.shares_the_map.
  destruct (decide (Handler.synchronize (Handler.config h) = Some true)) as [Hsync|Hsync].
  - rewrite emitState_synchronized by done. cbn [Handler.oldShares Handler.oldRenderState
      Handler.tree].
    pose proof (find_spec (Handler.visibleAnnotations h) (Handler.tree h) Hs) as Hfind.
    destruct (Handler.findSynchronizedSetAndRemoveOlderItems _ _) as [[[t e]|] tree'];
      cbn [fst snd] in *; [| done].
    destruct Hfind as (Hin & _ & _ & Hs' & Hiff).
    eexists. exists e. split_and!; [done | | done].
    apply elem_get; [done |]. apply Hiff. split; [done |]. rewrite compareTime_refl. lia.
  - rewrite emitState_unsynchronized by done. simpl. by eexists.
Qed.

Lemma get_map_values (f : @Handler.SynchronizationItem AnyImage AnnotationBody AnnotationMessage
                          -> @Handler.SynchronizationItem AnyImage AnnotationBody AnnotationMessage)
    tree (t : Time) :
  AVLTree.get t (map (fun '(k, item) => (k, f item)) tree) = f <$> AVLTree.get t tree.
Proof.
  induction tree as [|[k v] tree IH]; [done |]. simpl.
  destruct (decide (compareTime t k = 0%Z)); [done | exact IH].
Qed.

(** The batches that [setConfig] deletes are deleted from the previous
    state as well, and a [setConfig] that emits starts afresh. *)
Lemma setConfig_shares h nc :
  AVLTree.sorted (Handler.tree h) ->
  Handler.shares_the_map h -> Handler.shares_the_map (Handler.setConfig h nc).
Proof.
  intros Hs Hshares. pose proof (setConfig_resets_sorted h nc Hs) as Hs1.
  unfold Handler.setConfig.
  pose proof (setConfig_resets_eq h nc) as Heq. cbv zeta in Heq.
  destruct (Handler.setConfig_resets h nc) as [h1 changed]. simpl in Hs1.
  destruct changed; [by apply emitState_shares |].
  destruct (Handler.synchronize_toggled _ _); [by destruct (Handler.annotations_replaced _ _) |].
  destruct (Handler.imageTopic_changed _ _); [by destruct (Handler.annotations_replaced _ _) |].
  destruct (Handler.calibrationTopic_changed _ _);
    [by destruct (Handler.annotations_replaced _ _) |].
  destruct (Handler.annotations_replaced _ _) as [newAnn|].
  - injection Heq as -> _.
    set (V := Handler.visible_topics (Handler.entries newAnn)) in *.
    unfold Handler.shares_the_map in *.
    cbn [Handler.oldShares Handler.oldRenderState Handler.tree Handler.lastReceivedMessages
         Handler.annotationsByNamespacedTopic].
    destruct (Handler.oldShares h) as [| |t]; [done | |].
    + destruct Hshares as (state & Hold & Hmap). rewrite decide_False by done.
      rewrite Hold. simpl. eexists. split; [done |]. simpl. rewrite Hmap. done.
    + destruct Hshares as (state & item & Hold & Hget & Hmap). rewrite decide_False by done.
      rewrite Hold. simpl. eexists.
      exists (Handler.only_visible V item). split_and!; [done | |].
      * rewrite (proj1 (delete_invisible_in_tree_spec _ _)), get_map_values, Hget. done.
      * simpl. rewrite Hmap. simpl.
        by rewrite (proj1 (delete_invisible_spec _ _)).
  - injection Heq as ->. unfold Handler.shares_the_map in *.
    cbn [Handler.oldShares Handler.oldRenderState Handler.tree Handler.lastReceivedMessages
         Handler.annotationsByNamespacedTopic].
    by destruct h as [? ? ? [? ? ?] ? ?].
Qed.

Lemma perform_shares h (c : Session.Call) h' :
  AVLTree.sorted (Handler.tree h) ->
  Handler.shares_the_map h ->
  Session.perform getTimestampFromImage normalizeAnnotations h c = Some h' ->
  Handler.shares_the_map h'.
Proof.
  intros Hs Hshares. destruct c as [ev img|cam|ev|nc|]; simpl.
  - intros [= <-]. unfold Handler.handleImage.
    destruct (decide _); apply emitState_shares; [done |].
    unfold Handler.handleImage_store. destruct (AVLTree.get _ _); simpl; by apply set_sorted.
  - intros [= <-]. by apply emitState_shares.
  - unfold Handler.handleAnnotations. destruct (namespaceTopic _ _) as [nt|]; [| done].
    cbn [mbind option_bind].
    destruct (decide _); intros [= <-]; apply emitState_shares.
    + match goal with |- context [Handler.through_old ?a ?b ?c] =>
        destruct (through_old_frame a b c) as (_ & _ & -> & _)
      end.
      done.
    + rewrite handleAnnotations_store_eq. simpl. by apply store_groups_spec.
  - intros [= <-]. by apply setConfig_shares.
  - intros [= <-]. unfold Handler.clear. apply emitState_shares. constructor.
Qed.

(** After any sequence of calls on a new handler, the previous state reads
    the [Map] that it is recorded to share. *)
Lemma previous_state_reads_the_map_it_shares
    (config : Handler.MessageHandlerConfig) (calls : list Session.Call) h :
  Session.run getTimestampFromImage normalizeAnnotations
    (Handler.new_MessageHandler config) calls = Some h ->
  AVLTree.sorted (Handler.tree h) /\ Handler.shares_the_map h.
Proof.
  revert h. induction calls as [|c calls IH] using rev_ind; intros h Hrun.
  - injection Hrun as <-. split; [constructor | done].
  - unfold Session.run in *. rewrite fold_left_app in Hrun. simpl in Hrun.
    destruct (fold_left _ calls _) as [h0|] eqn:Hrun0; [| done]. simpl in Hrun.
    destruct (IH h0 eq_refl) as [Hs Hshares]. split.
    + exact (perform_sorted h0 c h Hs Hrun).
    + exact (perform_shares h0 c h Hs Hshares Hrun).
Qed.
End SessionFacts.

(** An image and annotations stamped t = 0 when the set of t = 2 is in the
    index. *)
Lemma late_messages_change_nothing_witness :
  Handler.handleImage Samples.timestamp_of Samples.synchronized_handler
    (Samples.image_at 0) (mkTime 0 0)
  = Handler.emitState Samples.synchronized_handler
  /\ Handler.handleAnnotations Samples.annotations_of Samples.synchronized_handler
       (Samples.annotations_at 0)
     = Some (Handler.emitState Samples.synchronized_handler).
Proof.
  destruct (late_messages_change_nothing Samples.timestamp_of Samples.annotations_of
              Samples.synchronized_handler (mkTime 2 0) (Samples.item true 2 ["X"]))
    as [Himage Hannotations].
  - reflexivity.
  - repeat constructor.
  - apply list_elem_of_further, list_elem_of_here.
  - split; [by eexists | reflexivity].
  - split; [apply Himage; reflexivity |].
    destruct (Hannotations (Samples.annotations_at 0) Samples.nt_X eq_refl)
      as (previous & _ & Hsame & _).
    + intros a Ha. apply list_elem_of_singleton in Ha as ->. reflexivity.
    + apply Hsame. intros t Ht. discriminate Ht.
Defined.

(** An image stamped t = 2 after the image of t = 1. *)
Lemma newest_image_is_shown_at_once_without_annotations_witness :
  Handler.tree
    (Handler.handleImage Samples.timestamp_of Samples.image_only_handler
       (Samples.image_at 2) (mkTime 2 0))
  = [(mkTime 2 0,
      {| Handler.item_image := Some (Samples.image_at 2);
         Handler.item_annotationsByNamespacedTopic := ∅ |})].
Proof.
  destruct (newest_image_is_shown_at_once_without_annotations Samples.timestamp_of
              Samples.image_only_handler (Samples.image_at 2) (mkTime 2 0))
    as (Htree & _).
  - reflexivity.
  - reflexivity.
  - intros k v Hin. apply list_elem_of_singleton in Hin. injection Hin as -> _. reflexivity.
  - exact Htree.
Defined.

Lemma unsynchronized_mode_shows_the_latest_messages_witness :
  Handler.tree
    (Handler.handleImage Samples.timestamp_of Samples.unsynchronized_handler
       (Samples.image_at 1) (mkTime 1 0)) = []
  /\ Handler.image
       (Handler.lastReceivedMessages
          (Handler.handleImage Samples.timestamp_of Samples.unsynchronized_handler
             (Samples.image_at 1) (mkTime 1 0)))
     = Some (Samples.image_at 1)
  /\ exists h',
       Handler.handleAnnotations Samples.annotations_of Samples.shown_once_handler
         (Samples.annotations_at 2) = Some h'
       /\ Handler.emitted h'
          = Handler.emitted Samples.shown_once_handler
            ++ [(default (Handler.mkMessageRenderState None None None)
                   (Handler.oldRenderState h'),
                 Handler.oldRenderState h')]
       /\ (Handler.oldRenderState h' ≫= Handler.rs_annotationsByNamespacedTopic)
            ≫= (fun batches => batches !! Samples.nt_X)
          = Some {| Handler.originalMessage := Samples.annotations_at 2;
                    Handler.annotations := [Handler.mkAnnotation (mkTime 2 0) tt] |}.
Proof.
  destruct (unsynchronized_mode_shows_the_latest_messages Samples.timestamp_of
              Samples.annotations_of Samples.unsynchronized_handler)
    as (_ & Himage & _); [discriminate |].
  destruct (Himage (Samples.image_at 1) (mkTime 1 0)) as (Htree & Hlast & _).
  split; [exact Htree |]. split; [by rewrite Hlast |].
  destruct (unsynchronized_mode_shows_the_latest_messages Samples.timestamp_of
              Samples.annotations_of Samples.shown_once_handler)
    as (_ & _ & Hannotations); [discriminate |].
  destruct (Hannotations (Samples.annotations_at 2) Samples.nt_X eq_refl)
    as (h' & Hcall & _ & _ & Hemit & Hold & _).
  exists h'. split; [exact Hcall |]. rewrite Hemit, Hold. split; reflexivity.
Defined.

(** The image of t = 3, where the index holds the annotations of [X] only;
    and annotations of the shown pair that arrive again: the previous state
    handed to the listeners reads the new batch like the new state. *)
Lemma last_piece_completes_the_synchronized_set_witness :
  Handler.emitted
    (Handler.handleImage Samples.timestamp_of Samples.synchronized_handler
       (Samples.image_at 3) (mkTime 3 0))
  = [({| Handler.rs_cameraInfo := Some "calibration";
         Handler.rs_image := Some (Samples.image_at 3);
         Handler.rs_annotationsByNamespacedTopic :=
           Some (Handler.item_annotationsByNamespacedTopic (Samples.item false 3 ["X"])) |},
      None)]
  /\ exists h',
       Handler.handleAnnotations Samples.annotations_of Samples.shown_pair_handler
         Samples.annotations_again = Some h'
       /\ Handler.emitted h'
          = Handler.emitted Samples.shown_pair_handler
            ++ [(default (Handler.mkMessageRenderState None None None)
                   (Handler.oldRenderState h'),
                 Handler.oldRenderState h')]
       /\ (Handler.oldRenderState h' ≫= Handler.rs_annotationsByNamespacedTopic)
            ≫= (fun batches => batches !! Samples.nt_X)
          = Some {| Handler.originalMessage := Samples.annotations_again;
                    Handler.annotations := [Handler.mkAnnotation (mkTime 1 0) tt] |}.
Proof.
  split.
  - destruct (last_piece_completes_the_synchronized_set Samples.timestamp_of
                Samples.annotations_of Samples.synchronized_handler (mkTime 3 0)
                (Samples.item false 3 ["X"]))
      as [Himage _].
    + reflexivity.
    + repeat constructor.
    + reflexivity.
    + intros k v Hin _.
      repeat (apply elem_of_cons in Hin as [[= -> _]|Hin]); [discriminate .. |].
      by apply elem_of_nil in Hin.
    + destruct (Himage (Samples.image_at 3) (mkTime 3 0) eq_refl eq_refl) as [Hemit _].
      exact Hemit.
  - destruct (last_piece_completes_the_synchronized_set Samples.timestamp_of
                Samples.annotations_of Samples.shown_pair_handler (mkTime 1 0)
                {| Handler.item_image := Some (Samples.image_at 1);
                   Handler.item_annotationsByNamespacedTopic :=
                     {[Samples.nt_X :=
                         {| Handler.originalMessage := Samples.annotations_at 1;
                            Handler.annotations := [Handler.mkAnnotation (mkTime 1 0) tt] |}]} |})
      as [_ Hannotations].
    + reflexivity.
    + vm_compute. repeat constructor.
    + reflexivity.
    + intros k v Hin _. vm_compute in Hin.
      apply list_elem_of_singleton in Hin. injection Hin as -> _. discriminate.
    + destruct (Hannotations Samples.annotations_again Samples.nt_X 1000000000%Z eq_refl)
        as (h' & Hcall & Hemit & Hold & _).
      * discriminate.
      * intros a Ha. apply list_elem_of_singleton in Ha as ->. reflexivity.
      * reflexivity.
      * by eexists.
      * reflexivity.
      * exists h'. split; [exact Hcall |]. rewrite Hemit, Hold. split; reflexivity.
Defined.


Lemma annotation_message_without_annotations_witness :
  Handler.handleAnnotations Samples.annotations_of Samples.synchronized_handler
    Samples.empty_annotations
  = Some (Handler.emitState Samples.synchronized_handler).
Proof.
  destruct (annotation_message_without_annotations Samples.annotations_of
              Samples.synchronized_handler Samples.empty_annotations Samples.nt_X)
    as [Hsync _].
  - reflexivity.
  - reflexivity.
  - by apply Hsync.
Defined.

(** An image and its annotations, then synchronization is switched off and
    another image comes in. *)
Lemma index_is_ordered_and_used_only_when_synchronized_witness :
  exists h,
    Session.run Samples.timestamp_of Samples.annotations_of
      (Handler.new_MessageHandler (Samples.handler_config [Samples.nt_X]))
      Samples.panel_session = Some h
    /\ Handler.tree h = [].
Proof.
  eexists. split; [vm_compute; reflexivity |].
  eapply (index_is_ordered_and_used_only_when_synchronized Samples.timestamp_of
            Samples.annotations_of (Samples.handler_config [Samples.nt_X])
            Samples.panel_session).
  - vm_compute. reflexivity.
  - repeat constructor. discriminate.
  - discriminate.
Defined.
